(** * termrecord: the watcher daemon's index, export queue, retention
      cleanup and status server, embedded from the Python sources.

    Tables of the SQLite index are lists of rows in rowid order; files on
    disk are a finite map from path to size; Python exceptions are values of
    [exn] carried by [result].  REAL columns (timestamp, duration) are
    modelled by integers: their order and equality are used, they are
    dumped as the floats nearest to them, and the rounding of float
    arithmetic is not modelled. *)

From Stdlib Require Import ZArith QArith List Bool Ascii String Sorted Permutation Lia SpecFloat.
From stdpp Require Import base option list strings gmap pretty.

Local Open Scope Z_scope.

(** ** Python exceptions and results *)

Inductive exn :=
| RuntimeError (msg : string)
| TypeError (msg : string)
| ValueError (msg : string)
| AttributeError (msg : string)
| OSError (errno : Z) (strerror filename : string)
| JSONDecodeError (msg : string)
| ValidationError (msg : string)
| DatabaseError (msg : string).

(** [str(e)] *)
Definition str_exn (e : exn) : string :=
  match e with
  | RuntimeError m | TypeError m | ValueError m | AttributeError m
  | JSONDecodeError m | ValidationError m | DatabaseError m => m
  | OSError n s f => "[Errno " +:+ pretty n +:+ "] " +:+ s +:+ ": '" +:+ f +:+ "'"
  end.

Inductive result (A : Type) :=
| Ok (a : A)
| Raise (e : exn).
Arguments Ok {A} a.
Arguments Raise {A} e.

Definition bind_result {A B} (r : result A) (k : A -> result B) : result B :=
  match r with
  | Ok a => k a
  | Raise e => Raise e
  end.

#[global] Instance result_ret : MRet result := fun _ a => Ok a.
#[global] Instance result_bind : MBind result := fun _ _ k r => bind_result r k.

(** ** Python str *)
Module PyStr.

Definition backslash : ascii := ascii_of_nat 92.
Definition double_quote : ascii := ascii_of_nat 34.
Definition single_quote : ascii := ascii_of_nat 39.

Definition occurs (c : ascii) (s : string) : bool :=
  match String.index 0 (String c EmptyString) s with
  | Some _ => true
  | None => false
  end.

Definition hex_digit (n : nat) : ascii :=
  match String.get n "0123456789abcdef" with
  | Some c => c
  | None => "0"%char
  end.

(** One character of [repr(s)] between the quotes [quote]. *)
Definition escape (quote c : ascii) : string :=
  let n := nat_of_ascii c in
  if Ascii.eqb c quote || Ascii.eqb c backslash then String backslash (String c EmptyString)
  else if (n =? 9)%nat then String backslash "t"
  else if (n =? 10)%nat then String backslash "n"
  else if (n =? 13)%nat then String backslash "r"
  else if (n <? 32)%nat || (n =? 127)%nat
       then String backslash (String "x" (String (hex_digit (n / 16))
                                                 (String (hex_digit (n mod 16)) EmptyString)))
       else String c EmptyString.

Fixpoint escape_all (quote : ascii) (s : string) : string :=
  match s with
  | EmptyString => String quote EmptyString
  | String c rest => escape quote c +:+ escape_all quote rest
  end.

(** [repr(s)]: between single quotes, or between double quotes when [s]
    holds a single quote and no double quote; the quote, the backslash and
    the control characters are escaped.  Bytes above 127 are copied: the
    characters they encode are taken as printable. *)
Definition repr (s : string) : string :=
  let quote := if occurs single_quote s && negb (occurs double_quote s)
               then double_quote else single_quote in
  String quote (escape_all quote s).

End PyStr.

(** ** pathlib.PurePosixPath on path strings

    A path is the string [str(path)].  [join] parses both operands and
    gives the normal form pathlib gives (no doubled slash, no [.]
    component, no trailing slash); [name], [with_suffix] and [relative_to]
    take paths in that form. *)
Module PurePath.

Fixpoint contains (c : ascii) (s : string) : bool :=
  match s with
  | EmptyString => false
  | String d rest => if Ascii.eqb c d then true else contains c rest
  end.

(** the final component, [Path.name] *)
Fixpoint name (p : string) : string :=
  match p with
  | EmptyString => EmptyString
  | String c rest => if contains "/" rest then name rest
                     else if Ascii.eqb c "/" then rest else p
  end.

(** everything before the final component, with its slash *)
Fixpoint dir (p : string) : string :=
  match p with
  | EmptyString => EmptyString
  | String c rest => if contains "/" rest then String c (dir rest)
                     else if Ascii.eqb c "/" then "/"%string else EmptyString
  end.

(** [n] without its last suffix, scanning after the first character: the
    suffix starts at the last dot, provided that dot is neither the first
    nor the last character of the name. *)
Fixpoint strip_suffix (n : string) : string :=
  match n with
  | EmptyString => EmptyString
  | String c rest =>
      if Ascii.eqb c "." && negb (contains "." rest)
      then (if String.eqb rest EmptyString then n else EmptyString)
      else String c (strip_suffix rest)
  end.

(** [Path.stem] *)
Definition stem (n : string) : string :=
  match n with
  | EmptyString => EmptyString
  | String c rest => String c (strip_suffix rest)
  end.

(** [p.with_suffix(suffix)], for a path with a non-empty name; on an
    empty name pathlib raises ValueError. *)
Definition with_suffix (p suffix : string) : string :=
  dir p +:+ stem (name p) +:+ suffix.

(** The pieces of [s] between its slashes. *)
Fixpoint split (s : string) : list string :=
  match s with
  | EmptyString => [EmptyString]
  | String c rest =>
      if Ascii.eqb c "/" then EmptyString :: split rest
      else match split rest with
           | part :: parts => String c part :: parts
           | [] => [String c EmptyString]
           end
  end.

(** The components pathlib keeps: the pieces that are neither empty nor
    [.]; a [..] is kept. *)
Definition components (s : string) : list string :=
  List.filter (fun part => negb (String.eqb part EmptyString || String.eqb part "."))
              (split s).

(** The root: [//] for exactly two leading slashes, [/] for one or for
    three and more, none for a relative path. *)
Definition root (s : string) : string :=
  if String.prefix "/" s
  then if String.prefix "//" s && negb (String.prefix "///" s) then "//"%string else "/"%string
  else EmptyString.

(** [str] of the path with root [r] and components [parts] *)
Definition format_parsed_parts (r : string) (parts : list string) : string :=
  match r, parts with
  | EmptyString, [] => "."%string
  | _, _ => r +:+ String.concat "/" parts
  end.

(** [str(PurePosixPath(s))] *)
Definition normalize (s : string) : string :=
  format_parsed_parts (root s) (components s).

(** [str(PurePosixPath(a) / b)]: an absolute [b] replaces [a]; a relative
    [b] adds its components to those of [a]. *)
Definition join (a b : string) : string :=
  if String.prefix "/" b then normalize b
  else format_parsed_parts (root a) (components a ++ components b).

Fixpoint drop (n : nat) (s : string) : string :=
  match n, s with
  | O, _ => s
  | S n', String _ rest => drop n' rest
  | S _, EmptyString => EmptyString
  end.

(** [p.relative_to(root)] *)
Definition relative_to (p root : string) : result string :=
  if String.eqb p root then Ok "."%string
  else if String.prefix (root +:+ "/") p
       then Ok (drop (String.length root + 1) p)
       else Raise (ValueError (PyStr.repr p +:+ " is not in the subpath of " +:+ PyStr.repr root
                               +:+ " OR one path is relative and the other is absolute.")).

End PurePath.

(** A component as pathlib keeps it. *)
Definition component_ok (p : string) : Prop :=
  p <> EmptyString /\ p <> "."%string /\ PurePath.contains "/" p = false.

(** ** models/metadata.py and models/index.py *)

Module RecordingFiles.
Record t := mk {
  cast : option string;
  gif : option string;
  screenshot : option string }.
End RecordingFiles.

Module RecordingMetadata.
Record t := mk {
  id : string;
  atuin_id : option string;
  command : string;
  timestamp : Z;
  duration : option Z;
  exit_code : option Z;
  cwd : string;
  shell : string;
  user : string;
  hostname : string;
  files : RecordingFiles.t }.
End RecordingMetadata.

(** A row of table [recordings]; [IndexedRecording.from_row] maps the
    columns to the fields of the same name. *)
Module IndexedRecording.
Record t := mk {
  id : string;
  atuin_id : option string;
  command : string;
  timestamp : Z;
  duration : option Z;
  exit_code : option Z;
  cwd : string;
  shell : option string;
  user : option string;
  hostname : option string;
  cast_path : option string;
  gif_path : option string;
  screenshot_path : option string;
  meta_path : string;
  indexed_at : Z }.

Definition set_gif_path (g : option string) (r : t) : t :=
  mk (id r) (atuin_id r) (command r) (timestamp r) (duration r) (exit_code r)
     (cwd r) (shell r) (user r) (hostname r) (cast_path r) g
     (screenshot_path r) (meta_path r) (indexed_at r).
End IndexedRecording.

(** A row of table [export_queue]. *)
Inductive job_status := pending | processing | done | failed.

Module ExportJob.
Record t := mk {
  id : Z;
  recording_id : string;
  export_type : string;
  status : job_status;
  created_at : Z;
  completed_at : option Z;
  error : option string }.

Definition set_status (s : job_status) (j : t) : t :=
  mk (id j) (recording_id j) (export_type j) s (created_at j) (completed_at j) (error j).
Definition set_completed_at (c : option Z) (j : t) : t :=
  mk (id j) (recording_id j) (export_type j) (status j) (created_at j) c (error j).
Definition set_error (e : option string) (j : t) : t :=
  mk (id j) (recording_id j) (export_type j) (status j) (created_at j) (completed_at j) e.
End ExportJob.

(** The index file: both tables, and the AUTOINCREMENT counter of
    [export_queue] (table [state] is never read or written). *)
Record Database := mkDatabase {
  recordings : list IndexedRecording.t;
  export_queue : list ExportJob.t;
  export_queue_seq : Z }.

Definition set_recordings (rs : list IndexedRecording.t) (db : Database) : Database :=
  mkDatabase rs (export_queue db) (export_queue_seq db).
Definition set_export_queue (q : list ExportJob.t) (db : Database) : Database :=
  mkDatabase (recordings db) q (export_queue_seq db).

(** ** SQLite: the operators the queries use *)
Module Sqlite.

Definition lower (c : ascii) : ascii :=
  let n := nat_of_ascii c in
  if ((65 <=? n) && (n <=? 90))%nat then ascii_of_nat (n + 32) else c.

(** [s LIKE pat] without ESCAPE: [%] matches any run of characters, [_]
    any one character, and any other character matches itself up to ASCII
    case. *)
Fixpoint like (pat : string) : string -> bool :=
  match pat with
  | EmptyString => fun s => String.eqb s EmptyString
  | String c pat' =>
      if Ascii.eqb c "%" then
        fix any (s : string) : bool :=
          like pat' s || match s with
                         | EmptyString => false
                         | String _ s' => any s'
                         end
      else if Ascii.eqb c "_" then
        fun s => match s with
                 | EmptyString => false
                 | String _ s' => like pat' s'
                 end
      else
        fun s => match s with
                 | EmptyString => false
                 | String d s' => Ascii.eqb (lower c) (lower d) && like pat' s'
                 end
  end.

(** [LIMIT limit OFFSET offset]: a negative limit is no limit, a negative
    offset is no offset. *)
Definition limit_offset {A} (limit offset : Z) (rows : list A) : list A :=
  let rest := skipn (Z.to_nat offset) rows in
  if limit <? 0 then rest else firstn (Z.to_nat limit) rest.

(** [ORDER BY key] and [ORDER BY key DESC] on a NOT NULL numeric column.
    SQL leaves the order of rows with equal keys open; here they keep the
    order of the scan. *)
Fixpoint insert_asc {A} (key : A -> Z) (x : A) (l : list A) : list A :=
  match l with
  | [] => [x]
  | y :: l' => if key x <=? key y then x :: l else y :: insert_asc key x l'
  end.

Fixpoint insert_desc {A} (key : A -> Z) (x : A) (l : list A) : list A :=
  match l with
  | [] => [x]
  | y :: l' => if key y <=? key x then x :: l else y :: insert_desc key x l'
  end.

Definition order_by {A} (key : A -> Z) (rows : list A) : list A :=
  foldr (insert_asc key) [] rows.

Definition order_by_desc {A} (key : A -> Z) (rows : list A) : list A :=
  foldr (insert_desc key) [] rows.

(** [col != 0] on a nullable INTEGER column: NULL is not a match. *)
Definition ne_zero (v : option Z) : bool :=
  match v with
  | Some n => negb (n =? 0)
  | None => false
  end.

(** [col = ?] on a nullable TEXT column, binary collation. *)
Definition text_eq (v : option string) (x : string) : bool :=
  match v with
  | Some s => String.eqb s x
  | None => false
  end.

End Sqlite.

(** ** watcher/indexer.py *)

(** The row that [INSERT OR REPLACE] writes: the fourteen listed columns
    from the metadata, and [indexed_at] from its DEFAULT, the clock. *)
Definition row_of_metadata (now : Z) (meta_path : string) (meta : RecordingMetadata.t)
  : IndexedRecording.t :=
  IndexedRecording.mk
    (RecordingMetadata.id meta)
    (RecordingMetadata.atuin_id meta)
    (RecordingMetadata.command meta)
    (RecordingMetadata.timestamp meta)
    (RecordingMetadata.duration meta)
    (RecordingMetadata.exit_code meta)
    (RecordingMetadata.cwd meta)
    (Some (RecordingMetadata.shell meta))
    (Some (RecordingMetadata.user meta))
    (Some (RecordingMetadata.hostname meta))
    (RecordingFiles.cast (RecordingMetadata.files meta))
    (RecordingFiles.gif (RecordingMetadata.files meta))
    (RecordingFiles.screenshot (RecordingMetadata.files meta))
    meta_path
    now.

(** A stored row stands in the way of [new] when it has the same primary
    key, or the same non-NULL [atuin_id] (the UNIQUE column). *)
Definition conflicts (new old : IndexedRecording.t) : bool :=
  String.eqb (IndexedRecording.id old) (IndexedRecording.id new)
  || match IndexedRecording.atuin_id new with
     | Some a => Sqlite.text_eq (IndexedRecording.atuin_id old) a
     | None => false
     end.

(** [INSERT OR REPLACE INTO recordings]: the rows in the way are deleted,
    the new row is added at the end. *)
Definition insert_or_replace (new : IndexedRecording.t) (rows : list IndexedRecording.t)
  : list IndexedRecording.t :=
  List.filter (fun old => negb (conflicts new old)) rows ++ [new].

Section Indexer.

(** [RecordingMetadata.model_validate_json(meta_path.read_text())]: the
    content of the metadata files, parsed, or the exception of the read or
    of the validation. *)
Variable read_meta : string -> result RecordingMetadata.t.

Definition index_recording (now : Z) (meta_path : string) (db : Database) : result Database :=
  meta ← read_meta meta_path;
  Ok (set_recordings (insert_or_replace (row_of_metadata now meta_path meta) (recordings db)) db).

End Indexer.

Definition get_by_atuin_id (db : Database) (atuin_id : string) : option IndexedRecording.t :=
  List.find (fun r => Sqlite.text_eq (IndexedRecording.atuin_id r) atuin_id) (recordings db).

Definition get_by_id (db : Database) (recording_id : string) : option IndexedRecording.t :=
  List.find (fun r => String.eqb (IndexedRecording.id r) recording_id) (recordings db).

(** [cwd] is [None] or a string; the empty string is falsy and adds no
    condition. *)
Definition list_recordings (db : Database) (limit offset : Z) (failed_only : bool)
    (cwd : option string) : list IndexedRecording.t :=
  let rows := recordings db in
  let rows := if failed_only
              then List.filter (fun r => Sqlite.ne_zero (IndexedRecording.exit_code r)) rows
              else rows in
  let rows := match cwd with
              | Some c => if String.eqb c EmptyString then rows
                          else List.filter (fun r => Sqlite.like (c +:+ "%") (IndexedRecording.cwd r)) rows
              | None => rows
              end in
  Sqlite.limit_offset limit offset (Sqlite.order_by_desc IndexedRecording.timestamp rows).

Record Stats := mkStats { total_count : Z; failed_count : Z }.

Definition get_stats (db : Database) : Stats :=
  mkStats (Z.of_nat (length (recordings db)))
          (Z.of_nat (length (List.filter (fun r => Sqlite.ne_zero (IndexedRecording.exit_code r))
                                         (recordings db)))).

(** Returns the new index and whether a row was removed. *)
Definition delete_recording (db : Database) (recording_id : string) : Database * bool :=
  let keep := List.filter (fun r => negb (String.eqb (IndexedRecording.id r) recording_id))
                          (recordings db) in
  (set_recordings keep db, (length keep <? length (recordings db))%nat).

(** ** models/config.py (the fields the daemon reads) *)

Record RetentionConfig := mkRetentionConfig {
  max_age_days : Z;
  max_size_gb : Q;
  max_count : Z;
  cleanup_interval_hours : Z }.

Record ExportConfig := mkExportConfig {
  gif_enabled : bool;
  gif_speed : Q;
  gif_max_idle : Q }.

(** [storage_dir] is [config.recording.storage_dir.expanduser()]. *)
Record Config := mkConfig {
  storage_dir : string;
  retention : RetentionConfig;
  export : ExportConfig }.

Definition recordings_root (config : Config) : string :=
  PurePath.join (storage_dir config) "recordings".

(** ** watcher/exporter.py *)

(** One execution of the external renderer [agg]. *)
Record AggCall := mkAggCall {
  agg_cast : string;
  agg_gif : string;
  agg_speed : Q;
  agg_idle_time_limit : Q }.

(** What the execution does: the process cannot be started, or it exits
    with a return code and its decoded standard error. *)
Inductive AggOutcome :=
| SpawnFailed (errno : Z) (strerror : string)
| Exited (returncode : Z) (stderr : string).

Definition next_job_id (db : Database) : Z :=
  foldr (fun j m => Z.max (ExportJob.id j) m) (export_queue_seq db) (export_queue db) + 1.

Definition enqueue (now : Z) (db : Database) (recording_id export_type : string) : Database :=
  let i := next_job_id db in
  mkDatabase (recordings db)
             (export_queue db ++ [ExportJob.mk i recording_id export_type pending now None None])
             i.

Definition is_pending (j : ExportJob.t) : bool :=
  match ExportJob.status j with
  | pending => true
  | _ => false
  end.

(** [export_queue eq JOIN recordings r ON eq.recording_id = r.id WHERE
    eq.status = 'pending']. *)
Definition pending_joined (db : Database) : list (ExportJob.t * IndexedRecording.t) :=
  flat_map (fun eq =>
              map (fun r => (eq, r))
                  (List.filter (fun r => String.eqb (ExportJob.recording_id eq) (IndexedRecording.id r))
                               (recordings db)))
           (List.filter is_pending (export_queue db)).

(** [... ORDER BY eq.created_at LIMIT 1], then [fetchone]. *)
Definition select_next (db : Database) : option (ExportJob.t * IndexedRecording.t) :=
  head (Sqlite.order_by (fun p => ExportJob.created_at (fst p)) (pending_joined db)).

(** [UPDATE export_queue SET ... WHERE id = queue_id] *)
Definition update_job (queue_id : Z) (f : ExportJob.t -> ExportJob.t) (db : Database) : Database :=
  set_export_queue (map (fun j => if ExportJob.id j =? queue_id then f j else j) (export_queue db)) db.

(** [UPDATE recordings SET gif_path = ? WHERE id = recording_id] *)
Definition update_gif_path (recording_id gif : string) (db : Database) : Database :=
  set_recordings
    (map (fun r => if String.eqb (IndexedRecording.id r) recording_id
                   then IndexedRecording.set_gif_path (Some gif) r else r)
         (recordings db)) db.

(** Returns the index, or the exception raised, and the renderer
    executions made.  Every raise comes before the UPDATE. *)
Definition _generate_gif (config : Config) (outcome : AggOutcome) (db : Database)
    (recording_id : string) (cast_path : option string) : result Database * list AggCall :=
  match cast_path with
  | None => (Raise (TypeError "unsupported operand type(s) for /: 'PosixPath' and 'NoneType'"), [])
  | Some cast =>
      let full_cast_path := PurePath.join (recordings_root config) cast in
      if String.eqb (PurePath.name full_cast_path) EmptyString
      then (Raise (ValueError ("PosixPath(" +:+ PyStr.repr full_cast_path
                               +:+ ") has an empty name")), [])
      else
        let gif_path := PurePath.with_suffix full_cast_path ".gif" in
        let call := mkAggCall full_cast_path gif_path
                              (gif_speed (export config)) (gif_max_idle (export config)) in
        match outcome with
        | SpawnFailed errno strerror => (Raise (OSError errno strerror "agg"), [call])
        | Exited returncode stderr =>
            if negb (returncode =? 0)
            then (Raise (RuntimeError ("agg failed: " +:+ stderr)), [call])
            else match PurePath.relative_to gif_path (recordings_root config) with
                 | Raise e => (Raise e, [call])
                 | Ok relative_gif => (Ok (update_gif_path recording_id relative_gif db), [call])
                 end
        end
  end.

(** The first half of [_process_next]: the SELECT, and for the row it
    finds the UPDATE to 'processing' with its commit. *)
Definition claim_next (db : Database) : option (ExportJob.t * IndexedRecording.t * Database) :=
  match select_next db with
  | None => None
  | Some (job, r) =>
      Some (job, r, update_job (ExportJob.id job) (ExportJob.set_status processing) db)
  end.

(** One worker cycle at clock [now]; [outcome] is what the renderer does
    if the cycle executes it. *)
Definition _process_next (config : Config) (now : Z) (outcome : AggOutcome) (db : Database)
  : Database * list AggCall :=
  match claim_next db with
  | None => (db, [])
  | Some (job, r, db1) =>
      let queue_id := ExportJob.id job in
      let '(tried, calls) :=
        if String.eqb (ExportJob.export_type job) "gif"
        then _generate_gif config outcome db1 (ExportJob.recording_id job)
                           (IndexedRecording.cast_path r)
        else (Ok db1, []) in
      match tried with
      | Ok db2 =>
          (update_job queue_id
             (fun j => ExportJob.set_completed_at (Some now) (ExportJob.set_status done j)) db2,
           calls)
      | Raise e =>
          (update_job queue_id
             (fun j => ExportJob.set_error (Some (str_exn e)) (ExportJob.set_status failed j)) db1,
           calls)
      end
  end.

(** Successive worker cycles of [_process_loop], each with its clock and
    with what the renderer does in it. *)
Definition run_cycles (config : Config) (cycles : list (Z * AggOutcome)) (db : Database) : Database :=
  foldl (fun d c => (_process_next config c.1 c.2 d).1) db cycles.

(** ** watcher/cleanup.py *)

(** The index and the files on disk (path to size in bytes).  A file is
    keyed by the path string by which the code reaches it, in pathlib's
    normal form; relative paths are not resolved against a working
    directory. *)
Record World := mkWorld {
  index : Database;
  files : gmap string Z }.

Record CleanupResult := mkCleanupResult {
  deleted_count : Z;
  freed_bytes : Z }.

(** [if p.exists(): freed += p.stat().st_size; p.unlink()] *)
Definition unlink_if_exists (acc : Z * gmap string Z) (p : string) : Z * gmap string Z :=
  match acc.2 !! p with
  | Some size => (acc.1 + size, delete p acc.2)
  | None => acc
  end.

(** [meta_path] is the path of a metadata file that was read at indexing,
    so its name is not empty and [with_suffix] does not raise. *)
Definition _delete_recording_files (w : World) (recording_id meta_path : string) : Z * World :=
  let paths := meta_path :: map (PurePath.with_suffix meta_path) [".cast"; ".gif"; ".png"]%string in
  let '(freed, fs) := foldl unlink_if_exists (0, files w) paths in
  (freed, mkWorld (delete_recording (index w) recording_id).1 fs).

Definition _calculate_storage_size (config : Config) (w : World) : Z :=
  map_fold (fun path size total =>
              if String.prefix (recordings_root config +:+ "/") path then total + size else total)
           0 (files w).

Definition id_meta_path (r : IndexedRecording.t) : string * string :=
  (IndexedRecording.id r, IndexedRecording.meta_path r).

(** The loop body shared by the age and count passes, over the rows the
    query returned. *)
Fixpoint delete_rows (dry_run : bool) (rows : list (string * string))
    (acc : CleanupResult) (w : World) : CleanupResult * World :=
  match rows with
  | [] => (acc, w)
  | (recording_id, meta_path) :: rest =>
      if dry_run
      then delete_rows dry_run rest (mkCleanupResult (deleted_count acc + 1) (freed_bytes acc)) w
      else
        let '(freed, w') := _delete_recording_files w recording_id meta_path in
        delete_rows dry_run rest
                    (mkCleanupResult (deleted_count acc + 1) (freed_bytes acc + freed)) w'
  end.

(** The loop of the size pass: stops at the first row reached with
    [current_size <= max_bytes]. *)
Fixpoint delete_until (dry_run : bool) (max_bytes : Q) (rows : list (string * string))
    (current_size : Z) (acc : CleanupResult) (w : World) : CleanupResult * World :=
  match rows with
  | [] => (acc, w)
  | (recording_id, meta_path) :: rest =>
      if Qle_bool (inject_Z current_size) max_bytes then (acc, w)
      else if dry_run
      then delete_until dry_run max_bytes rest current_size
                        (mkCleanupResult (deleted_count acc + 1) (freed_bytes acc)) w
      else
        let '(freed, w') := _delete_recording_files w recording_id meta_path in
        delete_until dry_run max_bytes rest (current_size - freed)
                     (mkCleanupResult (deleted_count acc + 1) (freed_bytes acc + freed)) w'
  end.

(** [now] is [time.time()].  Each pass iterates over the rows its query
    finds in the index as the pass starts. *)
Definition run_cleanup (config : Config) (now : Z) (dry_run : bool) (w : World)
  : CleanupResult * World :=
  let acc := mkCleanupResult 0 0 in
  (* 1. Delete by age *)
  let max_age_seconds := max_age_days (retention config) * 86400 in
  let cutoff := now - max_age_seconds in
  let rows := map id_meta_path
                  (List.filter (fun r => IndexedRecording.timestamp r <? cutoff)
                               (recordings (index w))) in
  let '(acc, w) := delete_rows dry_run rows acc w in
  (* 2. Delete by count (keep newest) *)
  let rows := map id_meta_path
                  (Sqlite.limit_offset (-1) (max_count (retention config))
                     (Sqlite.order_by_desc IndexedRecording.timestamp (recordings (index w)))) in
  let '(acc, w) := delete_rows dry_run rows acc w in
  (* 3. Delete by size (oldest first until under limit) *)
  let max_bytes := (max_size_gb (retention config) * inject_Z (1024 * 1024 * 1024))%Q in
  let current_size := _calculate_storage_size config w in
  if negb (Qle_bool (inject_Z current_size) max_bytes)
  then delete_until dry_run max_bytes
                    (map id_meta_path (Sqlite.order_by IndexedRecording.timestamp (recordings (index w))))
                    current_size acc w
  else (acc, w).

(** ** watcher/server.py *)

(** Python values as [json.loads] builds them and [json.dumps] prints
    them.  A dict lists each key once. *)
#[local] Unset Elimination Schemes.
Inductive json :=
| JNull
| JBool (b : bool)
| JInt (n : Z)
| JFloat (f : spec_float)
| JStr (s : string)
| JArr (items : list json)
| JObj (fields : list (string * json)).
#[local] Set Elimination Schemes.

(** [d.get(key)] *)
Fixpoint dict_get (key : string) (fields : list (string * json)) : option json :=
  match fields with
  | [] => None
  | (k, v) :: rest => if String.eqb k key then Some v else dict_get key rest
  end.

(** [type(v).__name__] *)
Definition type_name (v : json) : string :=
  match v with
  | JNull => "NoneType"
  | JBool _ => "bool"
  | JInt _ => "int"
  | JFloat _ => "float"
  | JStr _ => "str"
  | JArr _ => "list"
  | JObj _ => "dict"
  end.

(** [bool(v)] *)
Definition truthy (v : json) : bool :=
  match v with
  | JNull => false
  | JBool b => b
  | JInt n => negb (n =? 0)
  | JFloat (S754_zero _) => false
  | JFloat _ => true
  | JStr s => negb (String.eqb s EmptyString)
  | JArr items => match items with [] => false | _ => true end
  | JObj fields => match fields with [] => false | _ => true end
  end.

(** [v == s] for a str [s] *)
Definition eq_str (v : json) (s : string) : bool :=
  match v with
  | JStr s' => String.eqb s' s
  | _ => false
  end.

Definition json_opt {A} (f : A -> json) (o : option A) : json :=
  match o with
  | Some a => f a
  | None => JNull
  end.

(** [float(n)], the double nearest to [n]: what sqlite3 returns for a
    REAL column that holds [n]. *)
Definition float_of_Z (n : Z) : spec_float := binary_normalize 53 1024 n 0 false.

(** [rec.model_dump()]: [timestamp] and [duration] are floats, [exit_code]
    and [indexed_at] ints. *)
Definition model_dump (r : IndexedRecording.t) : json :=
  JObj [("id", JStr (IndexedRecording.id r));
        ("atuin_id", json_opt JStr (IndexedRecording.atuin_id r));
        ("command", JStr (IndexedRecording.command r));
        ("timestamp", JFloat (float_of_Z (IndexedRecording.timestamp r)));
        ("duration", json_opt (fun d => JFloat (float_of_Z d)) (IndexedRecording.duration r));
        ("exit_code", json_opt JInt (IndexedRecording.exit_code r));
        ("cwd", JStr (IndexedRecording.cwd r));
        ("shell", json_opt JStr (IndexedRecording.shell r));
        ("user", json_opt JStr (IndexedRecording.user r));
        ("hostname", json_opt JStr (IndexedRecording.hostname r));
        ("cast_path", json_opt JStr (IndexedRecording.cast_path r));
        ("gif_path", json_opt JStr (IndexedRecording.gif_path r));
        ("screenshot_path", json_opt JStr (IndexedRecording.screenshot_path r));
        ("meta_path", JStr (IndexedRecording.meta_path r));
        ("indexed_at", JInt (IndexedRecording.indexed_at r))]%string.

Definition newline : string := String (ascii_of_nat 10) EmptyString.

(** The client's end of one connection: the lines written to it, and
    whether the server has closed it. *)
Record Connection := mkConnection {
  written : list string;
  closed : bool }.

Section Server.

(** [json.loads(data.decode().strip())] on the line read: the value, or
    the exception of the decoding or of the parse. *)
Variable json_loads : string -> result json.
(** [json.dumps] *)
Variable json_dumps : json -> string.
(** [str(v)] for a float, a list or a dict. *)
Variable repr_other : json -> string.
(** What sqlite3 makes of the LIMIT and OFFSET parameters: two integers,
    or the exception of the binding or of the query. *)
Variable bind_limit_offset : json -> json -> result (Z * Z).
(** What sqlite3 makes of a parameter, not a str and not None, compared
    with a TEXT column: the text it is equal to, or the exception of the
    binding. *)
Variable bind_text : json -> result (option string).

(** [str(v)], as the f-strings use it *)
Definition py_str (v : json) : string :=
  match v with
  | JStr s => s
  | JNull => "None"
  | JBool true => "True"
  | JBool false => "False"
  | JInt n => pretty n
  | _ => repr_other v
  end.

(** [message.get(key, default)] *)
Definition get_default (fields : list (string * json)) (key : string) (default : json) : json :=
  match dict_get key fields with
  | Some v => v
  | None => default
  end.

Definition text_param (v : json) : result (option string) :=
  match v with
  | JStr s => Ok (Some s)
  | JNull => Ok None
  | _ => bind_text v
  end.

(** The [cwd] argument of [list_recordings]: only its truth value and its
    [str] are used. *)
Definition cwd_param (v : json) : option string :=
  if truthy v then Some (py_str v) else None.

Definition _process_message (config : Config) (now : Z) (message : json) (w : World)
  : result json * World :=
  match message with
  | JObj fields =>
      let action := get_default fields "action" JNull in
      if eq_str action "status" then
        let stats := get_stats (index w) in
        (Ok (JObj [("status", JStr "running");
                   ("stats", JObj [("total_count", JInt (total_count stats));
                                   ("failed_count", JInt (failed_count stats))])]%string), w)
      else if eq_str action "list" then
        (lo ← bind_limit_offset (get_default fields "limit" (JInt 50))
                                (get_default fields "offset" (JInt 0));
         Ok (JObj [("recordings",
                    JArr (map model_dump
                              (list_recordings (index w) lo.1 lo.2
                                 (truthy (get_default fields "failed_only" (JBool false)))
                                 (cwd_param (get_default fields "cwd" JNull)))))]%string), w)
      else if eq_str action "get" then
        (recording_id ← text_param (get_default fields "id" JNull);
         let rec := match recording_id with
                    | Some i => match get_by_id (index w) i with
                                | Some r => Some r
                                | None => get_by_atuin_id (index w) i
                                end
                    | None => None
                    end in
         Ok (JObj [("recording", json_opt model_dump rec)]%string), w)
      else if eq_str action "cleanup" then
        let '(res, w') := run_cleanup config now
                                      (truthy (get_default fields "dry_run" (JBool false))) w in
        (Ok (JObj [("deleted_count", JInt (deleted_count res));
                   ("freed_bytes", JInt (freed_bytes res))]%string), w')
      else
        (Ok (JObj [("error", JStr ("Unknown action: " +:+ py_str action))]%string), w)
  | _ => (Raise (AttributeError ("'" +:+ type_name message +:+ "' object has no attribute 'get'")), w)
  end.

Definition error_response (e : exn) : json :=
  JObj [("error", JStr (str_exn e))]%string.

(** One connection whose first line is [data]. *)
Definition _handle_client (config : Config) (now : Z) (data : string) (w : World)
  : Connection * World :=
  let '(outcome, w') :=
    match json_loads data with
    | Ok message => _process_message config now message w
    | Raise e => (Raise e, w)
    end in
  let response := match outcome with
                  | Ok response => response
                  | Raise e => error_response e
                  end in
  (mkConnection [json_dumps response +:+ newline] true, w').

End Server.

(** ** Histories of the index

    The operations that write the index, from the freshly created schema:
    indexing, deletion, enqueueing, a claim whose cycle is cut short after
    its commit, and whole worker cycles. *)

Definition empty_database : Database := mkDatabase [] [] 0.

Inductive reachable : Database -> Prop :=
| reach_empty : reachable empty_database
| reach_index read_meta now meta_path db db' :
    reachable db -> index_recording read_meta now meta_path db = Ok db' -> reachable db'
| reach_delete db recording_id :
    reachable db -> reachable (delete_recording db recording_id).1
| reach_enqueue now db recording_id export_type :
    reachable db -> reachable (enqueue now db recording_id export_type)
| reach_claim db job r db1 :
    reachable db -> claim_next db = Some (job, r, db1) -> reachable db1
| reach_process config now outcome db :
    reachable db -> reachable (_process_next config now outcome db).1.

(** Histories of the index in which no recording with the identifier
    [rid] is indexed: worker cycles, enqueued jobs, deletions, and the
    indexing of metadata with another identifier. *)
Inductive history_without (rid : string) : Database -> Database -> Prop :=
| without_refl db : history_without rid db db
| without_cycle config now outcome db db' :
    history_without rid db db' ->
    history_without rid db (_process_next config now outcome db').1
| without_enqueue now recording_id export_type db db' :
    history_without rid db db' ->
    history_without rid db (enqueue now db' recording_id export_type)
| without_delete recording_id db db' :
    history_without rid db db' ->
    history_without rid db (delete_recording db' recording_id).1
| without_index read_meta now meta_path meta db db' db'' :
    history_without rid db db' ->
    read_meta meta_path = Ok meta ->
    RecordingMetadata.id meta <> rid ->
    index_recording read_meta now meta_path db' = Ok db'' ->
    history_without rid db db''.

(** ** Sample inputs *)
Module Sample.

Definition meta_path : string := "/s/recordings/r1.meta.json".

Definition meta : RecordingMetadata.t :=
  RecordingMetadata.mk "r1" (Some "a1") "ls" 1000 None (Some 0) "/home/ab" "zsh" "u" "h"
                       (RecordingFiles.mk (Some "r1.cast") None None).

Definition read_meta (p : string) : result RecordingMetadata.t :=
  if String.eqb p meta_path then Ok meta
  else Raise (OSError 2 "No such file or directory" p).

Definition row (id : string) (timestamp : Z) (cwd meta_path : string) : IndexedRecording.t :=
  IndexedRecording.mk id None "ls" timestamp None (Some 0) cwd (Some "zsh") (Some "u") (Some "h")
                      (Some (id +:+ ".cast")) None None meta_path 5000.

(** one recording, made in [/home/ab] *)
Definition db_one : Database :=
  mkDatabase [row "r1" 1000 "/home/ab" meta_path] [] 0.

(** two recordings and their metadata files, of 10 and 20 bytes *)
Definition world_two : World :=
  mkWorld (mkDatabase [row "r1" 1000 "/home/ab" "/s/recordings/r1.meta.json";
                       row "r2" 2000 "/home/ab" "/s/recordings/r2.meta.json"] [] 0)
          (<["/s/recordings/r1.meta.json" := 10]> (<["/s/recordings/r2.meta.json" := 20]> ∅)).

(** at most 30 days, 10 GB and one recording are kept *)
Definition config : Config :=
  mkConfig "/s" (mkRetentionConfig 30 10 1 24) (mkExportConfig true 1 2).

(** forty days after the epoch *)
Definition now : Z := 40 * 86400.

End Sample.

(** ** Well-formed export queues *)

(** The columns of a job agree with its status: [completed_at] is set
    exactly on 'done', [error] exactly on 'failed', and then it is not the
    empty text. *)
Definition job_ok (j : ExportJob.t) : Prop :=
  (is_Some (ExportJob.completed_at j) <-> ExportJob.status j = done)
  /\ (is_Some (ExportJob.error j) <-> ExportJob.status j = failed)
  /\ ExportJob.error j <> Some EmptyString.

(** [id] is the PRIMARY KEY of [export_queue]. *)
Definition unique_job_ids (db : Database) : Prop :=
  NoDup (map ExportJob.id (export_queue db)).

Definition mark_processing (job : ExportJob.t) (j : ExportJob.t) : ExportJob.t :=
  if ExportJob.id j =? ExportJob.id job then ExportJob.set_status processing j else j.

Definition mark_done (now : Z) (job : ExportJob.t) (j : ExportJob.t) : ExportJob.t :=
  if ExportJob.id j =? ExportJob.id job
  then ExportJob.set_completed_at (Some now) (ExportJob.set_status done j) else j.

Definition mark_failed (text : string) (job : ExportJob.t) (j : ExportJob.t) : ExportJob.t :=
  if ExportJob.id j =? ExportJob.id job
  then ExportJob.set_error (Some text) (ExportJob.set_status failed j) else j.

Definition references (recording_id : string) (j : ExportJob.t) : bool :=
  String.eqb (ExportJob.recording_id j) recording_id.

Module SampleQueue.

Definition job (id : Z) (recording_id : string) (created_at : Z) : ExportJob.t :=
  ExportJob.mk id recording_id "gif" pending created_at None None.

(** the older job is for a recording that has no row *)
Definition db_orphan : Database :=
  mkDatabase [Sample.row "r1" 1000 "/home/ab" Sample.meta_path]
             [job 1 "gone" 140; job 2 "r1" 150] 2.

(** the only job is for a recording that has no row *)
Definition db_only_orphan : Database :=
  mkDatabase [] [job 1 "gone" 140] 1.

(** one recording and one pending job for it *)
Definition db_one_job : Database :=
  mkDatabase [Sample.row "r1" 1000 "/home/ab" Sample.meta_path] [job 1 "r1" 140] 1.

(** one recording and one pending job for it, of another kind *)
Definition db_png_job : Database :=
  mkDatabase [Sample.row "r1" 1000 "/home/ab" Sample.meta_path]
             [ExportJob.mk 1 "r1" "png" pending 140 None None] 1.

End SampleQueue.

Module SampleHistory.

(** the index after [r1] was indexed at clock 100 and a "gif" job for it
    enqueued at clock 140 *)
Definition db_enqueued : Database :=
  match index_recording Sample.read_meta 100 Sample.meta_path empty_database with
  | Ok db => enqueue 140 db "r1" "gif"
  | Raise _ => empty_database
  end.

(** the renderer exits with code 1 *)
Definition outcome : AggOutcome := Exited 1 "boom".

End SampleHistory.

(** ** Sample requests *)
Module SampleServer.

Definition dq : string := String (ascii_of_nat 34) EmptyString.

(** the request lines [{"action": "bogus"}] and [{"action": "get", "id": "a1"}] *)
Definition bogus_line : string :=
  "{" +:+ dq +:+ "action" +:+ dq +:+ ": " +:+ dq +:+ "bogus" +:+ dq +:+ "}".
Definition get_line : string :=
  "{" +:+ dq +:+ "action" +:+ dq +:+ ": " +:+ dq +:+ "get" +:+ dq +:+ ", "
      +:+ dq +:+ "id" +:+ dq +:+ ": " +:+ dq +:+ "a1" +:+ dq +:+ "}".

Definition bogus_fields : list (string * json) := [("action", JStr "bogus")]%string.
Definition get_fields : list (string * json) := [("action", JStr "get"); ("id", JStr "a1")]%string.

(** a parser that knows the two lines, and rejects any other *)
Definition json_loads (data : string) : result json :=
  if String.eqb data bogus_line then Ok (JObj bogus_fields)
  else if String.eqb data get_line then Ok (JObj get_fields)
  else Raise (JSONDecodeError "Expecting value: line 1 column 1 (char 0)").

(** a printer for values without floats, with no escapes in strings *)
Fixpoint json_dumps (v : json) : string :=
  match v with
  | JNull => "null"
  | JBool true => "true"
  | JBool false => "false"
  | JInt n => pretty n
  | JFloat _ => "0.0"
  | JStr s => dq +:+ s +:+ dq
  | JArr items =>
      "[" +:+ (fix items_dumps (l : list json) : string :=
                 match l with
                 | [] => EmptyString
                 | [x] => json_dumps x
                 | x :: rest => json_dumps x +:+ ", " +:+ items_dumps rest
                 end) items +:+ "]"
  | JObj fields =>
      "{" +:+ (fix fields_dumps (l : list (string * json)) : string :=
                 match l with
                 | [] => EmptyString
                 | [(k, x)] => dq +:+ k +:+ dq +:+ ": " +:+ json_dumps x
                 | (k, x) :: rest => dq +:+ k +:+ dq +:+ ": " +:+ json_dumps x +:+ ", "
                                        +:+ fields_dumps rest
                 end) fields +:+ "}"
  end.

Definition repr_other (v : json) : string := json_dumps v.

Definition bind_limit_offset (limit offset : json) : result (Z * Z) :=
  match limit, offset with
  | JInt l, JInt o => Ok (l, o)
  | _, _ => Raise (DatabaseError "datatype mismatch")
  end.

Definition bind_text (v : json) : result (option string) :=
  match v with
  | JInt n => Ok (Some (pretty n))
  | _ => Raise (DatabaseError "Error binding parameter 1: type is not supported")
  end.

(** the recording of [Sample.meta], indexed at clock 100, and no files *)
Definition world : World :=
  mkWorld (mkDatabase [row_of_metadata 100 Sample.meta_path Sample.meta] [] 0) ∅.

End SampleServer.

Module SampleGet.

(** [r2] is the identifier of one recording and the atuin_id of another,
    which comes first in the table *)
Definition row1 : IndexedRecording.t :=
  IndexedRecording.mk "r1" (Some "r2") "ls" 1000 None (Some 0) "/home/ab" (Some "zsh") (Some "u")
                      (Some "h") (Some "r1.cast") None None "/s/recordings/r1.meta.json" 100.

Definition row2 : IndexedRecording.t :=
  IndexedRecording.mk "r2" (Some "a2") "make" 2000 (Some 3) (Some 2) "/home/ab" None None
                      None (Some "r2.cast") None None "/s/recordings/r2.meta.json" 200.

Definition world : World := mkWorld (mkDatabase [row1; row2] [] 0) ∅.

(** the requests [{"action": "get", "id": i}] *)
Definition get_fields (i : string) : list (string * json) :=
  [("action", JStr "get"); ("id", JStr i)]%string.

End SampleGet.

(** ** Keys of the [recordings] table *)

#[global] Instance IndexedRecording_eq_dec : EqDecision IndexedRecording.t.
Proof. solve_decision. Defined.


(** [id] is the PRIMARY KEY and [atuin_id] a UNIQUE column: no two rows
    share an id, no two rows share a non-NULL atuin_id. *)
Definition recordings_keys_ok (rows : list IndexedRecording.t) : Prop :=
  NoDup (map IndexedRecording.id rows)
  /\ NoDup (omap IndexedRecording.atuin_id rows).

(** ** Patterns without wildcards *)



(** [exit_code] is neither NULL nor 0 *)
Definition is_failed (r : IndexedRecording.t) : Prop :=
  exists c, IndexedRecording.exit_code r = Some c /\ c <> 0.

(** ** Jobs the worker can claim *)

(** A pending job whose recording identifier is among [ids]. *)
Definition claimable (ids : list string) (j : ExportJob.t) : bool :=
  is_pending j && existsb (String.eqb (ExportJob.recording_id j)) ids.

Definition claimable_count (db : Database) : nat :=
  length (List.filter (claimable (map IndexedRecording.id (recordings db))) (export_queue db)).

Module SampleTranscript.

(** a recording whose metadata named no transcript, and a pending "gif"
    job for it *)
Definition row_without_cast : IndexedRecording.t :=
  IndexedRecording.mk "r1" None "ls" 1000 None (Some 0) "/home/ab" (Some "zsh") (Some "u")
                      (Some "h") None None None Sample.meta_path 5000.

Definition db_without_cast : Database :=
  mkDatabase [row_without_cast] [SampleQueue.job 1 "r1" 140] 1.

End SampleTranscript.

Module SampleRender.

(** a recording whose transcript path is not in normal form, with a
    pending "gif" job, and a configuration that stores under [/] *)
Definition row : IndexedRecording.t :=
  IndexedRecording.mk "r1" None "ls" 1000 None (Some 0) "/home/ab" (Some "zsh") (Some "u")
                      (Some "h") (Some "./sub//r1.cast") None None Sample.meta_path 5000.

Definition db : Database := mkDatabase [row] [SampleQueue.job 1 "r1" 140] 1.

Definition config : Config :=
  mkConfig "/" (mkRetentionConfig 30 10 1 24) (mkExportConfig true 1 2).



End SampleRender.

(** ** Rows a cleanup pass keeps *)

(** [r] is not one of the rows with an identifier in [ids]. *)
Definition kept (ids : list string) (r : IndexedRecording.t) : bool :=
  negb (existsb (String.eqb (IndexedRecording.id r)) ids).

(** The four paths [_delete_recording_files] unlinks. *)
Definition unlinked_paths (meta_path : string) : list string :=
  meta_path :: map (PurePath.with_suffix meta_path) [".cast"; ".gif"; ".png"]%string.

(** What every pass keeps: the rows left are a sublist of the rows before,
    and each row left is at least as recent as each row removed. *)
Definition oldest_removed (before after : list IndexedRecording.t) : Prop :=
  after `sublist_of` before
  /\ forall r r0, r ∈ after -> r0 ∈ before -> r0 ∉ after ->
                  IndexedRecording.timestamp r0 <= IndexedRecording.timestamp r.

(** The bytes of all files on disk. *)
Definition disk_usage (fs : gmap string Z) : Z :=
  map_fold (fun _ size total => total + size) 0 fs.

Module SampleArray.

(** a parser for a client that sends the line [[1]] *)
Definition json_loads (data : string) : result json := Ok (JArr [JInt 1]).

End SampleArray.

(** ** watcher/main.py: the ingestion handler *)

(** [s.replace(old, empty)] for a non-empty [old] and the empty string [empty]: the occurrences of [old]
    are cut out, left to right; [skip] counts the characters of the current
    occurrence still to cut. *)
Fixpoint cut_all (old : string) (skip : nat) (s : string) : string :=
  match s with
  | EmptyString => EmptyString
  | String c rest =>
      match skip with
      | S k => cut_all old k rest
      | O => if String.prefix old s
             then cut_all old (String.length old - 1) rest
             else String c (cut_all old 0 rest)
      end
  end.

(** [meta_path.stem] with every [.meta] cut out *)
Definition recording_id_of (meta_path : string) : string :=
  cut_all ".meta" 0 (PurePath.stem (PurePath.name meta_path)).

Section Ingestion.

Variable read_meta : string -> result RecordingMetadata.t.

(** Returns the index and the lines logged.  [index_now] and
    [enqueue_now] are the clock at the INSERT of each table. *)
Definition _handle_new_recording (config : Config) (index_now enqueue_now : Z)
    (meta_path : string) (db : Database) : Database * list string :=
  let info := "Indexing new recording: " +:+ meta_path in
  match index_recording read_meta index_now meta_path db with
  | Ok db1 =>
      if gif_enabled (export config)
      then (enqueue enqueue_now db1 (recording_id_of meta_path) "gif", [info])
      else (db1, [info])
  | Raise e =>
      (db, [info; "Failed to handle recording " +:+ meta_path +:+ ": " +:+ str_exn e])
  end.

End Ingestion.

(** ** watcher/file_watcher.py *)

Inductive Change := added | modified | deleted.

(** [Path.suffix] of a name *)
Definition suffix_of (name : string) : string :=
  PurePath.drop (String.length (PurePath.stem name)) name.

(** [sub in s] *)
Fixpoint str_in (sub s : string) : bool :=
  String.prefix sub s
  || match s with
     | EmptyString => false
     | String _ rest => str_in sub rest
     end.

(** The test of [_watch_loop] on one change. *)
Definition is_new_metadata (change : Change) (path : string) : bool :=
  match change with
  | added => String.eqb (suffix_of (PurePath.name path)) ".json"
             && str_in ".meta" (PurePath.name path)
  | _ => false
  end.

Section Watcher.

Variable read_meta : string -> result RecordingMetadata.t.

(** The body of [_watch_loop] for one batch of changes; [clock] gives the
    two clocks of each handled change. *)
Fixpoint watch_batch (config : Config) (clock : string -> Z * Z)
    (changes : list (Change * string)) (db : Database) : Database * list string :=
  match changes with
  | [] => (db, [])
  | (change, path) :: rest =>
      if is_new_metadata change path
      then
        let '(db1, log1) := _handle_new_recording read_meta config (clock path).1 (clock path).2
                                                  path db in
        let '(db2, log2) := watch_batch config clock rest db1 in
        (db2, log1 ++ log2)
      else watch_batch config clock rest db
  end.

End Watcher.

Module SampleMismatch.

(** every metadata file holds the metadata of recording [r1], whatever its
    name *)
Definition read_meta (p : string) : result RecordingMetadata.t := Ok Sample.meta.

End SampleMismatch.

(** ** config.py: the nearest dotfile

    A resolved absolute path is the list of its components below the
    root, as [Path.parts] has them; the root is the empty list, the only
    path that is its own parent. *)
Module Dotfile.

Definition name : string := ".termrecord.toml".

(** The loop of [find_dotfile], on the components of [current] in reverse
    order: the innermost directory comes first, and its parent is the
    tail. *)
Fixpoint walk_up (path_exists : list string -> bool) (reversed : list string)
  : option (list string) :=
  let dotfile := rev reversed ++ [name] in
  if path_exists dotfile then Some dotfile
  else match reversed with
       | [] => None
       | _ :: parent => walk_up path_exists parent
       end.

Definition find_dotfile (path_exists : list string -> bool) (start_dir : list string)
  : option (list string) :=
  walk_up path_exists (rev start_dir).

End Dotfile.

(** * Theorems *)

(** ** ORDER BY, LIMIT and OFFSET *)

Section OrderByFacts.
Context {A : Type} (key : A -> Z).

Lemma insert_desc_perm x l : Sqlite.insert_desc key x l ≡ₚ x :: l.
Proof.
  induction l as [|y l IH]; simpl; [done|].
  destruct (key y <=? key x); [done|].
  rewrite IH. apply perm_swap.
Qed.

Lemma insert_asc_perm x l : Sqlite.insert_asc key x l ≡ₚ x :: l.
Proof.
  induction l as [|y l IH]; simpl; [done|].
  destruct (key x <=? key y); [done|].
  rewrite IH. apply perm_swap.
Qed.

Lemma order_by_desc_perm l : Sqlite.order_by_desc key l ≡ₚ l.
Proof.
  induction l as [|x l IH]; simpl; [done|].
  rewrite insert_desc_perm. by rewrite IH.
Qed.

Lemma order_by_perm l : Sqlite.order_by key l ≡ₚ l.
Proof.
  induction l as [|x l IH]; simpl; [done|].
  rewrite insert_asc_perm. by rewrite IH.
Qed.

Lemma insert_desc_sorted x l :
  StronglySorted (fun a b => key b <= key a) l ->
  StronglySorted (fun a b => key b <= key a) (Sqlite.insert_desc key x l).
Proof.
  induction 1 as [|y l Hs IH Hy]; simpl.
  - repeat constructor.
  - destruct (Z.leb_spec (key y) (key x)) as [Hle|Hlt].
    + constructor; [by constructor|].
      constructor; [done|].
      eapply Forall_impl; [exact Hy|]. simpl. lia.
    + constructor; [done|].
      rewrite insert_desc_perm. constructor; [lia|done].
Qed.

Lemma insert_asc_sorted x l :
  StronglySorted (fun a b => key a <= key b) l ->
  StronglySorted (fun a b => key a <= key b) (Sqlite.insert_asc key x l).
Proof.
  induction 1 as [|y l Hs IH Hy]; simpl.
  - repeat constructor.
  - destruct (Z.leb_spec (key x) (key y)) as [Hle|Hlt].
    + constructor; [by constructor|].
      constructor; [done|].
      eapply Forall_impl; [exact Hy|]. simpl. lia.
    + constructor; [done|].
      rewrite insert_asc_perm. constructor; [lia|done].
Qed.

Lemma order_by_desc_sorted l :
  StronglySorted (fun a b => key b <= key a) (Sqlite.order_by_desc key l).
Proof.
  induction l as [|x l IH]; simpl; [constructor|]. by apply insert_desc_sorted.
Qed.

Lemma order_by_sorted l :
  StronglySorted (fun a b => key a <= key b) (Sqlite.order_by key l).
Proof.
  induction l as [|x l IH]; simpl; [constructor|]. by apply insert_asc_sorted.
Qed.

(** With pairwise distinct keys a descending order is strictly descending. *)
Lemma sorted_desc_strict l :
  NoDup (map key l) ->
  StronglySorted (fun a b => key b <= key a) l ->
  StronglySorted (fun a b => key b < key a) l.
Proof.
  intros Hnd Hs. induction Hs as [|x l Hs IH Hx]; [constructor|].
  simpl in Hnd. apply NoDup_cons in Hnd as [Hnotin Hnd].
  constructor; [by apply IH|].
  apply Forall_forall. intros y Hy.
  rewrite Forall_forall in Hx. specialize (Hx y Hy).
  assert (key y <> key x); [|lia].
  intros Heq. apply Hnotin. rewrite <- Heq. by apply list_elem_of_fmap_2.
Qed.

End OrderByFacts.

Lemma StronglySorted_sublist {A} (R : relation A) l1 l2 :
  l1 `sublist_of` l2 -> StronglySorted R l2 -> StronglySorted R l1.
Proof.
  induction 1 as [|x l1 l2 Hsub IH|x l1 l2 Hsub IH]; intros Hs.
  - constructor.
  - apply StronglySorted_inv in Hs as [Hs Hx].
    constructor; [by apply IH|].
    apply Forall_forall. intros y Hy. rewrite Forall_forall in Hx.
    apply Hx. by eapply elem_of_sublist.
  - apply StronglySorted_inv in Hs as [Hs _]. by apply IH.
Qed.

Lemma limit_offset_sublist {A} limit offset (rows : list A) :
  Sqlite.limit_offset limit offset rows `sublist_of` rows.
Proof.
  unfold Sqlite.limit_offset. destruct (limit <? 0).
  - apply sublist_drop.
  - etrans; [apply sublist_take|apply sublist_drop].
Qed.

Lemma limit_offset_all {A} (rows : list A) : Sqlite.limit_offset (-1) 0 rows = rows.
Proof. done. Qed.

(** C7. With pairwise distinct timestamps in the index, [list_recordings]
    without filters returns the window [limit]/[offset] of a list that holds
    every indexed recording, and the returned list is in strictly descending
    timestamp order. *)
Theorem list_recordings_strictly_descending (db : Database) (limit offset : Z) :
  NoDup (map IndexedRecording.timestamp (recordings db)) ->
  list_recordings db (-1) 0 false None ≡ₚ recordings db
  /\ list_recordings db limit offset false None
     = Sqlite.limit_offset limit offset (list_recordings db (-1) 0 false None)
  /\ StronglySorted (fun a b => IndexedRecording.timestamp b < IndexedRecording.timestamp a)
                    (list_recordings db limit offset false None).
Proof.
  intros Hnd. unfold list_recordings. split_and!.
  - rewrite limit_offset_all. apply order_by_desc_perm.
  - by rewrite limit_offset_all.
  - eapply StronglySorted_sublist; [apply limit_offset_sublist|].
    apply sorted_desc_strict; [|apply order_by_desc_sorted].
    by rewrite (order_by_desc_perm IndexedRecording.timestamp (recordings db)).
Qed.

Lemma list_recordings_strictly_descending_witness :
  NoDup (map IndexedRecording.timestamp (recordings (index Sample.world_two)))
  /\ list_recordings (index Sample.world_two) (-1) 0 false None
     ≡ₚ recordings (index Sample.world_two)
  /\ list_recordings (index Sample.world_two) 50 0 false None
     = Sqlite.limit_offset 50 0 (list_recordings (index Sample.world_two) (-1) 0 false None)
  /\ StronglySorted (fun a b => IndexedRecording.timestamp b < IndexedRecording.timestamp a)
                    (list_recordings (index Sample.world_two) 50 0 false None).
Proof.
  split; [compute_done|].
  apply (list_recordings_strictly_descending (index Sample.world_two) 50 0).
  compute_done.
Defined.

(** ** The index *)

Lemma find_head_filter {A} (f : A -> bool) (l : list A) :
  List.find f l = head (List.filter f l).
Proof.
  induction l as [|x l IH]; simpl; [done|]. by destruct (f x).
Qed.

Lemma insert_or_replace_same_id new rows :
  List.filter (fun r => String.eqb (IndexedRecording.id r) (IndexedRecording.id new))
              (insert_or_replace new rows) = [new].
Proof.
  unfold insert_or_replace. rewrite List.filter_app. simpl.
  rewrite String.eqb_refl.
  replace (List.filter _ (List.filter _ rows)) with (@nil IndexedRecording.t); [done|].
  induction rows as [|r rows IH]; simpl; [done|].
  unfold conflicts at 1.
  destruct (String.eqb (IndexedRecording.id r) (IndexedRecording.id new)) eqn:E; simpl; [done|].
  destruct (match IndexedRecording.atuin_id new with Some a => _ | None => false end);
    simpl; [done|]. by rewrite E.
Qed.

(** C1, as the code has it.  Indexing a readable metadata file at clock
    [t1] and again at clock [t2] succeeds both times and leaves exactly one
    row with the file's identifier; that row is the one built from the file
    at the second indexing, so every listed column holds the file's value
    and [indexed_at] is [t2]; the export queue is not touched. *)
Theorem reindex_replaces_whole_row read_meta (t1 t2 : Z) (meta_path : string)
    (db : Database) (meta : RecordingMetadata.t) :
  read_meta meta_path = Ok meta ->
  exists db1 db2,
    index_recording read_meta t1 meta_path db = Ok db1
    /\ index_recording read_meta t2 meta_path db1 = Ok db2
    /\ List.filter (fun r => String.eqb (IndexedRecording.id r) (RecordingMetadata.id meta))
                   (recordings db2) = [row_of_metadata t2 meta_path meta]
    /\ get_by_id db1 (RecordingMetadata.id meta) = Some (row_of_metadata t1 meta_path meta)
    /\ get_by_id db2 (RecordingMetadata.id meta) = Some (row_of_metadata t2 meta_path meta)
    /\ IndexedRecording.indexed_at (row_of_metadata t2 meta_path meta) = t2
    /\ export_queue db2 = export_queue db.
Proof.
  intros Hread. unfold index_recording. rewrite Hread. simpl.
  eexists _, _. split_and!; try reflexivity.
  - apply (insert_or_replace_same_id (row_of_metadata t2 meta_path meta)).
  - unfold get_by_id. rewrite find_head_filter. simpl.
    by rewrite (insert_or_replace_same_id (row_of_metadata t1 meta_path meta)).
  - unfold get_by_id. rewrite find_head_filter. simpl.
    by rewrite (insert_or_replace_same_id (row_of_metadata t2 meta_path meta)).
Qed.

Lemma reindex_replaces_whole_row_witness :
  Sample.read_meta Sample.meta_path = Ok Sample.meta
  /\ exists db1 db2,
    index_recording Sample.read_meta 100 Sample.meta_path empty_database = Ok db1
    /\ index_recording Sample.read_meta 200 Sample.meta_path db1 = Ok db2
    /\ List.filter (fun r => String.eqb (IndexedRecording.id r) (RecordingMetadata.id Sample.meta))
                   (recordings db2) = [row_of_metadata 200 Sample.meta_path Sample.meta]
    /\ get_by_id db1 (RecordingMetadata.id Sample.meta)
       = Some (row_of_metadata 100 Sample.meta_path Sample.meta)
    /\ get_by_id db2 (RecordingMetadata.id Sample.meta)
       = Some (row_of_metadata 200 Sample.meta_path Sample.meta)
    /\ IndexedRecording.indexed_at (row_of_metadata 200 Sample.meta_path Sample.meta) = 200
    /\ export_queue db2 = export_queue empty_database.
Proof.
  split; [reflexivity|].
  apply (reindex_replaces_whole_row Sample.read_meta 100 200 Sample.meta_path
                                    empty_database Sample.meta).
  reflexivity.
Defined.

(** C1 as stated fails: indexed at clock 100 and again at clock 200, the
    row's [indexed_at] is 200, not the 100 of the first insertion. *)
Lemma reindex_resets_indexed_at :
  exists db1 db2 r1 r2,
    index_recording Sample.read_meta 100 Sample.meta_path empty_database = Ok db1
    /\ index_recording Sample.read_meta 200 Sample.meta_path db1 = Ok db2
    /\ get_by_id db1 "r1" = Some r1
    /\ get_by_id db2 "r1" = Some r2
    /\ IndexedRecording.indexed_at r1 = 100
    /\ IndexedRecording.indexed_at r2 = 200
    /\ IndexedRecording.indexed_at r2 <> IndexedRecording.indexed_at r1.
Proof.
  eexists _, _, _, _. split_and!; try reflexivity. simpl. lia.
Qed.

(** ** LIKE and the [cwd] filter *)

Lemma like_percent (s : string) : Sqlite.like "%" s = true.
Proof.
  induction s as [|c s IH]; [done|].
  simpl in *. exact IH.
Qed.

(** Every string with the literal prefix [p] matches the pattern [p%]. *)
Lemma like_prefix_complete (p s : string) :
  String.prefix p s = true -> Sqlite.like (p +:+ "%") s = true.
Proof.
  revert s. induction p as [|c p IH]; intros s Hp.
  - apply like_percent.
  - destruct s as [|d s]; [done|]. simpl in Hp.
    destruct (Ascii.ascii_dec c d) as [->|Hne]; [|done].
    specialize (IH s Hp).
    change (String d p +:+ "%") with (String d (p +:+ "%")).
    cbn [Sqlite.like].
    destruct (Ascii.eqb d "%").
    { apply orb_true_iff. right. destruct s; by rewrite IH. }
    destruct (Ascii.eqb d "_"); [done|].
    by rewrite Ascii.eqb_refl, IH.
Qed.

(** C5, at a failing input.  The only recording was made in [/home/ab],
    which does not start with [/home/_b] nor with [/HOME/A]; the filter
    returns it for both. *)
Theorem list_recordings_cwd_is_a_pattern :
  String.prefix "/home/_b" "/home/ab" = false
  /\ list_recordings Sample.db_one 50 0 false (Some "/home/_b"%string) = recordings Sample.db_one
  /\ String.prefix "/HOME/A" "/home/ab" = false
  /\ list_recordings Sample.db_one 50 0 false (Some "/HOME/A"%string) = recordings Sample.db_one.
Proof. split_and!; reflexivity. Qed.

(** ** Retention cleanup *)

Lemma delete_rows_dry_run rows acc w :
  delete_rows true rows acc w
  = (mkCleanupResult (deleted_count acc + Z.of_nat (length rows)) (freed_bytes acc), w).
Proof.
  revert acc. induction rows as [|[i m] rows IH]; intros acc; simpl.
  - destruct acc. simpl. do 2 f_equal. lia.
  - rewrite IH. simpl. do 2 f_equal. lia.
Qed.

Lemma delete_until_dry_run max_bytes rows current_size acc w :
  (delete_until true max_bytes rows current_size acc w).2 = w
  /\ freed_bytes (delete_until true max_bytes rows current_size acc w).1 = freed_bytes acc.
Proof.
  revert acc. induction rows as [|[i m] rows IH]; intros acc; simpl; [done|].
  destruct (Qle_bool _ _); [done|].
  destruct (IH (mkCleanupResult (deleted_count acc + 1) (freed_bytes acc))) as [-> ->]. done.
Qed.

(** A dry run changes neither the index nor the files, and always reports
    zero freed bytes. *)
Lemma run_cleanup_dry_run config now w :
  (run_cleanup config now true w).2 = w
  /\ freed_bytes (run_cleanup config now true w).1 = 0.
Proof.
  unfold run_cleanup. rewrite !delete_rows_dry_run. simpl.
  destruct (negb _); [|done]. apply delete_until_dry_run.
Qed.

(** C2, at a failing input.  Both recordings are older than the 30 days
    kept.  The run that deletes removes 2 recordings and frees the 30 bytes
    of their files; the dry run on the same state reports 3 deletions (the
    count pass sees again a row the age pass has counted) and 0 bytes, and
    leaves the state as it was. *)
Theorem run_cleanup_dry_run_totals_differ :
  run_cleanup Sample.config Sample.now true Sample.world_two
  = (mkCleanupResult 3 0, Sample.world_two)
  /\ (run_cleanup Sample.config Sample.now false Sample.world_two).1 = mkCleanupResult 2 30
  /\ recordings (index (run_cleanup Sample.config Sample.now false Sample.world_two).2) = []
  /\ files (run_cleanup Sample.config Sample.now false Sample.world_two).2 = ∅.
Proof. split_and!; vm_compute; reflexivity. Qed.

(** ** The export queue *)

Lemma pending_joined_elem db job r :
  (job, r) ∈ pending_joined db
  <-> job ∈ export_queue db /\ ExportJob.status job = pending
      /\ r ∈ recordings db /\ ExportJob.recording_id job = IndexedRecording.id r.
Proof.
  unfold pending_joined. rewrite list_elem_of_In, in_flat_map. split.
  - intros (eq & Heq & Hin).
    apply filter_In in Heq as [Heq Hp].
    apply in_map_iff in Hin as (r' & [= <- <-] & Hr).
    apply filter_In in Hr as [Hr Hid].
    apply String.eqb_eq in Hid.
    rewrite !list_elem_of_In. split_and!; try done.
    unfold is_pending in Hp. by destruct (ExportJob.status eq).
  - intros (Hj & Hp & Hr & Hid). exists job. split.
    + apply filter_In. split; [by apply list_elem_of_In|].
      unfold is_pending. by rewrite Hp.
    + apply in_map_iff. exists r. split; [done|].
      apply filter_In. split; [by apply list_elem_of_In|].
      by apply String.eqb_eq.
Qed.

Lemma select_next_Some db job r :
  select_next db = Some (job, r) ->
  (job, r) ∈ pending_joined db
  /\ forall job' r', (job', r') ∈ pending_joined db ->
                     ExportJob.created_at job <= ExportJob.created_at job'.
Proof.
  unfold select_next. intros Hhead.
  pose proof (order_by_sorted (fun p : ExportJob.t * IndexedRecording.t => ExportJob.created_at p.1)
                              (pending_joined db)) as Hs.
  pose proof (order_by_perm (fun p : ExportJob.t * IndexedRecording.t => ExportJob.created_at p.1)
                            (pending_joined db)) as Hp.
  destruct (Sqlite.order_by _ (pending_joined db)) as [|p rest]; [done|].
  injection Hhead as ->.
  apply StronglySorted_inv in Hs as [_ Hall]. rewrite Forall_forall in Hall.
  split.
  - rewrite <- Hp. apply list_elem_of_here.
  - intros job' r' Hin. rewrite <- Hp in Hin.
    apply elem_of_cons in Hin as [[= -> ->]|Hin]; [simpl; lia|].
    apply (Hall _ Hin).
Qed.

Lemma select_next_None db : select_next db = None -> pending_joined db = [].
Proof.
  unfold select_next. intros Hhead.
  pose proof (order_by_perm (fun p : ExportJob.t * IndexedRecording.t => ExportJob.created_at p.1)
                            (pending_joined db)) as Hp.
  destruct (Sqlite.order_by _ (pending_joined db)); [|done].
  by apply Permutation_nil.
Qed.

Lemma select_next_job db job r :
  select_next db = Some (job, r) ->
  job ∈ export_queue db /\ ExportJob.status job = pending
  /\ r ∈ recordings db /\ ExportJob.recording_id job = IndexedRecording.id r.
Proof.
  intros Hsel. apply select_next_Some in Hsel as [Hin _].
  by apply pending_joined_elem.
Qed.

Lemma claim_next_Some db job r db1 :
  claim_next db = Some (job, r, db1) ->
  select_next db = Some (job, r)
  /\ recordings db1 = recordings db
  /\ export_queue db1 = map (mark_processing job) (export_queue db).
Proof.
  unfold claim_next. destruct (select_next db) as [[job' r']|]; [|done].
  by intros [= -> -> <-].
Qed.

(** C3, as the code has it.  The claim step looks only at pending jobs
    whose recording has a row in [recordings].  When there is one, it takes
    a job none of them was created before, and marks the row with that job's
    id 'processing', leaving the recordings as they are; when there is none,
    it returns nothing. *)
Theorem claim_next_oldest_with_recording (db : Database) :
  match claim_next db with
  | Some (job, r, db1) =>
      job ∈ export_queue db
      /\ ExportJob.status job = pending
      /\ r ∈ recordings db
      /\ ExportJob.recording_id job = IndexedRecording.id r
      /\ (forall job' r',
             job' ∈ export_queue db -> ExportJob.status job' = pending ->
             r' ∈ recordings db -> ExportJob.recording_id job' = IndexedRecording.id r' ->
             ExportJob.created_at job <= ExportJob.created_at job')
      /\ recordings db1 = recordings db
      /\ export_queue db1 = map (mark_processing job) (export_queue db)
  | None =>
      forall job r,
        job ∈ export_queue db -> ExportJob.status job = pending ->
        r ∈ recordings db -> ExportJob.recording_id job <> IndexedRecording.id r
  end.
Proof.
  unfold claim_next. destruct (select_next db) as [[job r]|] eqn:Hsel.
  - apply select_next_Some in Hsel as [Hin Hmin].
    apply pending_joined_elem in Hin as (Hj & Hp & Hr & Hid).
    split_and!; try done.
    intros job' r' Hj' Hp' Hr' Hid'. apply (Hmin job' r').
    by apply pending_joined_elem.
  - apply select_next_None in Hsel.
    intros job r Hj Hp Hr Hid.
    assert ((job, r) ∈ pending_joined db) as Hin by by apply pending_joined_elem.
    rewrite Hsel in Hin. by apply elem_of_nil in Hin.
Qed.

Lemma claim_next_oldest_with_recording_witness :
  match claim_next SampleQueue.db_orphan with
  | Some (job, r, db1) =>
      job ∈ export_queue SampleQueue.db_orphan
      /\ ExportJob.status job = pending
      /\ r ∈ recordings SampleQueue.db_orphan
      /\ ExportJob.recording_id job = IndexedRecording.id r
      /\ (forall job' r',
             job' ∈ export_queue SampleQueue.db_orphan -> ExportJob.status job' = pending ->
             r' ∈ recordings SampleQueue.db_orphan ->
             ExportJob.recording_id job' = IndexedRecording.id r' ->
             ExportJob.created_at job <= ExportJob.created_at job')
      /\ recordings db1 = recordings SampleQueue.db_orphan
      /\ export_queue db1 = map (mark_processing job) (export_queue SampleQueue.db_orphan)
  | None =>
      forall job r,
        job ∈ export_queue SampleQueue.db_orphan -> ExportJob.status job = pending ->
        r ∈ recordings SampleQueue.db_orphan ->
        ExportJob.recording_id job <> IndexedRecording.id r
  end.
Proof. exact (claim_next_oldest_with_recording SampleQueue.db_orphan). Defined.

(** C3 as stated fails.  Two jobs are pending; the older one is for a
    recording without a row, and the claim step takes the younger one.  With
    only such a job pending, the claim step returns nothing. *)
Lemma claim_next_passes_over_older_job :
  (exists older job r db1,
      claim_next SampleQueue.db_orphan = Some (job, r, db1)
      /\ older ∈ export_queue SampleQueue.db_orphan
      /\ ExportJob.status older = pending
      /\ ExportJob.created_at older < ExportJob.created_at job)
  /\ claim_next SampleQueue.db_only_orphan = None
  /\ exists j, j ∈ export_queue SampleQueue.db_only_orphan /\ ExportJob.status j = pending.
Proof.
  split_and!.
  - exists (SampleQueue.job 1 "gone" 140).
    eexists _, _, _. split_and!; [reflexivity|apply list_elem_of_here|reflexivity|simpl; lia].
  - reflexivity.
  - eexists. split; [apply list_elem_of_here|reflexivity].
Qed.

Lemma _generate_gif_spec config outcome db recording_id cast_path :
  match _generate_gif config outcome db recording_id cast_path with
  | (Ok db2, _) => exists gif, db2 = update_gif_path recording_id gif db
  | (Raise e, _) => str_exn e <> EmptyString
  end.
Proof.
  unfold _generate_gif.
  destruct cast_path as [cast|]; [|done].
  destruct (String.eqb _ EmptyString); [done|].
  destruct outcome as [errno strerror|returncode stderr]; [done|].
  destruct (negb _); [done|].
  unfold PurePath.relative_to.
  destruct (String.eqb _ _); [by eexists|].
  destruct (String.prefix _ _); [by eexists|done].
Qed.

(** The two UPDATEs of a cycle select by the same id: together they are
    one pass over the queue. *)
Ltac same_queue_map :=
  unfold update_job, update_gif_path, set_export_queue, set_recordings; simpl;
  f_equal; rewrite map_map; apply map_ext;
  let j := fresh "j" in
  intros j; unfold mark_done, mark_failed;
  match goal with
  | |- context [ExportJob.id j =? ?q] =>
      let E := fresh "E" in
      by destruct (ExportJob.id j =? q) eqn:E; simpl; rewrite E
  end.

(** What one worker cycle does to the index. *)
Lemma _process_next_spec config now outcome db :
  match select_next db with
  | None => _process_next config now outcome db = (db, [])
  | Some (job, r) =>
      (exists recs,
          (_process_next config now outcome db).1
          = mkDatabase recs (map (mark_done now job) (export_queue db)) (export_queue_seq db)
          /\ map IndexedRecording.id recs = map IndexedRecording.id (recordings db)
          /\ (ExportJob.export_type job <> "gif"%string ->
              recs = recordings db /\ (_process_next config now outcome db).2 = []))
      \/ (exists e,
             str_exn e <> EmptyString
             /\ ExportJob.export_type job = "gif"%string
             /\ (_process_next config now outcome db).1
                = mkDatabase (recordings db)
                             (map (mark_failed (str_exn e) job) (export_queue db))
                             (export_queue_seq db))
  end.
Proof.
  unfold _process_next, claim_next.
  destruct (select_next db) as [[job r]|]; [|done].
  destruct (String.eqb_spec (ExportJob.export_type job) "gif") as [Hgif|Hgif].
  - pose proof (_generate_gif_spec config outcome
                  (update_job (ExportJob.id job) (ExportJob.set_status processing) db)
                  (ExportJob.recording_id job) (IndexedRecording.cast_path r)) as Hg.
    destruct (_generate_gif _ _ _ _ _) as [[db2|e] calls].
    + left. destruct Hg as [gif ->]. eexists. split_and!.
      * same_queue_map.
      * rewrite map_map. apply map_ext. intros r'. by destruct (String.eqb _ _).
      * done.
    + right. exists e. split_and!; [done..|].
      same_queue_map.
  - left. exists (recordings db). split_and!; [|done..].
    same_queue_map.
Qed.

(** C10.  When the claimed job's kind is not "gif", the cycle executes no
    renderer, leaves the recordings as they are, and turns the row with the
    job's id into 'done' with the cycle's clock as completion time. *)
Theorem non_gif_job_is_done_without_render config now outcome db job r db1 :
  claim_next db = Some (job, r, db1) ->
  ExportJob.export_type job <> "gif"%string ->
  (_process_next config now outcome db).2 = []
  /\ recordings (_process_next config now outcome db).1 = recordings db
  /\ export_queue (_process_next config now outcome db).1
     = map (mark_done now job) (export_queue db)
  /\ exists j, j ∈ export_queue (_process_next config now outcome db).1
               /\ ExportJob.id j = ExportJob.id job
               /\ ExportJob.recording_id j = ExportJob.recording_id job
               /\ ExportJob.status j = done
               /\ ExportJob.completed_at j = Some now
               /\ ExportJob.error j = ExportJob.error job.
Proof.
  intros Hclaim Hkind.
  apply claim_next_Some in Hclaim as (Hsel & _).
  pose proof (_process_next_spec config now outcome db) as Hspec.
  rewrite Hsel in Hspec. apply select_next_job in Hsel as (Hin & _).
  destruct Hspec as [(recs & -> & _ & Hrecs)|(e & _ & Hgif & _)]; [|done].
  destruct (Hrecs Hkind) as [-> Hcalls]. simpl.
  split_and!; try done.
  exists (mark_done now job job). split.
  - apply list_elem_of_fmap_2. done.
  - unfold mark_done. rewrite Z.eqb_refl. done.
Qed.

Lemma non_gif_job_is_done_without_render_witness :
  let config := Sample.config in
  let db := SampleQueue.db_png_job in
  let job := ExportJob.mk 1 "r1" "png" pending 140 None None in
  (_process_next config 160 (Exited 1 "boom") db).2 = []
  /\ recordings (_process_next config 160 (Exited 1 "boom") db).1 = recordings db
  /\ export_queue (_process_next config 160 (Exited 1 "boom") db).1
     = map (mark_done 160 job) (export_queue db)
  /\ exists j, j ∈ export_queue (_process_next config 160 (Exited 1 "boom") db).1
               /\ ExportJob.id j = ExportJob.id job
               /\ ExportJob.recording_id j = ExportJob.recording_id job
               /\ ExportJob.status j = done
               /\ ExportJob.completed_at j = Some 160
               /\ ExportJob.error j = ExportJob.error job.
Proof.
  apply (non_gif_job_is_done_without_render Sample.config 160 (Exited 1 "boom")
           SampleQueue.db_png_job (ExportJob.mk 1 "r1" "png" pending 140 None None)
           (Sample.row "r1" 1000 "/home/ab" Sample.meta_path)
           (update_job 1 (ExportJob.set_status processing) SampleQueue.db_png_job)).
  - reflexivity.
  - discriminate.
Defined.

(** ** Job columns along a history *)

Lemma unique_id_elem (q : list ExportJob.t) j j' :
  NoDup (map ExportJob.id q) -> j ∈ q -> j' ∈ q -> ExportJob.id j = ExportJob.id j' -> j = j'.
Proof.
  induction q as [|x q IH]; simpl; intros Hnd Hj Hj' Hid.
  - by apply elem_of_nil in Hj.
  - apply NoDup_cons in Hnd as [Hx Hnd].
    apply elem_of_cons in Hj as [->|Hj]; apply elem_of_cons in Hj' as [->|Hj']; try done.
    + exfalso. apply Hx. rewrite Hid. by apply list_elem_of_fmap_2.
    + exfalso. apply Hx. rewrite <- Hid. by apply list_elem_of_fmap_2.
    + by apply IH.
Qed.

Lemma map_id_mark (f : ExportJob.t -> ExportJob.t) (q : list ExportJob.t) :
  (forall j, ExportJob.id (f j) = ExportJob.id j) ->
  map ExportJob.id (map f q) = map ExportJob.id q.
Proof. intros Hf. rewrite map_map. by apply map_ext. Qed.

Lemma mark_processing_id job j : ExportJob.id (mark_processing job j) = ExportJob.id j.
Proof. unfold mark_processing. by destruct (_ =? _). Qed.

Lemma mark_done_id now job j : ExportJob.id (mark_done now job j) = ExportJob.id j.
Proof. unfold mark_done. by destruct (_ =? _). Qed.

Lemma mark_failed_id text job j : ExportJob.id (mark_failed text job j) = ExportJob.id j.
Proof. unfold mark_failed. by destruct (_ =? _). Qed.

(** A status update by id rewrites the claimed row only. *)
Lemma Forall_job_ok_mark (f g : ExportJob.t -> ExportJob.t) (q : list ExportJob.t) job :
  (forall j, f j = if ExportJob.id j =? ExportJob.id job then g j else j) ->
  NoDup (map ExportJob.id q) -> job ∈ q -> job_ok (g job) ->
  Forall job_ok q -> Forall job_ok (map f q).
Proof.
  intros Hf Hnd Hjob Hg Hq. apply Forall_forall. intros j' Hj'.
  apply list_elem_of_fmap in Hj' as (j & -> & Hj).
  rewrite Forall_forall in Hq. rewrite Hf.
  destruct (Z.eqb_spec (ExportJob.id j) (ExportJob.id job)) as [Hid|Hid].
  - by rewrite (unique_id_elem q j job Hnd Hj Hjob Hid).
  - by apply Hq.
Qed.

Lemma job_ok_pending_columns j :
  job_ok j -> ExportJob.status j = pending ->
  ExportJob.completed_at j = None /\ ExportJob.error j = None.
Proof.
  intros (Hc & He & _) Hp. rewrite Hp in Hc, He. split.
  - destruct (ExportJob.completed_at j); [|done].
    assert (pending = done) by (apply Hc; eauto). done.
  - destruct (ExportJob.error j); [|done].
    assert (pending = failed) by (apply He; eauto). done.
Qed.

Lemma job_ok_processing j :
  job_ok j -> ExportJob.status j = pending -> job_ok (ExportJob.set_status processing j).
Proof.
  intros Hok Hp. destruct (job_ok_pending_columns j Hok Hp) as [Hc He].
  unfold job_ok. simpl. rewrite Hc, He.
  split_and!; [split; [by intros [? ?]|done]..|done].
Qed.

Lemma job_ok_done now j :
  job_ok j -> ExportJob.status j = pending ->
  job_ok (ExportJob.set_completed_at (Some now) (ExportJob.set_status done j)).
Proof.
  intros Hok Hp. destruct (job_ok_pending_columns j Hok Hp) as [Hc He].
  unfold job_ok. simpl. rewrite He.
  split_and!; [by split|split; [by intros [? ?]|done]|done].
Qed.

Lemma job_ok_failed text j :
  text <> EmptyString -> job_ok j -> ExportJob.status j = pending ->
  job_ok (ExportJob.set_error (Some text) (ExportJob.set_status failed j)).
Proof.
  intros Htext Hok Hp. destruct (job_ok_pending_columns j Hok Hp) as [Hc He].
  unfold job_ok. simpl. rewrite Hc.
  split_and!; [split; [by intros [? ?]|done]|by split|congruence].
Qed.

Lemma next_job_id_fresh db j : j ∈ export_queue db -> ExportJob.id j < next_job_id db.
Proof.
  unfold next_job_id. generalize (export_queue_seq db).
  induction (export_queue db) as [|x q IH]; intros seq Hj.
  - by apply elem_of_nil in Hj.
  - simpl. apply elem_of_cons in Hj as [->|Hj]; [lia|].
    specialize (IH seq Hj). lia.
Qed.

Lemma index_recording_queue read_meta now meta_path db db' :
  index_recording read_meta now meta_path db = Ok db' -> export_queue db' = export_queue db.
Proof.
  unfold index_recording. destruct (read_meta meta_path); simpl; [|done].
  by intros [= <-].
Qed.

(** One worker cycle keeps the queue well formed. *)
Lemma _process_next_keeps_queue_ok config now outcome db :
  unique_job_ids db -> Forall job_ok (export_queue db) ->
  unique_job_ids (_process_next config now outcome db).1
  /\ Forall job_ok (export_queue (_process_next config now outcome db).1).
Proof.
  intros Hnd Hok.
  pose proof (_process_next_spec config now outcome db) as Hspec.
  destruct (select_next db) as [[job r]|] eqn:Hsel; [|by rewrite Hspec].
  apply select_next_job in Hsel as (Hjob & Hp & _).
  assert (job_ok job) as Hjok by (rewrite Forall_forall in Hok; by apply Hok).
  destruct Hspec as [(recs & -> & _)|(e & He & _ & ->)]; unfold unique_job_ids; simpl.
  - split; [by rewrite (map_id_mark _ _ (mark_done_id now job))|].
    eapply Forall_job_ok_mark; [done|done|done| |done]. by apply job_ok_done.
  - split; [by rewrite (map_id_mark _ _ (mark_failed_id _ job))|].
    eapply Forall_job_ok_mark; [done|done|done| |done]. by apply job_ok_failed.
Qed.

Lemma reachable_queue_ok db :
  reachable db -> unique_job_ids db /\ Forall job_ok (export_queue db).
Proof.
  induction 1 as [|read_meta now meta_path db db' _ IH Hidx|db rid _ IH
                  |now db rid ty _ IH|db job r db1 _ IH Hclaim
                  |config now outcome db _ IH].
  - split; [constructor|constructor].
  - unfold unique_job_ids. by rewrite (index_recording_queue _ _ _ _ _ Hidx).
  - done.
  - destruct IH as [Hnd Hok]. unfold unique_job_ids, enqueue. simpl. split.
    + rewrite map_app. apply NoDup_app. split_and!; [done| |apply NoDup_singleton].
      intros i Hi Hi'. apply list_elem_of_fmap in Hi as (j & -> & Hj).
      apply next_job_id_fresh in Hj. simpl in Hi'.
      apply list_elem_of_singleton in Hi'. lia.
    + apply Forall_app. split; [done|]. constructor; [|constructor].
      unfold job_ok. simpl.
      split_and!; [split; [by intros [? ?]|done]..|done].
  - destruct IH as [Hnd Hok].
    apply claim_next_Some in Hclaim as (Hsel & _ & Hq).
    apply select_next_job in Hsel as (Hjob & Hp & _).
    unfold unique_job_ids. rewrite Hq. split.
    + by rewrite (map_id_mark _ _ (mark_processing_id job)).
    + eapply Forall_job_ok_mark; [done|done|done| |done].
      apply job_ok_processing; [|done]. rewrite Forall_forall in Hok. by apply Hok.
  - destruct IH as [Hnd Hok]. by apply _process_next_keeps_queue_ok.
Qed.

(** C4, as the code has it.  In every index reached from the empty schema,
    each job has a completion time exactly when it is 'done' and an error
    text exactly when it is 'failed', and that text is not empty.  When a
    cycle from such an index leaves the claimed job 'failed', the job has no
    completion time, it has a non-empty error text, and no column of any
    recording has changed. *)
Theorem job_columns_follow_status (db : Database) :
  reachable db ->
  Forall job_ok (export_queue db)
  /\ forall config now outcome job r db1,
      claim_next db = Some (job, r, db1) ->
      forall j, j ∈ export_queue (_process_next config now outcome db).1 ->
                ExportJob.id j = ExportJob.id job ->
                ExportJob.status j = failed ->
                ExportJob.completed_at j = None
                /\ (exists text, ExportJob.error j = Some text /\ text <> EmptyString)
                /\ recordings (_process_next config now outcome db).1 = recordings db.
Proof.
  intros Hreach. destruct (reachable_queue_ok db Hreach) as [Hnd Hok].
  split; [done|].
  intros config now outcome job r db1 Hclaim j Hj Hid Hfailed.
  apply claim_next_Some in Hclaim as (Hsel & _).
  pose proof (_process_next_spec config now outcome db) as Hspec.
  rewrite Hsel in Hspec. apply select_next_job in Hsel as (Hjob & Hp & _).
  assert (job_ok job) as Hjok by (rewrite Forall_forall in Hok; by apply Hok).
  destruct (job_ok_pending_columns job Hjok Hp) as [Hc He].
  destruct Hspec as [(recs & Hdb & _)|(e & Hne & _ & Hdb)]; rewrite Hdb in Hj |- *; simpl in *.
  - exfalso. apply list_elem_of_fmap in Hj as (j0 & -> & Hj0).
    rewrite mark_done_id in Hid. unfold mark_done in Hfailed.
    apply Z.eqb_eq in Hid. rewrite Hid in Hfailed. done.
  - apply list_elem_of_fmap in Hj as (j0 & -> & Hj0).
    rewrite mark_failed_id in Hid.
    rewrite (unique_id_elem _ j0 job Hnd Hj0 Hjob Hid).
    unfold mark_failed. rewrite Z.eqb_refl. simpl.
    split_and!; [done| |done]. by exists (str_exn e).
Qed.

Lemma db_enqueued_reachable : reachable SampleHistory.db_enqueued.
Proof.
  apply (reach_enqueue 140 _ "r1" "gif").
  by apply (reach_index Sample.read_meta 100 Sample.meta_path empty_database _ reach_empty).
Qed.

Lemma job_columns_follow_status_witness :
  reachable SampleHistory.db_enqueued
  /\ Forall job_ok (export_queue SampleHistory.db_enqueued)
  /\ forall config now outcome job r db1,
      claim_next SampleHistory.db_enqueued = Some (job, r, db1) ->
      forall j, j ∈ export_queue (_process_next config now outcome SampleHistory.db_enqueued).1 ->
                ExportJob.id j = ExportJob.id job ->
                ExportJob.status j = failed ->
                ExportJob.completed_at j = None
                /\ (exists text, ExportJob.error j = Some text /\ text <> EmptyString)
                /\ recordings (_process_next config now outcome SampleHistory.db_enqueued).1
                   = recordings SampleHistory.db_enqueued.
Proof.
  split; [exact db_enqueued_reachable|].
  exact (job_columns_follow_status SampleHistory.db_enqueued db_enqueued_reachable).
Defined.

(** C4 as stated fails.  A recording is indexed, a "gif" job is enqueued
    for it, and the renderer exits with code 1: the cycle leaves the job
    'failed' with its error text and without a completion time. *)
Lemma failed_job_has_no_completion_time :
  let db := (_process_next Sample.config 160 SampleHistory.outcome SampleHistory.db_enqueued).1 in
  reachable db
  /\ exists j, export_queue db = [j]
               /\ ExportJob.status j = failed
               /\ ExportJob.error j = Some "agg failed: boom"%string
               /\ ExportJob.completed_at j = None.
Proof.
  split.
  - apply reach_process, db_enqueued_reachable.
  - eexists. split_and!; reflexivity.
Qed.

(** ** Jobs of a deleted recording *)

Lemma filter_references_mark (f g : ExportJob.t -> ExportJob.t) (q : list ExportJob.t) job rid :
  (forall j, f j = if ExportJob.id j =? ExportJob.id job then g j else j) ->
  (forall j, ExportJob.recording_id (g j) = ExportJob.recording_id j) ->
  (forall j, j ∈ q -> ExportJob.id j = ExportJob.id job -> ExportJob.recording_id j <> rid) ->
  List.filter (references rid) (map f q) = List.filter (references rid) q.
Proof.
  intros Hf Hg. induction q as [|j q IH]; intros Hq; simpl; [done|].
  rewrite IH by (intros j' Hj'; apply Hq; by apply list_elem_of_further).
  rewrite Hf. destruct (Z.eqb_spec (ExportJob.id j) (ExportJob.id job)) as [Hid|Hid]; [|done].
  pose proof (Hq j (list_elem_of_here _ _) Hid) as Hne.
  unfold references. rewrite Hg.
  by destruct (String.eqb_spec (ExportJob.recording_id j) rid).
Qed.

Lemma delete_recording_orphans db rid :
  rid ∉ map IndexedRecording.id (recordings (delete_recording db rid).1).
Proof.
  simpl. intros Hin. apply list_elem_of_fmap in Hin as (r & -> & Hr).
  apply list_elem_of_In, filter_In in Hr as [_ Hr].
  by rewrite String.eqb_refl in Hr.
Qed.

Lemma select_next_not_orphan db rid job r :
  rid ∉ map IndexedRecording.id (recordings db) ->
  select_next db = Some (job, r) -> ExportJob.recording_id job <> rid.
Proof.
  intros Hrid Hsel. apply select_next_job in Hsel as (_ & _ & Hr & Hid).
  intros <-. apply Hrid. rewrite Hid. by apply list_elem_of_fmap_2.
Qed.

(** A worker cycle leaves alone the jobs of a recording that has no row. *)
Lemma _process_next_keeps_orphans config now outcome db rid :
  unique_job_ids db ->
  rid ∉ map IndexedRecording.id (recordings db) ->
  (rid ∉ map IndexedRecording.id (recordings (_process_next config now outcome db).1))
  /\ List.filter (references rid) (export_queue (_process_next config now outcome db).1)
     = List.filter (references rid) (export_queue db).
Proof.
  intros Hnd Hrid.
  pose proof (_process_next_spec config now outcome db) as Hspec.
  destruct (select_next db) as [[job r]|] eqn:Hsel; [|by rewrite Hspec].
  pose proof (select_next_not_orphan db rid job r Hrid Hsel) as Hne.
  apply select_next_job in Hsel as (Hjob & _).
  assert (forall j, j ∈ export_queue db -> ExportJob.id j = ExportJob.id job ->
                    ExportJob.recording_id j <> rid) as Hq.
  { intros j Hj Hid. by rewrite (unique_id_elem _ j job Hnd Hj Hjob Hid). }
  destruct Hspec as [(recs & -> & Hids & _)|(e & _ & _ & ->)]; simpl.
  - rewrite Hids. split; [done|]. by eapply filter_references_mark.
  - split; [done|]. by eapply filter_references_mark.
Qed.

Lemma run_cycles_keeps_orphans config cycles db rid :
  unique_job_ids db ->
  rid ∉ map IndexedRecording.id (recordings db) ->
  unique_job_ids (run_cycles config cycles db)
  /\ (rid ∉ map IndexedRecording.id (recordings (run_cycles config cycles db)))
  /\ List.filter (references rid) (export_queue (run_cycles config cycles db))
     = List.filter (references rid) (export_queue db).
Proof.
  unfold run_cycles. revert db.
  induction cycles as [|[now outcome] cycles IH]; intros db Hnd Hrid; simpl; [done|].
  destruct (_process_next_keeps_orphans config now outcome db rid Hnd Hrid) as [Hrid' Hq].
  assert (unique_job_ids (_process_next config now outcome db).1) as Hnd'.
  { pose proof (_process_next_spec config now outcome db) as Hspec.
    destruct (select_next db) as [[job r]|]; [|by rewrite Hspec].
    destruct Hspec as [(recs & -> & _)|(e & _ & _ & ->)]; unfold unique_job_ids; simpl.
    - by rewrite (map_id_mark _ _ (mark_done_id now job)).
    - by rewrite (map_id_mark _ _ (mark_failed_id _ job)). }
  destruct (IH _ Hnd' Hrid') as (? & ? & ->). done.
Qed.

(** ** The status server *)

Lemma get_by_id_Some db i r :
  get_by_id db i = Some r -> r ∈ recordings db /\ IndexedRecording.id r = i.
Proof.
  unfold get_by_id. intros Hf. apply find_some in Hf as [Hin Hid].
  split; [by apply list_elem_of_In|by apply String.eqb_eq].
Qed.

Lemma get_by_id_None db i r :
  get_by_id db i = None -> r ∈ recordings db -> IndexedRecording.id r <> i.
Proof.
  unfold get_by_id. intros Hf Hin Hid.
  apply list_elem_of_In in Hin.
  pose proof (find_none _ _ Hf r Hin) as Hne. simpl in Hne.
  by rewrite Hid, String.eqb_refl in Hne.
Qed.

Lemma get_by_atuin_id_Some db a r :
  get_by_atuin_id db a = Some r -> r ∈ recordings db /\ IndexedRecording.atuin_id r = Some a.
Proof.
  unfold get_by_atuin_id. intros Hf. apply find_some in Hf as [Hin Hid].
  split; [by apply list_elem_of_In|].
  unfold Sqlite.text_eq in Hid. destruct (IndexedRecording.atuin_id r); [|done].
  by apply String.eqb_eq in Hid as ->.
Qed.

Lemma get_by_atuin_id_None db a r :
  get_by_atuin_id db a = None -> r ∈ recordings db -> IndexedRecording.atuin_id r <> Some a.
Proof.
  unfold get_by_atuin_id. intros Hf Hin Hid.
  apply list_elem_of_In in Hin.
  pose proof (find_none _ _ Hf r Hin) as Hne. simpl in Hne.
  by rewrite Hid in Hne; simpl in Hne; rewrite String.eqb_refl in Hne.
Qed.

Lemma eq_str_false v s : v <> JStr s -> eq_str v s = false.
Proof.
  intros Hne. destruct v; try done. simpl.
  destruct (String.eqb_spec s0 s) as [->|]; done.
Qed.

Section ServerFacts.

Variable json_loads : string -> result json.
Variable json_dumps : json -> string.
Variable repr_other : json -> string.
Variable bind_limit_offset : json -> json -> result (Z * Z).
Variable bind_text : json -> result (option string).

Abbreviation process_message := (_process_message repr_other bind_limit_offset bind_text).
Abbreviation handle_client :=
  (_handle_client json_loads json_dumps repr_other bind_limit_offset bind_text).

(** C6.  Whatever line a client sends, the server writes exactly one line,
    the dump of one JSON value, and closes the connection.  For a dict whose
    action is none of status, list, get and cleanup that value is the error
    object naming the action, and the state is unchanged; when the decoding
    or the handling raises, it is the error object holding the exception's
    text. *)
Theorem one_response_per_connection config (now : Z) (data : string) (w : World) :
  (exists response,
      (handle_client config now data w).1
      = mkConnection [json_dumps response +:+ newline] true)
  /\ (forall fields,
         json_loads data = Ok (JObj fields) ->
         get_default fields "action" JNull <> JStr "status" ->
         get_default fields "action" JNull <> JStr "list" ->
         get_default fields "action" JNull <> JStr "get" ->
         get_default fields "action" JNull <> JStr "cleanup" ->
         handle_client config now data w
         = (mkConnection
              [json_dumps
                 (JObj [("error"%string,
                         JStr ("Unknown action: "
                               +:+ py_str repr_other (get_default fields "action" JNull)))])
               +:+ newline] true, w))
  /\ (forall e,
         json_loads data = Raise e ->
         handle_client config now data w
         = (mkConnection [json_dumps (JObj [("error"%string, JStr (str_exn e))]) +:+ newline] true, w))
  /\ (forall message e,
         json_loads data = Ok message ->
         (process_message config now message w).1 = Raise e ->
         (handle_client config now data w).1
         = mkConnection [json_dumps (JObj [("error"%string, JStr (str_exn e))]) +:+ newline] true).
Proof.
  unfold _handle_client. split_and!.
  - destruct (json_loads data) as [message|e].
    + destruct (process_message config now message w) as [[response|e] w']; by eexists.
    + by eexists.
  - intros fields -> H1 H2 H3 H4. unfold _process_message.
    by rewrite !eq_str_false.
  - by intros e ->.
  - intros message e -> He.
    destruct (process_message config now message w) as [outcome w']. simpl in He.
    by rewrite He.
Qed.

End ServerFacts.

Lemma one_response_per_connection_witness :
  SampleServer.json_loads SampleServer.bogus_line = Ok (JObj SampleServer.bogus_fields)
  /\ _handle_client SampleServer.json_loads SampleServer.json_dumps SampleServer.repr_other
                    SampleServer.bind_limit_offset SampleServer.bind_text
                    Sample.config 0 SampleServer.bogus_line SampleServer.world
     = (mkConnection
          [SampleServer.json_dumps (JObj [("error"%string, JStr "Unknown action: bogus")])
           +:+ newline] true, SampleServer.world).
Proof.
  split; [reflexivity|].
  apply (proj1 (proj2 (one_response_per_connection
                         SampleServer.json_loads SampleServer.json_dumps SampleServer.repr_other
                         SampleServer.bind_limit_offset SampleServer.bind_text
                         Sample.config 0 SampleServer.bogus_line SampleServer.world))
               SampleServer.bogus_fields); [reflexivity|discriminate..].
Defined.

(** * Further properties of the code *)

(** ** Deleting and looking up rows *)

Lemma filter_length_lt {A} (f : A -> bool) (l : list A) :
  (length (List.filter f l) <? length l)%nat = true <-> exists x, x ∈ l /\ f x = false.
Proof.
  rewrite Nat.ltb_lt. induction l as [|x l IH]; simpl.
  - split; [lia|]. intros (x & Hx & _). by apply elem_of_nil in Hx.
  - pose proof (List.filter_length_le f l) as Hle.
    destruct (f x) eqn:Hfx; simpl.
    + rewrite <- Nat.succ_lt_mono, IH. split.
      * intros (y & Hy & Hfy). exists y. split; [by apply list_elem_of_further|done].
      * intros (y & Hy & Hfy). apply elem_of_cons in Hy as [->|Hy]; [congruence|by exists y].
    + split; [|lia]. intros _. exists x. split; [apply list_elem_of_here|done].
Qed.

Lemma find_filter_other {A} (f g : A -> bool) (l : list A) :
  (forall x, f x = true -> g x = true) ->
  List.find f (List.filter g l) = List.find f l.
Proof.
  intros Hfg. induction l as [|x l IH]; simpl; [done|].
  destruct (g x) eqn:Hg; simpl.
  - by rewrite IH.
  - destruct (f x) eqn:Hf; [|done]. apply Hfg in Hf. congruence.
Qed.

Lemma get_by_id_deleted db rid : get_by_id (delete_recording db rid).1 rid = None.
Proof.
  unfold get_by_id. simpl.
  destruct (List.find _ _) as [r|] eqn:Hf; [|done].
  apply find_some in Hf as [Hr Hid]. apply filter_In in Hr as [_ Hr].
  by rewrite Hid in Hr.
Qed.

(** X1. [Indexer.delete_recording], indexer.py: after the DELETE no row has the
    identifier any more, under either lookup; the call returns [true] exactly
    when a row had it; the rows of other identifiers are found as before;
    and deleting a second time changes nothing and returns [false]. *)
Theorem delete_recording_removes_the_row (db : Database) (rid : string) :
  get_by_id (delete_recording db rid).1 rid = None
  /\ ((delete_recording db rid).2 = true
      <-> exists r, r ∈ recordings db /\ IndexedRecording.id r = rid)
  /\ (forall other, other <> rid ->
                    get_by_id (delete_recording db rid).1 other = get_by_id db other)
  /\ (forall a r, get_by_atuin_id (delete_recording db rid).1 a = Some r ->
                  r ∈ recordings db /\ IndexedRecording.id r <> rid)
  /\ delete_recording (delete_recording db rid).1 rid = ((delete_recording db rid).1, false).
Proof.
  split_and!.
  - apply get_by_id_deleted.
  - simpl. rewrite filter_length_lt. split.
    + intros (r & Hr & Hid). exists r. split; [done|].
      apply negb_false_iff in Hid. by apply String.eqb_eq.
    + intros (r & Hr & Hid). exists r. split; [done|].
      apply negb_false_iff. by apply String.eqb_eq.
  - intros other Hne. unfold get_by_id. simpl. apply find_filter_other.
    intros r Hr. apply String.eqb_eq in Hr. apply negb_true_iff.
    apply String.eqb_neq. congruence.
  - intros a r Hr. unfold get_by_atuin_id in Hr. simpl in Hr.
    apply find_some in Hr as [Hin _]. apply filter_In in Hin as [Hin Hid].
    split; [by apply list_elem_of_In|].
    apply negb_true_iff in Hid. by apply String.eqb_neq.
  - unfold delete_recording at 1. simpl. f_equal.
    + unfold set_recordings. simpl. f_equal.
      rewrite List.forallb_filter_id; [done|apply List.forallb_filter].
    + apply Nat.ltb_ge. simpl.
      rewrite (List.forallb_filter_id _ (List.filter _ (recordings db)));
        [lia|apply List.forallb_filter].
Qed.

(** ** Keys of the index *)

Lemma sublist_List_filter {A} (f : A -> bool) (l : list A) : List.filter f l `sublist_of` l.
Proof.
  induction l as [|x l IH]; simpl; [done|].
  destruct (f x); [by apply sublist_skip|by apply sublist_cons].
Qed.

Lemma sublist_omap {A B} (f : A -> option B) (l1 l2 : list A) :
  l1 `sublist_of` l2 -> omap f l1 `sublist_of` omap f l2.
Proof.
  induction 1 as [|x l1 l2 _ IH|x l1 l2 _ IH]; simpl; [done|..].
  - destruct (f x); [by apply sublist_skip|done].
  - destruct (f x); [by apply sublist_cons|done].
Qed.

Lemma insert_or_replace_elem new rows r :
  r ∈ insert_or_replace new rows
  <-> r = new \/ (r ∈ rows /\ conflicts new r = false).
Proof.
  unfold insert_or_replace. rewrite elem_of_app, list_elem_of_singleton, list_elem_of_In, filter_In.
  rewrite negb_true_iff, <- list_elem_of_In. tauto.
Qed.

Lemma conflicts_false new r :
  conflicts new r = false
  <-> IndexedRecording.id r <> IndexedRecording.id new
      /\ (forall a, IndexedRecording.atuin_id new = Some a -> IndexedRecording.atuin_id r <> Some a).
Proof.
  unfold conflicts. rewrite orb_false_iff, String.eqb_neq.
  destruct (IndexedRecording.atuin_id new) as [a|]; unfold Sqlite.text_eq.
  - destruct (IndexedRecording.atuin_id r) as [b|].
    + rewrite String.eqb_neq. split.
      * intros [H1 H2]. split; [done|]. intros a' [= <-]. congruence.
      * intros [H1 H2]. split; [done|]. intros ->. by apply (H2 a).
    + split; [|by intros [? _]]. intros [H1 _]. split; [done|]. by intros a' _.
  - split; [|by intros [? _]]. intros [H1 _]. split; [done|]. by intros a' Ha.
Qed.

Lemma insert_or_replace_keys_ok new rows :
  recordings_keys_ok rows -> recordings_keys_ok (insert_or_replace new rows).
Proof.
  intros [Hid Hat]. unfold recordings_keys_ok, insert_or_replace. split.
  - rewrite map_app. apply NoDup_app. split_and!.
    + eapply sublist_NoDup; [exact Hid|]. apply (fmap_sublist IndexedRecording.id), sublist_List_filter.
    + intros i Hi Hnew. simpl in Hnew. apply list_elem_of_singleton in Hnew as ->.
      apply list_elem_of_fmap in Hi as (r & Hr & Hin).
      apply list_elem_of_In, filter_In in Hin as [_ Hc].
      apply negb_true_iff, conflicts_false in Hc as [Hne _]. congruence.
    + apply NoDup_singleton.
  - rewrite omap_app. apply NoDup_app. split_and!.
    + eapply sublist_NoDup; [exact Hat|]. apply sublist_omap, sublist_List_filter.
    + intros a Ha Hnew. simpl in Hnew.
      destruct (IndexedRecording.atuin_id new) as [a'|] eqn:Hnewa;
        [|by apply elem_of_nil in Hnew].
      apply list_elem_of_singleton in Hnew as ->.
      apply list_elem_of_omap in Ha as (r & Hin & Hra).
      apply list_elem_of_In, filter_In in Hin as [_ Hc].
      apply negb_true_iff, conflicts_false in Hc as [_ Hne]. by apply (Hne a').
    + simpl. destruct (IndexedRecording.atuin_id new); [apply NoDup_singleton|constructor].
Qed.

Lemma omap_map_same {A B} (g : A -> option B) (f : A -> A) (l : list A) :
  (forall x, g (f x) = g x) -> omap g (map f l) = omap g l.
Proof.
  intros Hgf. induction l as [|x l IH]; [done|].
  change (omap g (f x :: map f l) = omap g (x :: l)).
  change (match g (f x) with Some y => y :: omap g (map f l) | None => omap g (map f l) end
          = match g x with Some y => y :: omap g l | None => omap g l end).
  by rewrite Hgf, IH.
Qed.

Lemma update_gif_path_keys recording_id gif db :
  map IndexedRecording.id (recordings (update_gif_path recording_id gif db))
  = map IndexedRecording.id (recordings db)
  /\ omap IndexedRecording.atuin_id (recordings (update_gif_path recording_id gif db))
     = omap IndexedRecording.atuin_id (recordings db).
Proof.
  simpl. split.
  - rewrite map_map. apply map_ext. intros r. by destruct (String.eqb _ _).
  - apply omap_map_same. intros r. by destruct (String.eqb _ _).
Qed.

(** The recordings after a worker cycle: as before, or with one artifact
    path written. *)
Lemma _process_next_recordings config now outcome db :
  recordings (_process_next config now outcome db).1 = recordings db
  \/ exists recording_id gif,
      recordings (_process_next config now outcome db).1
      = recordings (update_gif_path recording_id gif db).
Proof.
  unfold _process_next, claim_next.
  destruct (select_next db) as [[job r]|]; [|by left].
  destruct (String.eqb (ExportJob.export_type job) "gif"); [|by left].
  pose proof (_generate_gif_spec config outcome
                (update_job (ExportJob.id job) (ExportJob.set_status processing) db)
                (ExportJob.recording_id job) (IndexedRecording.cast_path r)) as Hg.
  destruct (_generate_gif _ _ _ _ _) as [[db2|e] calls]; [|by left].
  destruct Hg as [gif ->]. right. by exists (ExportJob.recording_id job), gif.
Qed.

(** X3. indexer.py, the keys of the [recordings] table: in every state reached
    from the empty database by indexing, enqueueing, deleting and export
    cycles, no two rows share an [id] and no two rows share a non-NULL
    [atuin_id]. *)
Theorem reachable_recordings_keys_ok (db : Database) :
  reachable db -> recordings_keys_ok (recordings db).
Proof.
  induction 1 as [|read_meta now meta_path db db' _ IH Hidx|db rid _ IH
                  |now db rid ty _ IH|db job r db1 _ IH Hclaim
                  |config now outcome db _ IH].
  - split; constructor.
  - unfold index_recording in Hidx. destruct (read_meta meta_path); simpl in Hidx; [|done].
    injection Hidx as <-. simpl. by apply insert_or_replace_keys_ok.
  - destruct IH as [Hid Hat]. simpl. split.
    + eapply sublist_NoDup; [exact Hid|]. apply (fmap_sublist IndexedRecording.id), sublist_List_filter.
    + eapply sublist_NoDup; [exact Hat|]. apply sublist_omap, sublist_List_filter.
  - done.
  - apply claim_next_Some in Hclaim as (_ & -> & _). done.
  - destruct (_process_next_recordings config now outcome db) as [->|(rid & gif & ->)]; [done|].
    unfold recordings_keys_ok.
    destruct (update_gif_path_keys rid gif db) as [-> ->]. done.
Qed.

Lemma reachable_recordings_keys_ok_witness :
  reachable SampleHistory.db_enqueued
  /\ recordings_keys_ok (recordings SampleHistory.db_enqueued).
Proof.
  split; [exact db_enqueued_reachable|].
  exact (reachable_recordings_keys_ok SampleHistory.db_enqueued db_enqueued_reachable).
Defined.

(** X2. [Indexer.index_recording], indexer.py: INSERT OR REPLACE on a metadata
    file that carries an atuin_id makes the new row the one
    [get_by_atuin_id] finds, and the only row with that atuin_id: a row
    of another recording that held the atuin_id is deleted, not kept beside
    it. Rows that conflict on neither key stay. *)
Theorem index_recording_takes_over_atuin_id read_meta (now : Z) (meta_path : string)
    (db : Database) (meta : RecordingMetadata.t) (a : string) :
  read_meta meta_path = Ok meta ->
  RecordingMetadata.atuin_id meta = Some a ->
  exists db',
    index_recording read_meta now meta_path db = Ok db'
    /\ get_by_atuin_id db' a = Some (row_of_metadata now meta_path meta)
    /\ (forall r, r ∈ recordings db' -> IndexedRecording.atuin_id r = Some a ->
                  r = row_of_metadata now meta_path meta)
    /\ (forall r, r ∈ recordings db ->
                  IndexedRecording.id r <> RecordingMetadata.id meta ->
                  IndexedRecording.atuin_id r <> Some a ->
                  r ∈ recordings db').
Proof.
  intros Hread Ha. unfold index_recording. rewrite Hread. simpl.
  eexists. split; [reflexivity|]. simpl.
  set (new := row_of_metadata now meta_path meta).
  assert (forall r, r ∈ insert_or_replace new (recordings db) ->
                    IndexedRecording.atuin_id r = Some a -> r = new) as Huniq.
  { intros r Hr Hra. apply insert_or_replace_elem in Hr as [->|[_ Hc]]; [done|].
    apply conflicts_false in Hc as [_ Hne]. by destruct (Hne a). }
  split_and!.
  - unfold get_by_atuin_id. simpl.
    destruct (List.find _ _) as [r|] eqn:Hf.
    + apply find_some in Hf as [Hin Hra]. f_equal. apply Huniq.
      * by apply list_elem_of_In.
      * unfold Sqlite.text_eq in Hra. destruct (IndexedRecording.atuin_id r); [|done].
        by apply String.eqb_eq in Hra as ->.
    + exfalso. assert (In new (insert_or_replace new (recordings db))) as Hin.
      { apply list_elem_of_In, insert_or_replace_elem. by left. }
      pose proof (find_none _ _ Hf new Hin) as Hne. simpl in Hne.
      rewrite Ha in Hne. simpl in Hne. by rewrite String.eqb_refl in Hne.
  - exact Huniq.
  - intros r Hr Hid Hra. apply insert_or_replace_elem. right. split; [done|].
    apply conflicts_false. split; [done|]. intros a' Ha'. simpl in Ha'.
    rewrite Ha in Ha'. by injection Ha' as <-.
Qed.

Lemma index_recording_takes_over_atuin_id_witness :
  Sample.read_meta Sample.meta_path = Ok Sample.meta
  /\ RecordingMetadata.atuin_id Sample.meta = Some "a1"%string
  /\ exists db',
    index_recording Sample.read_meta 100 Sample.meta_path Sample.db_one = Ok db'
    /\ get_by_atuin_id db' "a1" = Some (row_of_metadata 100 Sample.meta_path Sample.meta)
    /\ (forall r, r ∈ recordings db' -> IndexedRecording.atuin_id r = Some "a1"%string ->
                  r = row_of_metadata 100 Sample.meta_path Sample.meta)
    /\ (forall r, r ∈ recordings Sample.db_one ->
                  IndexedRecording.id r <> RecordingMetadata.id Sample.meta ->
                  IndexedRecording.atuin_id r <> Some "a1"%string ->
                  r ∈ recordings db').
Proof.
  split; [reflexivity|]. split; [reflexivity|].
  apply (index_recording_takes_over_atuin_id Sample.read_meta 100 Sample.meta_path
           Sample.db_one Sample.meta "a1"); reflexivity.
Defined.

(** ** Filters, statistics and pages of [list_recordings] *)

Lemma ne_zero_is_failed r :
  Sqlite.ne_zero (IndexedRecording.exit_code r) = true <-> is_failed r.
Proof.
  unfold Sqlite.ne_zero, is_failed. destruct (IndexedRecording.exit_code r) as [c|].
  - rewrite negb_true_iff, Z.eqb_neq. split; [by exists c|]. by intros (c' & [= <-] & ?).
  - split; [done|]. by intros (c & ? & _).
Qed.

Lemma limit_offset_elem {A} limit offset (rows : list A) x :
  x ∈ Sqlite.limit_offset limit offset rows -> x ∈ rows.
Proof. intros Hx. eapply elem_of_sublist; [exact Hx|apply limit_offset_sublist]. Qed.

(** X5. [Indexer.list_recordings] with [failed_only], indexer.py: every row
    returned has an exit code that is neither NULL nor 0, every such row of
    the table is returned when no window and no directory filter is given,
    and no row is invented. *)
Theorem list_recordings_failed_only (db : Database) (limit offset : Z) (cwd : option string) :
  Forall is_failed (list_recordings db limit offset true cwd)
  /\ (forall r, r ∈ recordings db -> is_failed r ->
                r ∈ list_recordings db (-1) 0 true None)
  /\ (forall r, r ∈ list_recordings db limit offset true cwd -> r ∈ recordings db).
Proof.
  unfold list_recordings. split_and!.
  - apply Forall_forall. intros r Hr. apply limit_offset_elem in Hr.
    rewrite (order_by_desc_perm IndexedRecording.timestamp) in Hr.
    apply ne_zero_is_failed.
    destruct cwd as [c|]; [destruct (String.eqb c EmptyString)|].
    + by apply list_elem_of_In, filter_In in Hr as [_ Hr].
    + apply list_elem_of_In, filter_In in Hr as [Hr _].
      by apply filter_In in Hr as [_ Hr].
    + by apply list_elem_of_In, filter_In in Hr as [_ Hr].
  - intros r Hr Hf. rewrite limit_offset_all.
    rewrite (order_by_desc_perm IndexedRecording.timestamp).
    apply list_elem_of_In, filter_In. split; [by apply list_elem_of_In|].
    by apply ne_zero_is_failed.
  - intros r Hr. apply limit_offset_elem in Hr.
    rewrite (order_by_desc_perm IndexedRecording.timestamp) in Hr.
    destruct cwd as [c|]; [destruct (String.eqb c EmptyString)|].
    + by apply list_elem_of_In, filter_In in Hr as [Hr%list_elem_of_In _].
    + apply list_elem_of_In, filter_In in Hr as [Hr _].
      by apply filter_In in Hr as [Hr%list_elem_of_In _].
    + by apply list_elem_of_In, filter_In in Hr as [Hr%list_elem_of_In _].
Qed.

(** X4. [Indexer.get_stats], indexer.py: the two counts are the lengths of what
    [list_recordings] returns without a window, for all rows and with
    [failed_only]; the failed count never exceeds the total. *)
Theorem get_stats_counts_what_list_returns (db : Database) :
  total_count (get_stats db) = Z.of_nat (length (list_recordings db (-1) 0 false None))
  /\ failed_count (get_stats db) = Z.of_nat (length (list_recordings db (-1) 0 true None))
  /\ 0 <= failed_count (get_stats db) <= total_count (get_stats db).
Proof.
  unfold get_stats, list_recordings. simpl. rewrite !limit_offset_all.
  rewrite !(Permutation_length (order_by_desc_perm IndexedRecording.timestamp _)).
  split_and!; try done; [lia|].
  apply inj_le, List.filter_length_le.
Qed.

(** X6. [Indexer.list_recordings], indexer.py: LIMIT and OFFSET page the
    listing. The page of [limit] rows at [offset] followed by the page of
    [limit'] rows at [offset + limit] is the page of [limit + limit'] rows
    at [offset], and a page never holds more than [limit] rows. *)
Theorem list_recordings_pages (db : Database) (limit limit' offset : Z)
    (failed_only : bool) (cwd : option string) :
  0 <= limit -> 0 <= limit' -> 0 <= offset ->
  list_recordings db limit offset failed_only cwd
    ++ list_recordings db limit' (offset + limit) failed_only cwd
  = list_recordings db (limit + limit') offset failed_only cwd
  /\ (length (list_recordings db limit offset failed_only cwd) <= Z.to_nat limit)%nat.
Proof.
  intros Hl Hl' Ho. unfold list_recordings.
  set (rows := Sqlite.order_by_desc _ _). unfold Sqlite.limit_offset.
  destruct (Z.ltb_spec limit 0); [lia|].
  destruct (Z.ltb_spec limit' 0); [lia|].
  destruct (Z.ltb_spec (limit + limit') 0); [lia|].
  split.
  - rewrite !Z2Nat.inj_add by lia. rewrite <- drop_drop. apply take_take_drop.
  - rewrite length_take. lia.
Qed.

Lemma list_recordings_pages_witness :
  list_recordings (index Sample.world_two) 1 0 false None
    ++ list_recordings (index Sample.world_two) 1 (0 + 1) false None
  = list_recordings (index Sample.world_two) (1 + 1) 0 false None
  /\ (length (list_recordings (index Sample.world_two) 1 0 false None) <= Z.to_nat 1)%nat.
Proof.
  apply (list_recordings_pages (index Sample.world_two) 1 1 0 false None); lia.
Defined.

(** ** LIKE on a pattern without wildcards *)




(** ** Enqueueing *)

Lemma next_job_id_above_seq db : export_queue_seq db < next_job_id db.
Proof.
  unfold next_job_id. induction (export_queue db) as [|x q IH]; simpl; lia.
Qed.

(** X8. [ExportQueue.enqueue], exporter.py: the queue grows by one pending job
    at its end, with the given recording identifier and type, no completion
    time and no error; its id is above every id in the queue and above every
    id given out before; the recordings are untouched. No check is made that
    the recording exists. *)
Theorem enqueue_appends_a_fresh_pending_job (now : Z) (db : Database)
    (recording_id export_type : string) :
  exists j,
    export_queue (enqueue now db recording_id export_type) = export_queue db ++ [j]
    /\ j = ExportJob.mk (ExportJob.id j) recording_id export_type pending now None None
    /\ (forall j', j' ∈ export_queue db -> ExportJob.id j' < ExportJob.id j)
    /\ export_queue_seq db < ExportJob.id j
    /\ export_queue_seq (enqueue now db recording_id export_type) = ExportJob.id j
    /\ recordings (enqueue now db recording_id export_type) = recordings db.
Proof.
  eexists. split; [reflexivity|]. simpl. split_and!; try done.
  - intros j' Hj'. by apply next_job_id_fresh.
  - apply next_job_id_above_seq.
Qed.

Lemma pending_joined_enqueue now db recording_id export_type :
  pending_joined (enqueue now db recording_id export_type)
  = pending_joined db
    ++ map (fun r => (ExportJob.mk (next_job_id db) recording_id export_type pending now None None, r))
           (List.filter (fun r => String.eqb recording_id (IndexedRecording.id r)) (recordings db)).
Proof.
  unfold pending_joined, enqueue. simpl.
  rewrite List.filter_app, flat_map_app. simpl. by rewrite app_nil_r.
Qed.

(** X9. [ExportQueue.enqueue] then [_process_next], exporter.py: when no job
    can be claimed, a job enqueued for an indexed recording is the job the
    next cycle claims, joined to a row with that identifier. *)
Theorem enqueued_job_is_the_next_claim (now : Z) (db : Database)
    (export_type : string) (r : IndexedRecording.t) :
  r ∈ recordings db ->
  claim_next db = None ->
  exists r' db1,
    claim_next (enqueue now db (IndexedRecording.id r) export_type)
    = Some (ExportJob.mk (next_job_id db) (IndexedRecording.id r) export_type pending now None None,
            r', db1)
    /\ r' ∈ recordings db
    /\ IndexedRecording.id r' = IndexedRecording.id r.
Proof.
  intros Hr Hnone.
  assert (pending_joined db = []) as Hempty.
  { apply select_next_None. unfold claim_next in Hnone.
    by destruct (select_next db) as [[? ?]|]. }
  set (new := ExportJob.mk (next_job_id db) (IndexedRecording.id r) export_type pending now None None).
  pose proof (pending_joined_enqueue now db (IndexedRecording.id r) export_type) as Hpj.
  rewrite Hempty in Hpj. simpl in Hpj. fold new in Hpj.
  unfold claim_next.
  destruct (select_next _) as [[job r']|] eqn:Hsel.
  - apply select_next_Some in Hsel as [Hin _]. rewrite Hpj in Hin.
    apply list_elem_of_fmap in Hin as (r0 & [= -> ->] & Hr0).
    apply list_elem_of_In, filter_In in Hr0 as [Hr0 Hid]. apply String.eqb_eq in Hid.
    eexists _, _. split; [reflexivity|]. split; [by apply list_elem_of_In|done].
  - exfalso. apply select_next_None in Hsel. rewrite Hpj in Hsel.
    apply (f_equal length) in Hsel. rewrite length_map in Hsel. simpl in Hsel.
    assert (In r (List.filter (fun r0 => String.eqb (IndexedRecording.id r) (IndexedRecording.id r0))
                              (recordings db))) as Hin.
    { apply filter_In. split; [by apply list_elem_of_In|apply String.eqb_refl]. }
    destruct (List.filter _ _); [done|simpl in Hsel; lia].
Qed.

Lemma enqueued_job_is_the_next_claim_witness :
  exists r' db1,
    claim_next (enqueue 150 Sample.db_one
                        (IndexedRecording.id (Sample.row "r1" 1000 "/home/ab" Sample.meta_path)) "gif")
    = Some (ExportJob.mk (next_job_id Sample.db_one)
                         (IndexedRecording.id (Sample.row "r1" 1000 "/home/ab" Sample.meta_path))
                         "gif" pending 150 None None, r', db1)
    /\ r' ∈ recordings Sample.db_one
    /\ IndexedRecording.id r' = IndexedRecording.id (Sample.row "r1" 1000 "/home/ab" Sample.meta_path).
Proof.
  apply (enqueued_job_is_the_next_claim 150 Sample.db_one "gif"
           (Sample.row "r1" 1000 "/home/ab" Sample.meta_path)).
  - apply list_elem_of_here.
  - reflexivity.
Defined.

(** ** What a cycle leaves alone *)

(** The queue after a cycle: the claimed job's row becomes 'done' or
    'failed', every other row is as before. *)
Lemma _process_next_queue config now outcome db :
  match select_next db with
  | None => export_queue (_process_next config now outcome db).1 = export_queue db
  | Some (job, _) =>
      export_queue (_process_next config now outcome db).1
      = map (mark_done now job) (export_queue db)
      \/ exists text,
          export_queue (_process_next config now outcome db).1
          = map (mark_failed text job) (export_queue db)
  end.
Proof.
  pose proof (_process_next_spec config now outcome db) as Hspec.
  destruct (select_next db) as [[job r]|]; [|by rewrite Hspec].
  destruct Hspec as [(recs & -> & _)|(e & _ & _ & ->)]; [by left|right; by eexists].
Qed.

(** X13. [ExportQueue._process_next], exporter.py: one cycle leaves every job
    that is not pending as it is; a job keeps its position, id, recording,
    type and creation time, and changes, if at all, from pending to done or
    failed. *)
Theorem cycle_rewrites_only_a_pending_job config (now : Z) (outcome : AggOutcome)
    (db : Database) (i : nat) (j : ExportJob.t) :
  unique_job_ids db ->
  export_queue db !! i = Some j ->
  (ExportJob.status j <> pending ->
   export_queue (_process_next config now outcome db).1 !! i = Some j)
  /\ exists j',
      export_queue (_process_next config now outcome db).1 !! i = Some j'
      /\ ExportJob.id j' = ExportJob.id j
      /\ ExportJob.recording_id j' = ExportJob.recording_id j
      /\ ExportJob.export_type j' = ExportJob.export_type j
      /\ ExportJob.created_at j' = ExportJob.created_at j
      /\ (j' = j \/ (ExportJob.status j = pending
                     /\ (ExportJob.status j' = done \/ ExportJob.status j' = failed))).
Proof.
  intros Hnd Hi.
  pose proof (_process_next_queue config now outcome db) as Hq.
  destruct (select_next db) as [[job r]|] eqn:Hsel.
  - apply select_next_job in Hsel as (Hjob & Hp & _).
    assert (j ∈ export_queue db) as Hj by by eapply list_elem_of_lookup_2.
    assert (ExportJob.id j = ExportJob.id job -> j = job) as Hsame.
    { intros Hid. by apply (unique_id_elem (export_queue db)). }
    destruct Hq as [->|[text ->]]; rewrite list_lookup_fmap, Hi; simpl.
    + unfold mark_done. destruct (Z.eqb_spec (ExportJob.id j) (ExportJob.id job)) as [Hid|Hid].
      * rewrite (Hsame Hid). split; [done|]. eexists. split; [done|]. simpl.
        split_and!; try done. right. by split; [|left].
      * split; [done|]. exists j. split_and!; try done. by left.
    + unfold mark_failed. destruct (Z.eqb_spec (ExportJob.id j) (ExportJob.id job)) as [Hid|Hid].
      * rewrite (Hsame Hid). split; [done|]. eexists. split; [done|]. simpl.
        split_and!; try done. right. by split; [|right].
      * split; [done|]. exists j. split_and!; try done. by left.
  - rewrite Hq, Hi. split; [done|]. exists j. split_and!; try done. by left.
Qed.

Lemma cycle_rewrites_only_a_pending_job_witness :
  let db' := (_process_next Sample.config 160 SampleHistory.outcome SampleQueue.db_orphan).1 in
  (ExportJob.status (SampleQueue.job 1 "gone" 140) <> pending ->
   export_queue db' !! 0%nat = Some (SampleQueue.job 1 "gone" 140))
  /\ exists j',
      export_queue db' !! 0%nat = Some j'
      /\ ExportJob.id j' = ExportJob.id (SampleQueue.job 1 "gone" 140)
      /\ ExportJob.recording_id j' = ExportJob.recording_id (SampleQueue.job 1 "gone" 140)
      /\ ExportJob.export_type j' = ExportJob.export_type (SampleQueue.job 1 "gone" 140)
      /\ ExportJob.created_at j' = ExportJob.created_at (SampleQueue.job 1 "gone" 140)
      /\ (j' = SampleQueue.job 1 "gone" 140
          \/ (ExportJob.status (SampleQueue.job 1 "gone" 140) = pending
              /\ (ExportJob.status j' = done \/ ExportJob.status j' = failed))).
Proof.
  apply (cycle_rewrites_only_a_pending_job Sample.config 160 SampleHistory.outcome
           SampleQueue.db_orphan 0 (SampleQueue.job 1 "gone" 140)).
  - unfold unique_job_ids. compute_done.
  - reflexivity.
Defined.

(** ** Draining the queue *)

Lemma claimable_elem db j :
  claimable (map IndexedRecording.id (recordings db)) j = true
  <-> ExportJob.status j = pending
      /\ exists r, r ∈ recordings db /\ ExportJob.recording_id j = IndexedRecording.id r.
Proof.
  unfold claimable, is_pending. rewrite andb_true_iff, existsb_exists. split.
  - intros [Hp (i & Hi & Heq)]. split; [by destruct (ExportJob.status j)|].
    apply in_map_iff in Hi as (r & <- & Hr). apply String.eqb_eq in Heq.
    exists r. by rewrite list_elem_of_In.
  - intros [Hp (r & Hr & Hid)]. rewrite Hp. split; [done|].
    exists (IndexedRecording.id r). split; [|by apply String.eqb_eq].
    apply in_map. by apply list_elem_of_In.
Qed.

Lemma claim_next_None_count db : claim_next db = None <-> claimable_count db = 0%nat.
Proof.
  unfold claimable_count, claim_next. split.
  - destruct (select_next db) as [[job r]|] eqn:Hsel; [done|]. intros _.
    apply select_next_None in Hsel.
    destruct (List.filter _ _) as [|j q] eqn:Hf; [done|]. exfalso.
    assert (In j (List.filter (claimable (map IndexedRecording.id (recordings db)))
                              (export_queue db))) as Hin by (rewrite Hf; by left).
    apply filter_In in Hin as [Hj Hc]. apply claimable_elem in Hc as (Hp & r & Hr & Hid).
    assert ((j, r) ∈ pending_joined db) as Hpj.
    { apply pending_joined_elem. by rewrite list_elem_of_In. }
    rewrite Hsel in Hpj. by apply elem_of_nil in Hpj.
  - intros Hc. destruct (select_next db) as [[job r]|] eqn:Hsel; [|done]. exfalso.
    apply select_next_job in Hsel as (Hj & Hp & Hr & Hid).
    assert (In job (List.filter (claimable (map IndexedRecording.id (recordings db)))
                                (export_queue db))) as Hin.
    { apply filter_In. split; [by apply list_elem_of_In|].
      apply claimable_elem. split; [done|]. by exists r. }
    destruct (List.filter _ _); [done|simpl in Hc; lia].
Qed.

(** Rewriting the one row with the claimed id into a row that is not
    claimable takes one off the count. *)
Lemma filter_mark_count (P : ExportJob.t -> bool) (f : ExportJob.t -> ExportJob.t)
    (q : list ExportJob.t) job :
  NoDup (map ExportJob.id q) -> job ∈ q -> P job = true ->
  (forall j, f j = j \/ (ExportJob.id j = ExportJob.id job /\ P (f j) = false)) ->
  (forall j, ExportJob.id j = ExportJob.id job -> P (f j) = false) ->
  (length (List.filter P (map f q)) + 1 = length (List.filter P q))%nat.
Proof.
  intros Hnd Hjob HP Hf Hclaimed. induction q as [|x q IH]; [by apply elem_of_nil in Hjob|].
  simpl in Hnd. apply NoDup_cons in Hnd as [Hx Hnd].
  destruct (Z.eq_dec (ExportJob.id x) (ExportJob.id job)) as [Hid|Hid].
  - assert (x = job) as ->.
    { apply elem_of_cons in Hjob as [->|Hjob]; [done|].
      exfalso. apply Hx. rewrite Hid. by apply list_elem_of_fmap_2. }
    simpl. rewrite (Hclaimed job eq_refl), HP. simpl.
    replace (map f q) with q; [lia|].
    symmetry. rewrite <- (map_id q) at 2. apply map_ext_in. intros j Hj.
    destruct (Hf j) as [->|[Hidj _]]; [done|].
    exfalso. apply Hx. rewrite <- Hidj. apply list_elem_of_fmap_2. by apply list_elem_of_In.
  - apply elem_of_cons in Hjob as [->|Hjob]; [done|].
    simpl. destruct (Hf x) as [->|[Hidx _]]; [|done].
    specialize (IH Hnd Hjob). destruct (P x); simpl; lia.
Qed.

Lemma _process_next_count config now outcome db job r :
  unique_job_ids db -> select_next db = Some (job, r) ->
  (claimable_count (_process_next config now outcome db).1 + 1 = claimable_count db)%nat.
Proof.
  intros Hnd Hsel.
  pose proof (_process_next_spec config now outcome db) as Hspec. rewrite Hsel in Hspec.
  apply select_next_job in Hsel as (Hjob & Hp & Hr & Hid).
  assert (claimable (map IndexedRecording.id (recordings db)) job = true) as Hc.
  { apply claimable_elem. split; [done|]. by exists r. }
  unfold claimable_count.
  destruct Hspec as [(recs & -> & Hids & _)|(e & _ & _ & ->)]; simpl.
  - rewrite Hids. apply (filter_mark_count _ _ _ job); try done.
    + intros j. unfold mark_done. destruct (Z.eqb_spec (ExportJob.id j) (ExportJob.id job)); [|by left].
      right. done.
    + intros j Hj. unfold mark_done. apply Z.eqb_eq in Hj. by rewrite Hj.
  - apply (filter_mark_count _ _ _ job); try done.
    + intros j. unfold mark_failed. destruct (Z.eqb_spec (ExportJob.id j) (ExportJob.id job)); [|by left].
      right. done.
    + intros j Hj. unfold mark_failed. apply Z.eqb_eq in Hj. by rewrite Hj.
Qed.

Lemma _process_next_unique_ids config now outcome db :
  unique_job_ids db -> unique_job_ids (_process_next config now outcome db).1.
Proof.
  intros Hnd. pose proof (_process_next_queue config now outcome db) as Hq.
  unfold unique_job_ids.
  destruct (select_next db) as [[job r]|]; [|by rewrite Hq].
  destruct Hq as [->|[text ->]].
  - by rewrite (map_id_mark _ _ (mark_done_id now job)).
  - by rewrite (map_id_mark _ _ (mark_failed_id _ job)).
Qed.

Lemma run_cycles_drains config cycles db :
  unique_job_ids db -> (claimable_count db <= length cycles)%nat ->
  claim_next (run_cycles config cycles db) = None.
Proof.
  unfold run_cycles. revert db.
  induction cycles as [|[now outcome] cycles IH]; intros db Hnd Hc; simpl.
  - apply claim_next_None_count. simpl in Hc. lia.
  - apply IH; [by apply _process_next_unique_ids|].
    destruct (select_next db) as [[job r]|] eqn:Hsel.
    + pose proof (_process_next_count config now outcome db job r Hnd Hsel). simpl in Hc. lia.
    + assert (claim_next db = None) as Hnone by (unfold claim_next; by rewrite Hsel).
      pose proof (_process_next_spec config now outcome db) as Hspec. rewrite Hsel in Hspec.
      rewrite Hspec. simpl. apply claim_next_None_count in Hnone. lia.
Qed.

(** X14. [ExportQueue._process_loop], exporter.py: after at least as many cycles
    as there are pending jobs nothing is left to claim, whatever the
    renderer did in each cycle: the jobs still pending are those of
    recordings that are not indexed. *)
Theorem worker_drains_the_queue config (cycles : list (Z * AggOutcome)) (db : Database) :
  unique_job_ids db ->
  (length (List.filter is_pending (export_queue db)) <= length cycles)%nat ->
  claim_next (run_cycles config cycles db) = None
  /\ forall j r,
      j ∈ export_queue (run_cycles config cycles db) -> ExportJob.status j = pending ->
      r ∈ recordings (run_cycles config cycles db) ->
      ExportJob.recording_id j <> IndexedRecording.id r.
Proof.
  intros Hnd Hlen.
  assert (claim_next (run_cycles config cycles db) = None) as Hnone.
  { apply run_cycles_drains; [done|]. etrans; [|exact Hlen].
    unfold claimable_count, claimable. clear Hlen.
    induction (export_queue db) as [|x q IH]; [done|].
    cbn [List.filter]. destruct (is_pending x); cbn [andb]; [|exact IH].
    destruct (existsb _ _); cbn [length]; lia. }
  split; [done|]. intros j r Hj Hp Hr Hid.
  unfold claim_next in Hnone.
  destruct (select_next _) as [[? ?]|] eqn:Hsel; [done|].
  apply select_next_None in Hsel.
  assert ((j, r) ∈ pending_joined (run_cycles config cycles db)) as Hin
      by by apply pending_joined_elem.
  rewrite Hsel in Hin. by apply elem_of_nil in Hin.
Qed.

Lemma worker_drains_the_queue_witness :
  let cycles := [(160, Exited 0 EmptyString); (170, Exited 1 "boom"%string)] in
  claim_next (run_cycles Sample.config cycles SampleQueue.db_orphan) = None
  /\ forall j r,
      j ∈ export_queue (run_cycles Sample.config cycles SampleQueue.db_orphan) ->
      ExportJob.status j = pending ->
      r ∈ recordings (run_cycles Sample.config cycles SampleQueue.db_orphan) ->
      ExportJob.recording_id j <> IndexedRecording.id r.
Proof.
  apply (worker_drains_the_queue Sample.config
           [(160, Exited 0 EmptyString); (170, Exited 1 "boom"%string)] SampleQueue.db_orphan).
  - unfold unique_job_ids. compute_done.
  - simpl. lia.
Defined.

(** ** Paths under the recordings root *)

Lemma append_cons c (a b : string) : String c a +:+ b = String c (a +:+ b).
Proof. reflexivity. Qed.

Lemma append_nil (b : string) : EmptyString +:+ b = b.
Proof. reflexivity. Qed.

Lemma string_app_assoc (a b c : string) : (a +:+ b) +:+ c = a +:+ b +:+ c.
Proof. induction a as [|x a IH]; [done|]. rewrite !append_cons. by f_equal. Qed.

Lemma contains_app c (a b : string) :
  PurePath.contains c (a +:+ b) = PurePath.contains c a || PurePath.contains c b.
Proof.
  induction a as [|x a IH]; [done|]. rewrite append_cons. cbn [PurePath.contains].
  destruct (Ascii.eqb c x); [done|exact IH].
Qed.

Lemma name_no_slash (b : string) : PurePath.contains "/" b = false -> PurePath.name b = b.
Proof.
  destruct b as [|c b]; [done|]. cbn [PurePath.contains PurePath.name].
  destruct (Ascii.eqb_spec "/" c) as [|Hc]; [done|]. intros ->.
  by destruct (Ascii.eqb_spec c "/") as [->|].
Qed.

Lemma dir_no_slash (b : string) : PurePath.contains "/" b = false -> PurePath.dir b = EmptyString.
Proof.
  destruct b as [|c b]; [done|]. cbn [PurePath.contains PurePath.dir].
  destruct (Ascii.eqb_spec "/" c) as [|Hc]; [done|]. intros ->.
  by destruct (Ascii.eqb_spec c "/") as [->|].
Qed.

Lemma contains_slash_join (a b : string) : PurePath.contains "/" (a +:+ "/" +:+ b) = true.
Proof. rewrite contains_app. by rewrite orb_true_r. Qed.

Lemma name_join (a b : string) : PurePath.name (a +:+ "/" +:+ b) = PurePath.name b.
Proof.
  induction a as [|c a IH].
  - change (PurePath.name (String "/" b) = PurePath.name b). cbn [PurePath.name].
    destruct (PurePath.contains "/" b) eqn:Hb; [done|].
    by rewrite Ascii.eqb_refl, name_no_slash.
  - change (PurePath.name (String c (a +:+ "/" +:+ b)) = PurePath.name b). cbn [PurePath.name].
    rewrite contains_slash_join. exact IH.
Qed.

Lemma dir_join (a b : string) : PurePath.dir (a +:+ "/" +:+ b) = a +:+ "/" +:+ PurePath.dir b.
Proof.
  induction a as [|c a IH].
  - change (PurePath.dir (String "/" b) = String "/" (PurePath.dir b)). cbn [PurePath.dir].
    destruct (PurePath.contains "/" b) eqn:Hb; [done|].
    by rewrite Ascii.eqb_refl, dir_no_slash.
  - change (PurePath.dir (String c (a +:+ "/" +:+ b)) = String c (a +:+ "/" +:+ PurePath.dir b)).
    cbn [PurePath.dir].
    rewrite contains_slash_join. by rewrite IH.
Qed.

Lemma with_suffix_join (a b suffix : string) :
  PurePath.with_suffix (a +:+ "/" +:+ b) suffix = a +:+ "/" +:+ PurePath.with_suffix b suffix.
Proof.
  unfold PurePath.with_suffix. rewrite name_join, dir_join.
  by rewrite !string_app_assoc.
Qed.

Lemma string_prefix_app (a b : string) : String.prefix a (a +:+ b) = true.
Proof.
  induction a as [|c a IH]; [by destruct b|].
  rewrite append_cons. simpl. by destruct (Ascii.ascii_dec c c).
Qed.

Lemma string_drop_app (a b : string) : PurePath.drop (String.length a) (a +:+ b) = b.
Proof. induction a as [|c a IH]; [done|]. rewrite append_cons. exact IH. Qed.

Lemma string_length_app (a b : string) :
  String.length (a +:+ b) = (String.length a + String.length b)%nat.
Proof. induction a as [|c a IH]; [done|]. rewrite append_cons. simpl. by f_equal. Qed.

Lemma relative_to_join (root x : string) :
  PurePath.relative_to (root +:+ "/" +:+ x) root = Ok x.
Proof.
  unfold PurePath.relative_to.
  destruct (String.eqb_spec (root +:+ "/" +:+ x) root) as [Heq|_].
  { apply (f_equal String.length) in Heq. rewrite string_length_app in Heq. simpl in Heq. lia. }
  rewrite <- string_app_assoc, string_prefix_app.
  replace (String.length root + 1)%nat with (String.length (root +:+ "/")).
  - by rewrite string_drop_app.
  - rewrite string_length_app. simpl. lia.
Qed.

(** *** Parsing and joining *)

Lemma split_nonempty (s : string) : PurePath.split s <> [].
Proof.
  destruct s as [|c s]; [done|]. cbn [PurePath.split].
  destruct (Ascii.eqb c "/"); [done|]. by destruct (PurePath.split s).
Qed.

Lemma split_app_slash (a b : string) :
  PurePath.split (a +:+ "/" +:+ b) = PurePath.split a ++ PurePath.split b.
Proof.
  induction a as [|c a IH]; [done|].
  rewrite append_cons. cbn [PurePath.split]. rewrite IH.
  destruct (Ascii.eqb c "/"); [done|].
  pose proof (split_nonempty a). by destruct (PurePath.split a).
Qed.

Lemma split_no_slash (p : string) : PurePath.contains "/" p = false -> PurePath.split p = [p].
Proof.
  induction p as [|c p IH]; [done|]. cbn [PurePath.contains PurePath.split].
  destruct (Ascii.eqb_spec "/" c) as [|Hc]; [done|]. intros Hp.
  destruct (Ascii.eqb_spec c "/") as [->|_]; [done|]. by rewrite (IH Hp).
Qed.

Lemma split_pieces (s : string) :
  Forall (fun p => PurePath.contains "/" p = false) (PurePath.split s).
Proof.
  induction s as [|c s IH]; [by repeat constructor|]. cbn [PurePath.split].
  destruct (Ascii.eqb_spec c "/") as [->|Hc]; [by constructor|].
  pose proof (split_nonempty s). destruct (PurePath.split s) as [|p ps]; [done|].
  inversion IH as [|? ? Hp Hps]; subst. constructor; [|done].
  cbn [PurePath.contains]. by destruct (Ascii.eqb_spec "/" c) as [<-|_].
Qed.

Lemma components_ok (s : string) : Forall component_ok (PurePath.components s).
Proof.
  unfold PurePath.components. apply Forall_forall. intros p Hin.
  apply list_elem_of_In, filter_In in Hin as [Hin Hp].
  apply negb_true_iff, orb_false_iff in Hp as [H1 H2].
  split_and!.
  - intros ->. done.
  - intros ->. done.
  - pose proof (split_pieces s) as Hall. rewrite Forall_forall in Hall.
    apply Hall. by apply list_elem_of_In.
Qed.

Lemma concat_cons (p q : string) (rest : list string) :
  String.concat "/" (p :: q :: rest) = p +:+ "/" +:+ String.concat "/" (q :: rest).
Proof. reflexivity. Qed.

Lemma split_concat (parts : list string) :
  Forall (fun p => PurePath.contains "/" p = false) parts -> parts <> [] ->
  PurePath.split (String.concat "/" parts) = parts.
Proof.
  induction parts as [|p [|q rest] IH]; [done|..].
  - intros Hall _. inversion Hall; subst. by apply split_no_slash.
  - intros Hall _. inversion Hall as [|? ? Hp Hrest]; subst.
    rewrite concat_cons, split_app_slash, (split_no_slash _ Hp), IH; done.
Qed.

Lemma component_ok_no_slash (parts : list string) :
  Forall component_ok parts -> Forall (fun p => PurePath.contains "/" p = false) parts.
Proof. intros Hall. eapply Forall_impl; [exact Hall|]. by intros p (_ & _ & ?). Qed.

Lemma filter_components (parts : list string) :
  Forall component_ok parts ->
  List.filter (fun part => negb (String.eqb part EmptyString || String.eqb part ".")) parts
  = parts.
Proof.
  induction 1 as [|p parts (H1 & H2 & _) _ IH]; [done|]. cbn [List.filter].
  destruct (String.eqb_spec p EmptyString) as [|_]; [done|].
  destruct (String.eqb_spec p ".") as [|_]; [done|]. simpl. by rewrite IH.
Qed.

Lemma components_concat (parts : list string) :
  Forall component_ok parts -> PurePath.components (String.concat "/" parts) = parts.
Proof.
  intros Hall. destruct parts as [|p rest]; [done|].
  unfold PurePath.components.
  rewrite split_concat; [by apply filter_components|by apply component_ok_no_slash|done].
Qed.

Lemma prefix_slash_contains (p rest : string) :
  p <> EmptyString -> PurePath.contains "/" p = false ->
  String.prefix "/" (p +:+ rest) = false.
Proof.
  destruct p as [|c p]; [done|]. intros _. cbn [PurePath.contains].
  destruct (Ascii.eqb_spec "/" c) as [|Hc]; [done|]. intros _.
  rewrite append_cons. cbn [String.prefix]. by destruct (Ascii.ascii_dec "/" c).
Qed.

Lemma append_empty_r (p : string) : p +:+ EmptyString = p.
Proof. induction p as [|c p IH]; [done|]. rewrite append_cons. by rewrite IH. Qed.

Lemma concat_relative (parts : list string) :
  Forall component_ok parts -> String.prefix "/" (String.concat "/" parts) = false.
Proof.
  intros Hall. destruct parts as [|p [|q rest]]; [reflexivity|..];
    inversion Hall as [|? ? Hp _]; subst; destruct Hp as (H1 & _ & H3).
  - pose proof (prefix_slash_contains p EmptyString H1 H3) as H. rewrite append_empty_r in H.
    exact H.
  - rewrite concat_cons. by apply prefix_slash_contains.
Qed.

Lemma root_cases (s : string) :
  PurePath.root s = EmptyString \/ PurePath.root s = "/"%string \/ PurePath.root s = "//"%string.
Proof.
  unfold PurePath.root. destruct (String.prefix "/" s); [|by left].
  destruct (_ && _); auto.
Qed.

Lemma format_parsed_parts_parse (r : string) (parts : list string) :
  r = EmptyString \/ r = "/"%string \/ r = "//"%string ->
  Forall component_ok parts ->
  PurePath.root (PurePath.format_parsed_parts r parts) = r
  /\ PurePath.components (PurePath.format_parsed_parts r parts) = parts.
Proof.
  intros Hr Hall. pose proof (concat_relative parts Hall) as Hrel.
  pose proof (components_concat parts Hall) as Hc.
  destruct Hr as [->|[->| ->]].
  - destruct parts as [|p rest]; [done|].
    change (PurePath.format_parsed_parts EmptyString (p :: rest))
      with (String.concat "/" (p :: rest)).
    split; [|done]. unfold PurePath.root. by rewrite Hrel.
  - change (PurePath.format_parsed_parts "/" parts) with (String "/" (String.concat "/" parts)).
    split.
    + unfold PurePath.root. cbn [String.prefix]. revert Hrel.
      destruct (String.concat "/" parts) as [|c t]; [done|]. cbn [String.prefix].
      destruct (Ascii.ascii_dec "/" c); [|done]. by destruct t.
    + revert Hc. unfold PurePath.components. cbn [PurePath.split].
      rewrite Ascii.eqb_refl. cbn [List.filter]. done.
  - change (PurePath.format_parsed_parts "//" parts)
      with (String "/" (String "/" (String.concat "/" parts))).
    split.
    + unfold PurePath.root. cbn [String.prefix]. revert Hrel.
      destruct (String.concat "/" parts) as [|c t]; [done|]. cbn [String.prefix].
      destruct (Ascii.ascii_dec "/" c); [|done]. by destruct t.
    + revert Hc. unfold PurePath.components. cbn [PurePath.split].
      rewrite Ascii.eqb_refl. cbn [List.filter]. done.
Qed.

Lemma concat_app (xs ys : list string) :
  xs <> [] -> ys <> [] ->
  String.concat "/" (xs ++ ys) = String.concat "/" xs +:+ "/" +:+ String.concat "/" ys.
Proof.
  intros Hxs Hys. induction xs as [|x [|x' xs] IH]; [done|..].
  - destruct ys as [|y ys]; [done|]. reflexivity.
  - change ((x :: x' :: xs) ++ ys) with (x :: x' :: (xs ++ ys)).
    rewrite !concat_cons. change (x' :: xs ++ ys) with ((x' :: xs) ++ ys).
    rewrite IH; [|done]. by rewrite !string_app_assoc.
Qed.

Lemma format_parsed_parts_app (r : string) (xs ys : list string) :
  xs <> [] -> ys <> [] ->
  PurePath.format_parsed_parts r (xs ++ ys)
  = PurePath.format_parsed_parts r xs +:+ "/" +:+ String.concat "/" ys.
Proof.
  intros Hxs Hys.
  assert (forall zs, zs <> [] ->
                     PurePath.format_parsed_parts r zs = r +:+ String.concat "/" zs) as Hf.
  { intros [|z zs] Hzs; [done|]. by destruct r. }
  rewrite !Hf; [|done|by destruct xs].
  by rewrite concat_app, string_app_assoc.
Qed.

(** A relative [b] adds its components to those of [a]. *)
Lemma join_parse (a b : string) :
  String.prefix "/" b = false ->
  PurePath.root (PurePath.join a b) = PurePath.root a
  /\ PurePath.components (PurePath.join a b) = PurePath.components a ++ PurePath.components b.
Proof.
  intros Hb. unfold PurePath.join. rewrite Hb.
  apply format_parsed_parts_parse; [apply root_cases|].
  apply Forall_app. split; apply components_ok.
Qed.

Lemma normalize_relative (b : string) :
  String.prefix "/" b = false -> PurePath.components b <> [] ->
  PurePath.normalize b = String.concat "/" (PurePath.components b).
Proof.
  intros Hb Hc. unfold PurePath.normalize, PurePath.root. rewrite Hb.
  by destruct (PurePath.components b).
Qed.

(** Below a directory, joining is concatenation with the normal form. *)
Lemma join_join (a d b : string) :
  String.prefix "/" d = false -> PurePath.components d <> [] ->
  String.prefix "/" b = false -> PurePath.components b <> [] ->
  PurePath.join (PurePath.join a d) b = PurePath.join a d +:+ "/" +:+ PurePath.normalize b.
Proof.
  intros Hd Hcd Hb Hcb.
  destruct (join_parse a d Hd) as [Hroot Hparts].
  unfold PurePath.join at 1. rewrite Hb, Hroot, Hparts.
  rewrite format_parsed_parts_app; [|by destruct (PurePath.components a)|done].
  rewrite (normalize_relative b Hb Hcb).
  unfold PurePath.join. by rewrite Hd.
Qed.

Lemma recordings_root_join (config : Config) (cast : string) :
  String.prefix "/" cast = false -> PurePath.components cast <> [] ->
  PurePath.join (recordings_root config) cast
  = recordings_root config +:+ "/" +:+ PurePath.normalize cast.
Proof. intros Hb Hcb. by apply join_join. Qed.

Lemma name_concat (parts : list string) :
  Forall component_ok parts -> parts <> [] ->
  PurePath.name (String.concat "/" parts) <> EmptyString.
Proof.
  induction parts as [|p [|q rest] IH]; [done|..]; intros Hall _;
    inversion Hall as [|? ? Hp Hrest]; subst; destruct Hp as (H1 & _ & H3).
  - change (String.concat "/" [p]) with p. by rewrite name_no_slash.
  - rewrite concat_cons, name_join. by apply IH.
Qed.

Lemma name_normalize (cast : string) :
  String.prefix "/" cast = false -> PurePath.components cast <> [] ->
  PurePath.name (PurePath.normalize cast) <> EmptyString.
Proof.
  intros Hb Hcb. rewrite normalize_relative by done.
  apply name_concat; [apply components_ok|done].
Qed.

(** The renderer's arguments for a transcript path relative to the root. *)
Lemma _generate_gif_relative config outcome db recording_id cast :
  String.prefix "/" cast = false -> PurePath.components cast <> [] ->
  _generate_gif config outcome db recording_id (Some cast)
  = let relative := PurePath.normalize cast in
    let call := mkAggCall (recordings_root config +:+ "/" +:+ relative)
                          (recordings_root config +:+ "/" +:+ PurePath.with_suffix relative ".gif")
                          (gif_speed (export config)) (gif_max_idle (export config)) in
    match outcome with
    | SpawnFailed errno strerror => (Raise (OSError errno strerror "agg"), [call])
    | Exited returncode stderr =>
        if returncode =? 0
        then (Ok (update_gif_path recording_id (PurePath.with_suffix relative ".gif") db), [call])
        else (Raise (RuntimeError ("agg failed: " +:+ stderr)), [call])
    end.
Proof.
  intros Hrel Hparts. unfold _generate_gif.
  rewrite (recordings_root_join _ cast Hrel Hparts).
  rewrite name_join.
  destruct (String.eqb_spec (PurePath.name (PurePath.normalize cast)) EmptyString) as [Hn|_].
  { by apply name_normalize in Hn. }
  rewrite with_suffix_join, relative_to_join.
  destruct outcome as [errno strerror|returncode stderr]; [done|].
  by destruct (returncode =? 0).
Qed.





Lemma find_map_update (rid : string) (f : IndexedRecording.t -> IndexedRecording.t)
    (rows : list IndexedRecording.t) :
  (forall r, IndexedRecording.id (f r) = IndexedRecording.id r) ->
  List.find (fun r => String.eqb (IndexedRecording.id r) rid)
            (map (fun r => if String.eqb (IndexedRecording.id r) rid then f r else r) rows)
  = f <$> List.find (fun r => String.eqb (IndexedRecording.id r) rid) rows.
Proof.
  intros Hf. induction rows as [|r rows IH]; simpl; [done|].
  destruct (String.eqb (IndexedRecording.id r) rid) eqn:E.
  - by rewrite Hf, E.
  - by rewrite E.
Qed.

Lemma find_map_update_other (rid other : string) (f : IndexedRecording.t -> IndexedRecording.t)
    (rows : list IndexedRecording.t) :
  (forall r, IndexedRecording.id (f r) = IndexedRecording.id r) ->
  other <> rid ->
  List.find (fun r => String.eqb (IndexedRecording.id r) other)
            (map (fun r => if String.eqb (IndexedRecording.id r) rid then f r else r) rows)
  = List.find (fun r => String.eqb (IndexedRecording.id r) other) rows.
Proof.
  intros Hf Hne. induction rows as [|r rows IH]; simpl; [done|].
  destruct (String.eqb_spec (IndexedRecording.id r) rid) as [Hr|Hr].
  - rewrite Hf. destruct (String.eqb_spec (IndexedRecording.id r) other) as [|_]; [congruence|].
    exact IH.
  - by rewrite IH.
Qed.

(** X10. [ExportQueue._process_next] and [_generate_gif], exporter.py: when the
    renderer exits with 0 on a claimed "gif" job whose transcript path is
    relative and has a component, it was called once, on
    [recordings_dir / cast_path] and on that path with the suffix [.gif],
    with the configured speed and idle limit.  Both paths are in pathlib's
    normal form: the recordings directory, a slash, and the normal form of
    the transcript path.  The job is marked done, and the recording's
    [gif_path] is the path of the image relative to the recordings
    directory.  No other recording changes. *)
Theorem successful_render_stores_the_gif_path config (now : Z) (stderr : string)
    (db : Database) job r db1 (cast : string) :
  claim_next db = Some (job, r, db1) ->
  ExportJob.export_type job = "gif"%string ->
  IndexedRecording.cast_path r = Some cast ->
  String.prefix "/" cast = false ->
  PurePath.components cast <> [] ->
  let full_cast_path := PurePath.join (recordings_root config) cast in
  let gif := PurePath.with_suffix (PurePath.normalize cast) ".gif" in
  let db' := (_process_next config now (Exited 0 stderr) db).1 in
  (_process_next config now (Exited 0 stderr) db).2
  = [mkAggCall full_cast_path (PurePath.with_suffix full_cast_path ".gif")
               (gif_speed (export config)) (gif_max_idle (export config))]
  /\ full_cast_path = recordings_root config +:+ "/" +:+ PurePath.normalize cast
  /\ PurePath.with_suffix full_cast_path ".gif" = recordings_root config +:+ "/" +:+ gif
  /\ export_queue db' = map (mark_done now job) (export_queue db)
  /\ get_by_id db' (ExportJob.recording_id job)
     = IndexedRecording.set_gif_path (Some gif) <$> get_by_id db (ExportJob.recording_id job)
  /\ (forall other, other <> ExportJob.recording_id job -> get_by_id db' other = get_by_id db other).
Proof.
  intros Hclaim Hty Hcast Hrel Hparts full_cast_path gif db'. subst db' full_cast_path.
  rewrite (recordings_root_join config cast Hrel Hparts), with_suffix_join.
  unfold _process_next. rewrite Hclaim, Hty, Hcast. simpl String.eqb. cbv iota.
  rewrite (_generate_gif_relative _ _ _ _ _ Hrel Hparts). simpl.
  apply claim_next_Some in Hclaim as (_ & Hrecs & Hq).
  split_and!.
  - done.
  - done.
  - done.
  - rewrite Hq, map_map. apply map_ext. intros j. unfold mark_done, mark_processing.
    by destruct (ExportJob.id j =? ExportJob.id job) eqn:E; simpl; rewrite E.
  - unfold get_by_id. simpl. rewrite Hrecs. by apply find_map_update.
  - intros other Hne. unfold get_by_id. simpl. rewrite Hrecs.
    by apply find_map_update_other.
Qed.

Lemma successful_render_stores_the_gif_path_witness :
  let db := SampleRender.db in
  let job := SampleQueue.job 1 "r1" 140 in
  let db' := (_process_next SampleRender.config 160 (Exited 0 EmptyString) db).1 in
  (_process_next SampleRender.config 160 (Exited 0 EmptyString) db).2
  = [mkAggCall "/recordings/sub/r1.cast" "/recordings/sub/r1.gif" 1 2]
  /\ export_queue db' = [ExportJob.mk 1 "r1" "gif" done 140 (Some 160) None]
  /\ get_by_id db' "r1" = Some (IndexedRecording.set_gif_path (Some "sub/r1.gif") SampleRender.row).
Proof.
  pose proof (successful_render_stores_the_gif_path SampleRender.config 160 EmptyString
                SampleRender.db (SampleQueue.job 1 "r1" 140) SampleRender.row
                (update_job 1 (ExportJob.set_status processing) SampleRender.db)
                "./sub//r1.cast" eq_refl eq_refl eq_refl eq_refl
                ltac:(vm_compute; discriminate)) as (Hcalls & _ & _ & Hqueue & Hrow & _).
  split_and!; [exact Hcalls|exact Hqueue|exact Hrow].
Defined.

Lemma claim_next_database db job r db1 :
  claim_next db = Some (job, r, db1) ->
  db1 = update_job (ExportJob.id job) (ExportJob.set_status processing) db.
Proof.
  unfold claim_next. destruct (select_next db) as [[job' r']|]; [|done].
  by intros [= -> -> <-].
Qed.

Lemma failed_after_claim job text db :
  update_job (ExportJob.id job)
             (fun j => ExportJob.set_error (Some text) (ExportJob.set_status failed j))
             (update_job (ExportJob.id job) (ExportJob.set_status processing) db)
  = mkDatabase (recordings db) (map (mark_failed text job) (export_queue db))
               (export_queue_seq db).
Proof. same_queue_map. Qed.



(** X12. [ExportQueue._generate_gif], exporter.py: for a recording whose
    [cast_path] is NULL the path arithmetic raises a TypeError before the
    renderer is called; the job is marked failed with that text and the
    recordings are untouched. *)
Theorem job_without_transcript_fails_unrendered config (now : Z) (outcome : AggOutcome)
    (db : Database) job r db1 :
  claim_next db = Some (job, r, db1) ->
  ExportJob.export_type job = "gif"%string ->
  IndexedRecording.cast_path r = None ->
  _process_next config now outcome db
  = (mkDatabase (recordings db)
                (map (mark_failed "unsupported operand type(s) for /: 'PosixPath' and 'NoneType'"
                                  job)
                     (export_queue db))
                (export_queue_seq db),
     []).
Proof.
  intros Hclaim Hty Hcast.
  pose proof (claim_next_database _ _ _ _ Hclaim) as ->.
  unfold _process_next. rewrite Hclaim, Hty, Hcast. simpl.
  by rewrite <- failed_after_claim.
Qed.

Lemma job_without_transcript_fails_unrendered_witness :
  _process_next Sample.config 160 (Exited 0 EmptyString) SampleTranscript.db_without_cast
  = (mkDatabase (recordings SampleTranscript.db_without_cast)
                (map (mark_failed "unsupported operand type(s) for /: 'PosixPath' and 'NoneType'"
                                  (SampleQueue.job 1 "r1" 140))
                     (export_queue SampleTranscript.db_without_cast))
                (export_queue_seq SampleTranscript.db_without_cast),
     []).
Proof.
  apply (job_without_transcript_fails_unrendered Sample.config 160 (Exited 0 EmptyString)
           SampleTranscript.db_without_cast (SampleQueue.job 1 "r1" 140)
           SampleTranscript.row_without_cast
           (update_job 1 (ExportJob.set_status processing) SampleTranscript.db_without_cast));
    reflexivity.
Defined.

(** ** Deleting a recording's files *)

Lemma unlink_if_exists_files acc p : (unlink_if_exists acc p).2 = delete p acc.2.
Proof.
  unfold unlink_if_exists. destruct (acc.2 !! p) eqn:Hp; simpl; [done|].
  by rewrite delete_id.
Qed.

Lemma foldl_unlink_files paths acc :
  (foldl unlink_if_exists acc paths).2 = foldr delete acc.2 (rev paths).
Proof.
  revert acc. induction paths as [|p paths IH]; intros acc; simpl; [done|].
  rewrite IH, unlink_if_exists_files, foldr_app. done.
Qed.

Lemma foldr_delete_lookup (paths : list string) (m : gmap string Z) q :
  foldr delete m paths !! q = if decide (q ∈ paths) then None else m !! q.
Proof.
  induction paths as [|p paths IH].
  - destruct (decide (q ∈ [])) as [Hin|]; [by apply elem_of_nil in Hin|done].
  - cbn [foldr]. destruct (decide (p = q)) as [->|Hne].
    + rewrite lookup_delete_eq.
      destruct (decide (q ∈ q :: paths)) as [|Hnin]; [done|].
      exfalso. apply Hnin, list_elem_of_here.
    + rewrite lookup_delete_ne by done. rewrite IH.
      destruct (decide (q ∈ paths)) as [Hin|Hnin];
        destruct (decide (q ∈ p :: paths)) as [Hin'|Hnin']; try done.
      * exfalso. by apply Hnin', list_elem_of_further.
      * apply elem_of_cons in Hin' as [->|?]; done.
Qed.

Lemma foldl_unlink_absent paths acc :
  (forall p, p ∈ paths -> acc.2 !! p = None) -> foldl unlink_if_exists acc paths = acc.
Proof.
  revert acc. induction paths as [|p paths IH]; intros acc Habs; simpl; [done|].
  assert (unlink_if_exists acc p = acc) as ->.
  { unfold unlink_if_exists. rewrite Habs; [done|apply list_elem_of_here]. }
  apply IH. intros q Hq. apply Habs. by apply list_elem_of_further.
Qed.

Lemma elem_of_rev {A} (l : list A) x : x ∈ rev l <-> x ∈ l.
Proof. rewrite !list_elem_of_In. symmetry. apply in_rev. Qed.

Lemma _delete_recording_files_spec w recording_id meta_path :
  (_delete_recording_files w recording_id meta_path).1
  = (foldl unlink_if_exists (0, files w) (unlinked_paths meta_path)).1
  /\ index (_delete_recording_files w recording_id meta_path).2
     = (delete_recording (index w) recording_id).1
  /\ files (_delete_recording_files w recording_id meta_path).2
     = foldr delete (files w) (rev (unlinked_paths meta_path)).
Proof.
  unfold _delete_recording_files. fold (unlinked_paths meta_path).
  pose proof (foldl_unlink_files (unlinked_paths meta_path) (0, files w)) as Hf.
  destruct (foldl unlink_if_exists _ _) as [freed fs]. simpl in *. by subst.
Qed.

(** X21. [CleanupScheduler._delete_recording_files], cleanup.py: the metadata
    file and the three files named after it with the suffixes [.cast],
    [.gif] and [.png] are gone afterwards, every other file is as before,
    the row is gone from the index and the export queue is untouched. When
    none of the four files exists, nothing is freed. *)
Theorem delete_recording_files_unlinks_and_deletes (w : World)
    (recording_id meta_path : string) :
  let w' := (_delete_recording_files w recording_id meta_path).2 in
  (forall p, p ∈ unlinked_paths meta_path -> files w' !! p = None)
  /\ (forall q, q ∉ unlinked_paths meta_path -> files w' !! q = files w !! q)
  /\ get_by_id (index w') recording_id = None
  /\ export_queue (index w') = export_queue (index w)
  /\ ((forall p, p ∈ unlinked_paths meta_path -> files w !! p = None) ->
      (_delete_recording_files w recording_id meta_path).1 = 0 /\ files w' = files w).
Proof.
  destruct (_delete_recording_files_spec w recording_id meta_path) as (Hfreed & Hidx & Hfiles).
  simpl. rewrite Hidx, Hfiles. split_and!.
  - intros p Hp. rewrite foldr_delete_lookup. rewrite decide_True; [done|].
    by apply elem_of_rev.
  - intros q Hq. rewrite foldr_delete_lookup. rewrite decide_False; [done|].
    by rewrite elem_of_rev.
  - apply get_by_id_deleted.
  - done.
  - intros Habs. rewrite Hfreed.
    rewrite (foldl_unlink_absent _ (0, files w)) by done. split; [done|].
    apply map_eq. intros q. rewrite foldr_delete_lookup.
    destruct (decide _) as [Hq|]; [|done]. symmetry. apply Habs. by apply elem_of_rev.
Qed.

(** ** Siblings of a metadata file *)

Lemma strip_suffix_json (x : string) : PurePath.strip_suffix (x +:+ ".json") = x.
Proof.
  induction x as [|c x IH]; [done|].
  rewrite append_cons. cbn [PurePath.strip_suffix].
  rewrite contains_app. replace (PurePath.contains "." ".json") with true by done.
  rewrite orb_true_r, andb_false_r. by rewrite IH.
Qed.

Lemma with_suffix_meta_json (a id suffix : string) :
  PurePath.contains "/" id = false -> id <> EmptyString ->
  PurePath.with_suffix (a +:+ "/" +:+ id +:+ ".meta.json") suffix
  = a +:+ "/" +:+ id +:+ ".meta" +:+ suffix.
Proof.
  intros Hslash Hid. rewrite with_suffix_join. do 2 f_equal.
  unfold PurePath.with_suffix.
  assert (PurePath.contains "/" (id +:+ ".meta.json") = false) as Hs.
  { rewrite contains_app, Hslash. done. }
  rewrite (dir_no_slash _ Hs), (name_no_slash _ Hs), append_nil.
  rewrite <- string_app_assoc. f_equal.
  destruct id as [|c id]; [done|]. rewrite append_cons. cbn [PurePath.stem].
  change (id +:+ ".meta.json") with (id +:+ ".meta" +:+ ".json").
  by rewrite <- string_app_assoc, strip_suffix_json.
Qed.

Lemma append_inv_head (a b c : string) : a +:+ b = a +:+ c -> b = c.
Proof.
  induction a as [|x a IH]; [done|]. rewrite !append_cons. intros [= H]. by apply IH.
Qed.

(** X19. [CleanupScheduler._delete_recording_files], cleanup.py: for a metadata
    file [<id>.meta.json] the files unlinked are [<id>.meta.json],
    [<id>.meta.cast], [<id>.meta.gif] and [<id>.meta.png]; the
    recording's own [<id>.cast], [<id>.gif] and [<id>.png] are left
    on disk. *)
Theorem cleanup_unlinks_meta_siblings_only (w : World) (recording_id a id ext : string) :
  PurePath.contains "/" id = false -> id <> EmptyString ->
  ext ∈ [".cast"; ".gif"; ".png"]%string ->
  let meta_path := a +:+ "/" +:+ id +:+ ".meta.json" in
  unlinked_paths meta_path
  = [meta_path; a +:+ "/" +:+ id +:+ ".meta.cast"; a +:+ "/" +:+ id +:+ ".meta.gif";
     a +:+ "/" +:+ id +:+ ".meta.png"]
  /\ files (_delete_recording_files w recording_id meta_path).2 !! (a +:+ "/" +:+ id +:+ ext)
     = files w !! (a +:+ "/" +:+ id +:+ ext).
Proof.
  intros Hslash Hid Hext meta_path.
  assert (unlinked_paths meta_path
          = [meta_path; a +:+ "/" +:+ id +:+ ".meta.cast"; a +:+ "/" +:+ id +:+ ".meta.gif";
             a +:+ "/" +:+ id +:+ ".meta.png"]) as Hpaths.
  { unfold unlinked_paths, meta_path. simpl. by rewrite !with_suffix_meta_json. }
  split; [done|].
  destruct (_delete_recording_files_spec w recording_id meta_path) as (_ & _ & ->).
  rewrite foldr_delete_lookup. rewrite decide_False; [done|].
  rewrite elem_of_rev, Hpaths. unfold meta_path.
  intros Hin. repeat (apply elem_of_cons in Hin as [Heq|Hin]);
    [..|by apply elem_of_nil in Hin];
    rewrite <- !string_app_assoc in Heq; apply append_inv_head in Heq;
    repeat (apply elem_of_cons in Hext as [->|Hext]); try discriminate Heq;
    by apply elem_of_nil in Hext.
Qed.

Lemma cleanup_unlinks_meta_siblings_only_witness :
  let meta_path := "/s/recordings" +:+ "/" +:+ "r1" +:+ ".meta.json" in
  let w := mkWorld (index Sample.world_two)
                   (<["/s/recordings/r1.cast" := 7]> (files Sample.world_two)) in
  unlinked_paths meta_path
  = [meta_path; "/s/recordings" +:+ "/" +:+ "r1" +:+ ".meta.cast";
     "/s/recordings" +:+ "/" +:+ "r1" +:+ ".meta.gif";
     "/s/recordings" +:+ "/" +:+ "r1" +:+ ".meta.png"]
  /\ files (_delete_recording_files w "r1" meta_path).2
       !! ("/s/recordings" +:+ "/" +:+ "r1" +:+ ".cast")
     = files w !! ("/s/recordings" +:+ "/" +:+ "r1" +:+ ".cast").
Proof.
  apply (cleanup_unlinks_meta_siblings_only
           (mkWorld (index Sample.world_two)
                    (<["/s/recordings/r1.cast" := 7]> (files Sample.world_two)))
           "r1" "/s/recordings" "r1" ".cast").
  - reflexivity.
  - discriminate.
  - apply list_elem_of_here.
Defined.

(** ** The passes of [run_cleanup] *)

Lemma kept_cons i ids r :
  kept (i :: ids) r = negb (String.eqb (IndexedRecording.id r) i) && kept ids r.
Proof. unfold kept. simpl. by rewrite negb_orb. Qed.

Lemma filter_filter {A} (f g : A -> bool) (l : list A) :
  List.filter f (List.filter g l) = List.filter (fun x => g x && f x) l.
Proof.
  induction l as [|x l IH]; simpl; [done|].
  destruct (g x); simpl; [|done]. destruct (f x); by rewrite IH.
Qed.

Lemma foldr_delete_subseteq (paths : list string) (m : gmap string Z) :
  foldr delete m paths ⊆ m.
Proof.
  induction paths as [|p paths IH]; simpl; [done|].
  etrans; [apply delete_subseteq|exact IH].
Qed.

(** A deleting pass over [rows]: the rows with a listed identifier are
    gone, the others stay in place; files are only removed; the export
    queue is not touched. *)
Lemma delete_rows_deleting rows acc w :
  recordings (index (delete_rows false rows acc w).2)
  = List.filter (kept (map fst rows)) (recordings (index w))
  /\ export_queue (index (delete_rows false rows acc w).2) = export_queue (index w)
  /\ files (delete_rows false rows acc w).2 ⊆ files w
  /\ deleted_count (delete_rows false rows acc w).1 = deleted_count acc + Z.of_nat (length rows).
Proof.
  revert acc w. induction rows as [|[i m] rows IH]; intros acc w.
  - simpl. split_and!; try done; [|lia].
    symmetry. apply List.forallb_filter_id. by apply forallb_forall.
  - cbn [delete_rows].
    destruct (_delete_recording_files_spec w i m) as (_ & Hidx & Hfiles).
    destruct (_delete_recording_files w i m) as [freed w']. cbn [snd] in Hidx, Hfiles.
    destruct (IH (mkCleanupResult (deleted_count acc + 1) (freed_bytes acc + freed)) w')
      as (-> & -> & Hsub & ->).
    rewrite Hidx. simpl. split_and!.
    + rewrite filter_filter. apply List.filter_ext. intros r. by rewrite kept_cons.
    + done.
    + etrans; [exact Hsub|]. rewrite Hfiles. apply foldr_delete_subseteq.
    + lia.
Qed.

(** The size pass deletes the first [k] of its rows, for some [k]. *)
Lemma delete_until_deleting max_bytes rows current_size acc w :
  exists k, (delete_until false max_bytes rows current_size acc w).2
            = (delete_rows false (take k rows) acc w).2.
Proof.
  revert current_size acc w. induction rows as [|[i m] rows IH]; intros current_size acc w.
  - by exists 0%nat.
  - cbn [delete_until]. destruct (Qle_bool _ _); [by exists 0%nat|].
    destruct (_delete_recording_files w i m) as [freed w'] eqn:Hd.
    destruct (IH (current_size - freed)
                 (mkCleanupResult (deleted_count acc + 1) (freed_bytes acc + freed)) w')
      as [k Hk].
    exists (S k). cbn [take delete_rows]. by rewrite Hd.
Qed.

Lemma elem_of_kept ids r :
  kept ids r = true <-> IndexedRecording.id r ∉ ids.
Proof.
  unfold kept. rewrite negb_true_iff. split.
  - intros Hex Hin. apply not_true_iff_false in Hex. apply Hex.
    apply existsb_exists. exists (IndexedRecording.id r).
    split; [by apply list_elem_of_In|apply String.eqb_refl].
  - intros Hnin. apply not_true_iff_false. intros (i & Hi & Heq)%existsb_exists.
    apply String.eqb_eq in Heq as <-. by apply Hnin, list_elem_of_In.
Qed.

Lemma NoDup_map_elem {A B} (f : A -> B) (l : list A) x y :
  NoDup (map f l) -> x ∈ l -> y ∈ l -> f x = f y -> x = y.
Proof.
  induction l as [|z l IH]; simpl; intros Hnd Hx Hy Hf.
  - by apply elem_of_nil in Hx.
  - apply NoDup_cons in Hnd as [Hz Hnd].
    apply elem_of_cons in Hx as [->|Hx]; apply elem_of_cons in Hy as [->|Hy]; try done.
    + exfalso. apply Hz. rewrite Hf. by apply list_elem_of_fmap_2.
    + exfalso. apply Hz. rewrite <- Hf. by apply list_elem_of_fmap_2.
    + by apply IH.
Qed.

(** With unique identifiers, deleting the identifiers of [gone] removes
    the rows of [gone] and no other. *)
Lemma filter_kept_elem (recs gone : list IndexedRecording.t) r :
  NoDup (map IndexedRecording.id recs) ->
  (forall g, g ∈ gone -> g ∈ recs) ->
  (r ∈ List.filter (kept (map fst (map id_meta_path gone))) recs <-> r ∈ recs /\ r ∉ gone).
Proof.
  intros Hnd Hsub. rewrite list_elem_of_In, filter_In, <- list_elem_of_In, elem_of_kept.
  rewrite map_map. simpl. split.
  - intros [Hr Hnin]. split; [done|]. intros Hg. apply Hnin.
    by apply (list_elem_of_fmap_2 IndexedRecording.id).
  - intros [Hr Hnin]. split; [done|]. intros Hin.
    apply list_elem_of_fmap in Hin as (g & Hid & Hg).
    apply Hnin. by rewrite (NoDup_map_elem IndexedRecording.id recs r g Hnd Hr (Hsub g Hg) Hid).
Qed.

Lemma map_fst_id_meta_path (l : list IndexedRecording.t) :
  map fst (map id_meta_path l) = map IndexedRecording.id l.
Proof. by rewrite map_map. Qed.

Lemma filter_kept_nil (l : list IndexedRecording.t) : List.filter (kept []) l = l.
Proof. apply List.forallb_filter_id. by apply forallb_forall. Qed.

(** The index and files after a deleting run, pass by pass. *)
Lemma run_cleanup_deleting config now w :
  let cutoff := now - max_age_days (retention config) * 86400 in
  let recs0 := recordings (index w) in
  let old := List.filter (fun r => IndexedRecording.timestamp r <? cutoff) recs0 in
  let recs1 := List.filter (kept (map IndexedRecording.id old)) recs0 in
  let extra := Sqlite.limit_offset (-1) (max_count (retention config))
                 (Sqlite.order_by_desc IndexedRecording.timestamp recs1) in
  let recs2 := List.filter (kept (map IndexedRecording.id extra)) recs1 in
  exists k,
    recordings (index (run_cleanup config now false w).2)
    = List.filter (kept (map IndexedRecording.id
                             (take k (Sqlite.order_by IndexedRecording.timestamp recs2)))) recs2
    /\ export_queue (index (run_cleanup config now false w).2) = export_queue (index w)
    /\ files (run_cleanup config now false w).2 ⊆ files w.
Proof.
  intros cutoff recs0 old recs1 extra recs2. unfold run_cleanup.
  fold cutoff. fold recs0. fold old.
  pose proof (delete_rows_deleting (map id_meta_path old) (mkCleanupResult 0 0) w)
    as (Hr1 & Hq1 & Hf1 & _).
  destruct (delete_rows false (map id_meta_path old) _ w) as [acc1 w1].
  cbn [snd] in Hr1, Hq1, Hf1. rewrite map_fst_id_meta_path in Hr1. fold recs0 recs1 in Hr1.
  rewrite Hr1. fold extra.
  pose proof (delete_rows_deleting (map id_meta_path extra) acc1 w1) as (Hr2 & Hq2 & Hf2 & _).
  destruct (delete_rows false (map id_meta_path extra) acc1 w1) as [acc2 w2].
  cbn [snd] in Hr2, Hq2, Hf2. rewrite map_fst_id_meta_path, Hr1 in Hr2. fold recs2 in Hr2.
  rewrite Hr2.
  destruct (negb _).
  - destruct (delete_until_deleting
                (max_size_gb (retention config) * inject_Z (1024 * 1024 * 1024))%Q
                (map id_meta_path (Sqlite.order_by IndexedRecording.timestamp recs2))
                (_calculate_storage_size config w2) acc2 w2) as [k ->].
    exists k. rewrite firstn_map.
    pose proof (delete_rows_deleting
                  (map id_meta_path (take k (Sqlite.order_by IndexedRecording.timestamp recs2)))
                  acc2 w2) as (Hr3 & Hq3 & Hf3 & _).
    rewrite map_fst_id_meta_path, Hr2 in Hr3.
    split_and!; [done|congruence|]. etrans; [exact Hf3|]. by etrans.
  - exists 0%nat. simpl. rewrite filter_kept_nil.
    split_and!; [done|congruence|by etrans].
Qed.

Lemma sublist_filter_kept ids (l : list IndexedRecording.t) :
  List.filter (kept ids) l `sublist_of` l.
Proof. apply sublist_List_filter. Qed.

(** X17. [CleanupScheduler.run_cleanup], cleanup.py: a cleanup only removes.
    The rows left are a sublist of the rows before, the files left are
    files that were there with their sizes, and the export queue is not
    touched, so jobs of removed recordings stay queued. *)
Theorem run_cleanup_only_removes config (now : Z) (dry_run : bool) (w : World) :
  recordings (index (run_cleanup config now dry_run w).2) `sublist_of` recordings (index w)
  /\ export_queue (index (run_cleanup config now dry_run w).2) = export_queue (index w)
  /\ files (run_cleanup config now dry_run w).2 ⊆ files w.
Proof.
  destruct dry_run.
  - by destruct (run_cleanup_dry_run config now w) as [-> _].
  - destruct (run_cleanup_deleting config now w) as (k & -> & -> & Hf).
    split_and!; [|done..].
    etrans; [apply sublist_filter_kept|]. etrans; apply sublist_filter_kept.
Qed.

(** X15. [CleanupScheduler.run_cleanup], cleanup.py: after a cleanup that is not
    a dry run, no row is older than [max_age_days]. *)
Theorem run_cleanup_removes_the_old config (now : Z) (w : World) :
  Forall (fun r => now - max_age_days (retention config) * 86400 <= IndexedRecording.timestamp r)
         (recordings (index (run_cleanup config now false w).2)).
Proof.
  destruct (run_cleanup_deleting config now w) as (k & -> & _).
  apply Forall_forall. intros r Hr.
  apply list_elem_of_In, filter_In in Hr as [Hr _].
  apply filter_In in Hr as [Hr _].
  apply filter_In in Hr as [Hr Hkept].
  apply elem_of_kept in Hkept.
  destruct (Z.ltb_spec (IndexedRecording.timestamp r)
                       (now - max_age_days (retention config) * 86400)) as [Hlt|]; [|done].
  exfalso. apply Hkept. apply (list_elem_of_fmap_2 IndexedRecording.id).
  apply list_elem_of_In, filter_In. split; [done|]. by apply Z.ltb_lt.
Qed.

Lemma filter_kept_own_ids (l : list IndexedRecording.t) (P : IndexedRecording.t -> bool) :
  (forall r, r ∈ l -> P r = false) -> List.filter P l = [].
Proof.
  intros HP. induction l as [|x l IH]; simpl; [done|].
  rewrite HP by apply list_elem_of_here. apply IH. intros r Hr. apply HP.
  by apply list_elem_of_further.
Qed.

Lemma List_filter_Permutation {A} (f : A -> bool) (l l' : list A) :
  l ≡ₚ l' -> List.filter f l ≡ₚ List.filter f l'.
Proof.
  induction 1 as [|x l l' _ IH|x y l|l l' l'' _ IH1 _ IH2]; simpl.
  - done.
  - destruct (f x); by rewrite IH.
  - destruct (f x), (f y); try done. apply perm_swap.
  - by etrans.
Qed.

(** X16. [CleanupScheduler.run_cleanup], cleanup.py: after a cleanup that is not
    a dry run, at most [max_count] rows are left, for a [max_count] that
    is not negative. *)
Theorem run_cleanup_keeps_at_most_max_count config (now : Z) (w : World) :
  0 <= max_count (retention config) ->
  (length (recordings (index (run_cleanup config now false w).2))
   <= Z.to_nat (max_count (retention config)))%nat.
Proof.
  intros Hmax. destruct (run_cleanup_deleting config now w) as (k & -> & _).
  etrans; [apply List.filter_length_le|].
  set (recs1 := List.filter _ (recordings (index w))).
  set (sorted := Sqlite.order_by_desc IndexedRecording.timestamp recs1).
  unfold Sqlite.limit_offset. simpl.
  set (n := Z.to_nat (max_count (retention config))).
  set (P := kept (map IndexedRecording.id (drop n sorted))).
  assert (List.filter P recs1 ≡ₚ List.filter P sorted) as ->.
  { apply List_filter_Permutation. symmetry. apply order_by_desc_perm. }
  rewrite <- (take_drop n sorted) at 1. rewrite List.filter_app.
  rewrite (filter_kept_own_ids (drop n sorted)).
  - rewrite app_nil_r. etrans; [apply List.filter_length_le|]. rewrite length_take. lia.
  - intros r Hr. unfold P. apply not_true_iff_false. rewrite elem_of_kept.
    intros Hnin. apply Hnin. by apply list_elem_of_fmap_2.
Qed.

Lemma oldest_removed_trans a b c :
  oldest_removed a b -> oldest_removed b c -> oldest_removed a c.
Proof.
  intros [Hab Hab'] [Hbc Hbc']. split; [by etrans|].
  intros r r0 Hr Hr0 Hnin.
  destruct (decide (r0 ∈ b)) as [Hb|Hb].
  - by apply Hbc'.
  - apply Hab'; [|done..]. by eapply elem_of_sublist.
Qed.

(** A pass that deletes, by identifier, rows none of which is more recent
    than a row it leaves. *)
Lemma oldest_removed_pass (recs gone : list IndexedRecording.t) :
  NoDup (map IndexedRecording.id recs) ->
  (forall g, g ∈ gone -> g ∈ recs) ->
  (forall g r, g ∈ gone -> r ∈ recs -> r ∉ gone ->
               IndexedRecording.timestamp g <= IndexedRecording.timestamp r) ->
  oldest_removed recs (List.filter (kept (map IndexedRecording.id gone)) recs).
Proof.
  intros Hnd Hsub Hts. split; [apply sublist_List_filter|].
  intros r r0 Hr Hr0 Hnin.
  rewrite <- map_fst_id_meta_path in Hr, Hnin.
  apply filter_kept_elem in Hr as [Hr Hrgone]; [|done..].
  rewrite filter_kept_elem in Hnin by done.
  destruct (decide (r0 ∈ gone)) as [Hg|Hg]; [by apply Hts|].
  exfalso. by apply Hnin.
Qed.

Lemma NoDup_ids_filter (f : IndexedRecording.t -> bool) (recs : list IndexedRecording.t) :
  NoDup (map IndexedRecording.id recs) ->
  NoDup (map IndexedRecording.id (List.filter f recs)).
Proof.
  intros Hnd. eapply sublist_NoDup; [exact Hnd|].
  apply (fmap_sublist IndexedRecording.id), sublist_List_filter.
Qed.

Lemma StronglySorted_app_elem {A} (R : relation A) (l1 l2 : list A) x1 x2 :
  StronglySorted R (l1 ++ l2) -> x1 ∈ l1 -> x2 ∈ l2 -> R x1 x2.
Proof.
  induction l1 as [|y l1 IH]; simpl; intros Hs H1 H2.
  - by apply elem_of_nil in H1.
  - apply StronglySorted_inv in Hs as [Hs Hy].
    apply elem_of_cons in H1 as [->|H1]; [|by apply IH].
    rewrite Forall_forall in Hy. apply Hy. apply elem_of_app. by right.
Qed.

(** X22. [CleanupScheduler.run_cleanup], cleanup.py: the three passes remove the
    oldest first. Every row left after a cleanup is at least as recent as
    every row removed, when no two rows share an identifier. *)
Theorem run_cleanup_removes_oldest_first config (now : Z) (w : World) :
  NoDup (map IndexedRecording.id (recordings (index w))) ->
  oldest_removed (recordings (index w))
                 (recordings (index (run_cleanup config now false w).2)).
Proof.
  intros Hnd. destruct (run_cleanup_deleting config now w) as (k & -> & _).
  set (cutoff := now - max_age_days (retention config) * 86400).
  set (recs0 := recordings (index w)) in *.
  set (old := List.filter (fun r => IndexedRecording.timestamp r <? cutoff) recs0).
  set (recs1 := List.filter (kept (map IndexedRecording.id old)) recs0).
  set (sorted1 := Sqlite.order_by_desc IndexedRecording.timestamp recs1).
  set (extra := Sqlite.limit_offset (-1) (max_count (retention config)) sorted1).
  set (recs2 := List.filter (kept (map IndexedRecording.id extra)) recs1).
  set (sorted2 := Sqlite.order_by IndexedRecording.timestamp recs2).
  assert (NoDup (map IndexedRecording.id recs1)) as Hnd1 by by apply NoDup_ids_filter.
  assert (NoDup (map IndexedRecording.id recs2)) as Hnd2 by by apply NoDup_ids_filter.
  eapply oldest_removed_trans; [|eapply oldest_removed_trans].
  - apply (oldest_removed_pass recs0 old Hnd).
    + intros g Hg. by apply list_elem_of_In, filter_In in Hg as [Hg%list_elem_of_In _].
    + intros g r Hg Hr Hnin. apply list_elem_of_In, filter_In in Hg as [_ Hg].
      apply Z.ltb_lt in Hg.
      destruct (Z.ltb_spec (IndexedRecording.timestamp r) cutoff) as [Hlt|]; [|lia].
      exfalso. apply Hnin, list_elem_of_In, filter_In.
      split; [by apply list_elem_of_In|by apply Z.ltb_lt].
  - apply (oldest_removed_pass recs1 extra Hnd1).
    + intros g Hg. apply limit_offset_elem in Hg. unfold sorted1 in Hg.
      by rewrite (order_by_desc_perm IndexedRecording.timestamp) in Hg.
    + intros g r Hg Hr Hnin. unfold extra, Sqlite.limit_offset in Hg, Hnin. simpl in Hg, Hnin.
      pose proof (order_by_desc_sorted IndexedRecording.timestamp recs1) as Hs.
      fold sorted1 in Hs.
      rewrite <- (take_drop (Z.to_nat (max_count (retention config))) sorted1) in Hs.
      apply (StronglySorted_app_elem _ _ _ r g Hs); [|done].
      rewrite <- (order_by_desc_perm IndexedRecording.timestamp) in Hr. fold sorted1 in Hr.
      rewrite <- (take_drop (Z.to_nat (max_count (retention config))) sorted1) in Hr.
      by apply elem_of_app in Hr as [Hr|Hr].
  - apply (oldest_removed_pass recs2 (take k sorted2) Hnd2).
    + intros g Hg. apply (elem_of_sublist _ sorted2) in Hg; [|apply sublist_take].
      unfold sorted2 in Hg. by rewrite (order_by_perm IndexedRecording.timestamp) in Hg.
    + intros g r Hg Hr Hnin.
      pose proof (order_by_sorted IndexedRecording.timestamp recs2) as Hs.
      fold sorted2 in Hs. rewrite <- (take_drop k sorted2) in Hs.
      apply (StronglySorted_app_elem _ _ _ g r Hs); [done|].
      rewrite <- (order_by_perm IndexedRecording.timestamp) in Hr. fold sorted2 in Hr.
      rewrite <- (take_drop k sorted2) in Hr.
      by apply elem_of_app in Hr as [Hr|Hr].
Qed.

Lemma run_cleanup_removes_oldest_first_witness :
  NoDup (map IndexedRecording.id (recordings (index Sample.world_two)))
  /\ oldest_removed (recordings (index Sample.world_two))
                    (recordings (index (run_cleanup Sample.config 3000 false Sample.world_two).2)).
Proof.
  split; [compute_done|].
  apply (run_cleanup_removes_oldest_first Sample.config 3000 Sample.world_two).
  compute_done.
Defined.

Lemma run_cleanup_keeps_at_most_max_count_witness :
  (length (recordings (index (run_cleanup Sample.config 3000 false Sample.world_two).2))
   <= Z.to_nat (max_count (retention Sample.config)))%nat.
Proof.
  apply (run_cleanup_keeps_at_most_max_count Sample.config 3000 Sample.world_two).
  simpl. lia.
Defined.

(** X18. [CleanupScheduler.run_cleanup], cleanup.py: when no row is older than
    [max_age_days], there are at most [max_count] rows and the recordings
    directory is within [max_size_gb], a cleanup deletes nothing, frees
    nothing and leaves index and files as they are. *)
Theorem run_cleanup_within_policy_is_a_no_op config (now : Z) (dry_run : bool) (w : World) :
  Forall (fun r => now - max_age_days (retention config) * 86400 <= IndexedRecording.timestamp r)
         (recordings (index w)) ->
  (length (recordings (index w)) <= Z.to_nat (max_count (retention config)))%nat ->
  Qle_bool (inject_Z (_calculate_storage_size config w))
           (max_size_gb (retention config) * inject_Z (1024 * 1024 * 1024))%Q = true ->
  run_cleanup config now dry_run w = (mkCleanupResult 0 0, w).
Proof.
  intros Hage Hcount Hsize. unfold run_cleanup.
  assert (List.filter (fun r => IndexedRecording.timestamp r
                                <? now - max_age_days (retention config) * 86400)
                      (recordings (index w)) = []) as ->.
  { apply filter_kept_own_ids. intros r Hr. rewrite Forall_forall in Hage.
    apply Z.ltb_ge. by apply Hage. }
  simpl map. cbn [delete_rows].
  assert (Sqlite.limit_offset (-1) (max_count (retention config))
            (Sqlite.order_by_desc IndexedRecording.timestamp (recordings (index w))) = []) as ->.
  { unfold Sqlite.limit_offset. simpl. apply drop_ge.
    by rewrite (Permutation_length (order_by_desc_perm IndexedRecording.timestamp _)). }
  simpl map. cbn [delete_rows]. by rewrite Hsize.
Qed.

Lemma run_cleanup_within_policy_is_a_no_op_witness :
  run_cleanup Sample.config 3000 false
              (mkWorld Sample.db_one (files Sample.world_two))
  = (mkCleanupResult 0 0, mkWorld Sample.db_one (files Sample.world_two)).
Proof.
  apply (run_cleanup_within_policy_is_a_no_op Sample.config 3000 false
           (mkWorld Sample.db_one (files Sample.world_two))).
  - repeat constructor. simpl. lia.
  - simpl. lia.
  - vm_compute. reflexivity.
Defined.

(** ** Bytes freed *)

Lemma disk_usage_delete (fs : gmap string Z) p size :
  fs !! p = Some size -> disk_usage fs = disk_usage (delete p fs) + size.
Proof.
  intros Hp. unfold disk_usage.
  rewrite (map_fold_delete_L _ _ p size fs); [done| |done].
  intros. lia.
Qed.

Lemma unlink_if_exists_usage acc p :
  (unlink_if_exists acc p).1 + disk_usage (unlink_if_exists acc p).2
  = acc.1 + disk_usage acc.2.
Proof.
  unfold unlink_if_exists. destruct (acc.2 !! p) as [size|] eqn:Hp; [|done].
  simpl. rewrite (disk_usage_delete acc.2 p size Hp). lia.
Qed.

Lemma foldl_unlink_usage paths acc :
  (foldl unlink_if_exists acc paths).1 + disk_usage (foldl unlink_if_exists acc paths).2
  = acc.1 + disk_usage acc.2.
Proof.
  revert acc. induction paths as [|p paths IH]; intros acc; simpl; [done|].
  by rewrite IH, unlink_if_exists_usage.
Qed.

Lemma _delete_recording_files_usage w recording_id meta_path :
  (_delete_recording_files w recording_id meta_path).1
  + disk_usage (files (_delete_recording_files w recording_id meta_path).2)
  = disk_usage (files w).
Proof.
  unfold _delete_recording_files.
  pose proof (foldl_unlink_usage
                (meta_path :: map (PurePath.with_suffix meta_path) [".cast"; ".gif"; ".png"]%string)
                (0, files w)) as Hu.
  destruct (foldl unlink_if_exists _ _) as [freed fs]. simpl in *. lia.
Qed.

Lemma delete_rows_usage rows acc w :
  freed_bytes (delete_rows false rows acc w).1 + disk_usage (files (delete_rows false rows acc w).2)
  = freed_bytes acc + disk_usage (files w).
Proof.
  revert acc w. induction rows as [|[i m] rows IH]; intros acc w; [done|].
  cbn [delete_rows]. pose proof (_delete_recording_files_usage w i m) as Hu.
  destruct (_delete_recording_files w i m) as [freed w']. rewrite IH. simpl in *. lia.
Qed.

Lemma delete_until_usage max_bytes rows current_size acc w :
  freed_bytes (delete_until false max_bytes rows current_size acc w).1
  + disk_usage (files (delete_until false max_bytes rows current_size acc w).2)
  = freed_bytes acc + disk_usage (files w).
Proof.
  revert current_size acc w. induction rows as [|[i m] rows IH]; intros current_size acc w; [done|].
  cbn [delete_until]. destruct (Qle_bool _ _); [done|].
  pose proof (_delete_recording_files_usage w i m) as Hu.
  destruct (_delete_recording_files w i m) as [freed w']. rewrite IH. simpl in *. lia.
Qed.

(** X20. [CleanupScheduler.run_cleanup], cleanup.py: the [freed_bytes] reported
    by a cleanup that is not a dry run are the bytes by which the disk
    shrank: the total size of all files before, minus the total after. *)
Theorem run_cleanup_freed_bytes config (now : Z) (w : World) :
  freed_bytes (run_cleanup config now false w).1
  = disk_usage (files w) - disk_usage (files (run_cleanup config now false w).2).
Proof.
  unfold run_cleanup.
  match goal with
  | |- context [delete_rows false ?rows ?acc w] =>
      pose proof (delete_rows_usage rows acc w) as H1;
      destruct (delete_rows false rows acc w) as [acc1 w1]
  end.
  match goal with
  | |- context [delete_rows false ?rows acc1 w1] =>
      pose proof (delete_rows_usage rows acc1 w1) as H2;
      destruct (delete_rows false rows acc1 w1) as [acc2 w2]
  end.
  simpl in H1, H2. destruct (negb _).
  - match goal with
    | |- context [delete_until false ?mb ?rows ?cs acc2 w2] =>
        pose proof (delete_until_usage mb rows cs acc2 w2) as H3
    end.
    lia.
  - simpl. lia.
Qed.

(** ** Lookups in a table with unique keys *)

(** X27. [Indexer.get_by_id] and [Indexer.get_by_atuin_id], indexer.py: when
    the keys of the table are unique, every row is what [get_by_id] returns
    for its id and, if it has one, what [get_by_atuin_id] returns for its
    atuin_id. *)
Theorem lookups_find_every_row (db : Database) (r : IndexedRecording.t) :
  recordings_keys_ok (recordings db) ->
  r ∈ recordings db ->
  get_by_id db (IndexedRecording.id r) = Some r
  /\ forall a, IndexedRecording.atuin_id r = Some a -> get_by_atuin_id db a = Some r.
Proof.
  intros [Hid Hat] Hr. split.
  - unfold get_by_id. destruct (List.find _ _) as [r'|] eqn:Hf.
    + apply find_some in Hf as [Hr' Heq]. apply String.eqb_eq in Heq. f_equal.
      apply (NoDup_map_elem IndexedRecording.id (recordings db)); try done.
      by apply list_elem_of_In.
    + apply list_elem_of_In in Hr. pose proof (find_none _ _ Hf r Hr) as Hne.
      simpl in Hne. by rewrite String.eqb_refl in Hne.
  - intros a Ha. unfold get_by_atuin_id. destruct (List.find _ _) as [r'|] eqn:Hf.
    + apply find_some in Hf as [Hr' Heq]. f_equal.
      unfold Sqlite.text_eq in Heq.
      destruct (IndexedRecording.atuin_id r') as [a'|] eqn:Ha'; [|done].
      apply String.eqb_eq in Heq as ->. apply list_elem_of_In in Hr'.
      clear Hid. induction (recordings db) as [|x l IH]; [by apply elem_of_nil in Hr|].
      change (omap IndexedRecording.atuin_id (x :: l))
        with (match IndexedRecording.atuin_id x with
              | Some y => y :: omap IndexedRecording.atuin_id l
              | None => omap IndexedRecording.atuin_id l
              end) in Hat.
      apply elem_of_cons in Hr as [<-|Hr]; apply elem_of_cons in Hr' as [<-|Hr'].
      * done.
      * rewrite Ha in Hat. apply NoDup_cons in Hat as [Hnin _].
        exfalso. apply Hnin. apply list_elem_of_omap. by exists r'.
      * rewrite Ha' in Hat. apply NoDup_cons in Hat as [Hnin _].
        exfalso. apply Hnin. apply list_elem_of_omap. by exists r.
      * apply IH; try done. destruct (IndexedRecording.atuin_id x); [|done].
        by apply NoDup_cons in Hat as [_ ?].
    + apply list_elem_of_In in Hr. pose proof (find_none _ _ Hf r Hr) as Hne.
      simpl in Hne. rewrite Ha in Hne. simpl in Hne. by rewrite String.eqb_refl in Hne.
Qed.

Lemma lookups_find_every_row_witness :
  let r := row_of_metadata 100 Sample.meta_path Sample.meta in
  get_by_id (index SampleServer.world) (IndexedRecording.id r) = Some r
  /\ forall a, IndexedRecording.atuin_id r = Some a ->
               get_by_atuin_id (index SampleServer.world) a = Some r.
Proof.
  apply (lookups_find_every_row (index SampleServer.world)
           (row_of_metadata 100 Sample.meta_path Sample.meta)).
  - split; compute_done.
  - apply list_elem_of_here.
Defined.

(** ** Requests that read *)

Lemma eq_str_true v s : eq_str v s = true -> v = JStr s.
Proof.
  destruct v; try done. simpl. by intros ->%String.eqb_eq.
Qed.

Section ServerReads.

Variable json_loads : string -> result json.
Variable json_dumps : json -> string.
Variable repr_other : json -> string.
Variable bind_limit_offset : json -> json -> result (Z * Z).
Variable bind_text : json -> result (option string).

(** X23. [StatusServer._handle_client] and [_process_message], server.py: a
    request changes neither the index nor the files, unless it is an object
    whose action is "cleanup" and whose [dry_run] is not truthy. Requests
    that fail to parse, unknown actions and the four reading actions leave
    the state as it is. *)
Theorem only_a_deleting_cleanup_changes_the_state config (now : Z) (data : string) (w : World) :
  (forall fields,
      json_loads data = Ok (JObj fields) ->
      get_default fields "action" JNull = JStr "cleanup" ->
      truthy (get_default fields "dry_run" (JBool false)) = true) ->
  (_handle_client json_loads json_dumps repr_other bind_limit_offset bind_text
                  config now data w).2 = w.
Proof.
  intros Hdry. unfold _handle_client.
  destruct (json_loads data) as [message|e]; [|done].
  destruct message as [| | | | | |fields]; try done.
  specialize (Hdry fields eq_refl). unfold _process_message.
  destruct (eq_str _ "status"); [done|].
  destruct (eq_str _ "list"); [done|].
  destruct (eq_str _ "get"); [done|].
  destruct (eq_str _ "cleanup") eqn:Hc; [|done].
  apply eq_str_true in Hc. rewrite (Hdry Hc).
  destruct (run_cleanup_dry_run config now w) as [Hw _].
  destruct (run_cleanup config now true w) as [res w']. simpl in *. by subst.
Qed.

(** X24. [StatusServer._handle_client], server.py: a line that parses to JSON
    which is not an object (an array, a number, a string, ...) is answered
    with one error object that carries the text of the AttributeError raised
    by [message.get]; the writer is closed and the state untouched. *)
Theorem request_that_is_not_an_object config (now : Z) (data : string) (w : World) (v : json) :
  json_loads data = Ok v ->
  (forall fields, v <> JObj fields) ->
  _handle_client json_loads json_dumps repr_other bind_limit_offset bind_text
                 config now data w
  = (mkConnection
       [json_dumps (JObj [("error"%string,
                           JStr ("'" +:+ type_name v +:+ "' object has no attribute 'get'"))])
        +:+ newline] true, w).
Proof.
  intros Hload Hv. unfold _handle_client. rewrite Hload.
  destruct v as [| | | | | |fields]; try done. by destruct (Hv fields).
Qed.

End ServerReads.

Lemma only_a_deleting_cleanup_changes_the_state_witness :
  (_handle_client SampleServer.json_loads SampleServer.json_dumps SampleServer.repr_other
                  SampleServer.bind_limit_offset SampleServer.bind_text
                  Sample.config 0 SampleServer.get_line SampleServer.world).2
  = SampleServer.world.
Proof.
  apply (only_a_deleting_cleanup_changes_the_state
           SampleServer.json_loads SampleServer.json_dumps SampleServer.repr_other
           SampleServer.bind_limit_offset SampleServer.bind_text
           Sample.config 0 SampleServer.get_line SampleServer.world).
  intros fields Hload Haction. vm_compute in Hload. injection Hload as <-. discriminate Haction.
Defined.

Lemma request_that_is_not_an_object_witness :
  _handle_client SampleArray.json_loads SampleServer.json_dumps SampleServer.repr_other
                 SampleServer.bind_limit_offset SampleServer.bind_text
                 Sample.config 0 "[1]" SampleServer.world
  = (mkConnection
       [SampleServer.json_dumps
          (JObj [("error"%string,
                  JStr ("'" +:+ type_name (JArr [JInt 1]) +:+ "' object has no attribute 'get'"))])
        +:+ newline] true, SampleServer.world).
Proof.
  apply (request_that_is_not_an_object
           SampleArray.json_loads SampleServer.json_dumps SampleServer.repr_other
           SampleServer.bind_limit_offset SampleServer.bind_text
           Sample.config 0 "[1]" SampleServer.world (JArr [JInt 1])).
  - reflexivity.
  - discriminate.
Defined.

(** ** Metadata file names *)

Lemma cut_all_meta (id : string) :
  PurePath.contains "." id = false -> cut_all ".meta" 0 (id +:+ ".meta") = id.
Proof.
  induction id as [|c id IH]; [done|].
  cbn [PurePath.contains]. destruct (Ascii.eqb_spec "." c) as [|Hc]; [done|]. intros Hid.
  rewrite append_cons. cbn [cut_all].
  replace (String.prefix ".meta" (String c (id +:+ ".meta"))) with false.
  - by rewrite IH.
  - cbn [String.prefix]. by destruct (Ascii.ascii_dec "." c).
Qed.

Lemma contains_slash_meta_json (x : string) :
  PurePath.contains "/" x = false -> PurePath.contains "/" (x +:+ ".meta.json") = false.
Proof. intros Hx. by rewrite contains_app, Hx. Qed.

Lemma stem_meta_json (x : string) :
  x <> EmptyString -> PurePath.stem (x +:+ ".meta.json") = x +:+ ".meta".
Proof.
  intros Hx. destruct x as [|c x]; [done|]. rewrite !append_cons. cbn [PurePath.stem].
  change (x +:+ ".meta.json") with (x +:+ ".meta" +:+ ".json").
  by rewrite <- string_app_assoc, strip_suffix_json.
Qed.

Lemma recording_id_of_meta_json (a id : string) :
  id <> EmptyString -> PurePath.contains "/" id = false -> PurePath.contains "." id = false ->
  recording_id_of (a +:+ "/" +:+ id +:+ ".meta.json") = id.
Proof.
  intros Hne Hslash Hdot. unfold recording_id_of.
  rewrite name_join, (name_no_slash _ (contains_slash_meta_json _ Hslash)).
  rewrite (stem_meta_json _ Hne). by apply cut_all_meta.
Qed.

Lemma str_in_app (sub x y : string) : str_in sub (x +:+ sub +:+ y) = true.
Proof.
  induction x as [|c x IH].
  - rewrite append_nil. pose proof (string_prefix_app sub y) as Hp.
    destruct (sub +:+ y); cbn [str_in]; by rewrite Hp.
  - rewrite append_cons. cbn [str_in]. rewrite IH. apply orb_true_r.
Qed.

(** X28. [FileWatcher._watch_loop], file_watcher.py: an added file
    [<x>.meta.json] passes the test; a batch is handled as the batch of its
    changes that pass the test, in order; and a batch without added files
    changes nothing and logs nothing. *)
Theorem watcher_handles_new_metadata_files read_meta config (clock : string -> Z * Z)
    (changes : list (Change * string)) (db : Database) :
  (forall a x, x <> EmptyString -> PurePath.contains "/" x = false ->
               is_new_metadata added (a +:+ "/" +:+ x +:+ ".meta.json") = true)
  /\ watch_batch read_meta config clock changes db
     = watch_batch read_meta config clock
                   (List.filter (fun c => is_new_metadata c.1 c.2) changes) db
  /\ (Forall (fun c => c.1 <> added) changes ->
      watch_batch read_meta config clock changes db = (db, [])).
Proof.
  split_and!.
  - intros a x Hx Hslash. unfold is_new_metadata.
    rewrite name_join, (name_no_slash _ (contains_slash_meta_json _ Hslash)).
    apply andb_true_iff. split.
    + unfold suffix_of. rewrite (stem_meta_json _ Hx).
      change (x +:+ ".meta.json") with (x +:+ ".meta" +:+ ".json").
      by rewrite <- string_app_assoc, string_drop_app.
    + change (x +:+ ".meta.json") with (x +:+ ".meta" +:+ ".json"). apply str_in_app.
  - revert db. induction changes as [|[change path] rest IH]; intros db; [done|].
    cbn [watch_batch List.filter fst snd].
    destruct (is_new_metadata change path) eqn:E; [|apply IH].
    cbn [watch_batch]. rewrite E.
    destruct (_handle_new_recording _ _ _ _ _ _) as [db1 log1]. by rewrite IH.
  - intros Hall. revert db. induction Hall as [|[change path] rest Hc _ IH]; intros db; [done|].
    cbn [watch_batch]. simpl in Hc. destruct change; try done; apply IH.
Qed.

Lemma watcher_handles_new_metadata_files_witness :
  is_new_metadata added ("/s/recordings" +:+ "/" +:+ "r1" +:+ ".meta.json") = true.
Proof.
  apply (proj1 (watcher_handles_new_metadata_files Sample.read_meta Sample.config
                  (fun _ => (100, 140)) [] empty_database) "/s/recordings" "r1").
  - discriminate.
  - reflexivity.
Defined.

(** ** From a new metadata file to a claimed job *)

Lemma order_by_singleton {A} (key : A -> Z) (x : A) : Sqlite.order_by key [x] = [x].
Proof. reflexivity. Qed.

(** The joined rows after ingestion into an index without pending jobs. *)
Lemma pending_joined_after_ingestion now queue rid ty recs seq :
  List.filter is_pending queue = [] ->
  pending_joined (enqueue now (mkDatabase recs queue seq) rid ty)
  = map (fun r => (ExportJob.mk (next_job_id (mkDatabase recs queue seq)) rid ty pending now
                                None None, r))
        (List.filter (fun r => String.eqb rid (IndexedRecording.id r)) recs).
Proof.
  intros Hq. rewrite pending_joined_enqueue.
  unfold pending_joined at 1. simpl. by rewrite Hq.
Qed.

Lemma filter_eqb_sym (rid : string) (recs : list IndexedRecording.t) :
  List.filter (fun r => String.eqb rid (IndexedRecording.id r)) recs
  = List.filter (fun r => String.eqb (IndexedRecording.id r) rid) recs.
Proof. apply List.filter_ext. intros r. apply String.eqb_sym. Qed.

(** X25. [WatcherService._handle_new_recording], main.py: with gif export
    enabled and no job pending, a metadata file [<id>.meta.json] whose
    metadata has the id [<id>] is indexed, and the "gif" job enqueued for it
    is the one the next export cycle claims, joined to the new row. *)
Theorem ingested_recording_is_claimed read_meta config (t1 t2 : Z) (a id : string)
    (db : Database) (meta : RecordingMetadata.t) :
  gif_enabled (export config) = true ->
  id <> EmptyString -> PurePath.contains "/" id = false -> PurePath.contains "." id = false ->
  read_meta (a +:+ "/" +:+ id +:+ ".meta.json") = Ok meta ->
  RecordingMetadata.id meta = id ->
  List.filter is_pending (export_queue db) = [] ->
  let meta_path := a +:+ "/" +:+ id +:+ ".meta.json" in
  let db1 := (_handle_new_recording read_meta config t1 t2 meta_path db).1 in
  get_by_id db1 id = Some (row_of_metadata t1 meta_path meta)
  /\ exists db2,
      claim_next db1
      = Some (ExportJob.mk (next_job_id db) id "gif" pending t2 None None,
              row_of_metadata t1 meta_path meta, db2).
Proof.
  intros Hgif Hne Hslash Hdot Hread Hid Hq. cbv zeta.
  pose proof (recording_id_of_meta_json a id Hne Hslash Hdot) as Hrid.
  set (meta_path := a +:+ "/" +:+ id +:+ ".meta.json") in *.
  unfold _handle_new_recording, index_recording. rewrite Hread. simpl.
  rewrite Hgif, Hrid. cbn [fst].
  set (new := row_of_metadata t1 meta_path meta).
  assert (List.filter (fun r => String.eqb (IndexedRecording.id r) id)
                      (insert_or_replace new (recordings db)) = [new]) as Hrows.
  { rewrite <- Hid. apply (insert_or_replace_same_id new). }
  split.
  - unfold get_by_id. rewrite find_head_filter. simpl. by rewrite Hrows.
  - unfold claim_next, select_next.
    pose proof (pending_joined_after_ingestion t2 (export_queue db) id "gif"
                  (insert_or_replace new (recordings db)) (export_queue_seq db) Hq) as Hpj.
    unfold set_recordings. rewrite Hpj, filter_eqb_sym, Hrows. simpl.
    eexists. reflexivity.
Qed.



Lemma ingested_recording_is_claimed_witness :
  let meta_path := "/s/recordings" +:+ "/" +:+ "r1" +:+ ".meta.json" in
  let db1 := (_handle_new_recording Sample.read_meta Sample.config 100 140 meta_path
                                    empty_database).1 in
  get_by_id db1 "r1" = Some (row_of_metadata 100 meta_path Sample.meta)
  /\ exists db2,
      claim_next db1
      = Some (ExportJob.mk (next_job_id empty_database) "r1" "gif" pending 140 None None,
              row_of_metadata 100 meta_path Sample.meta, db2).
Proof.
  apply (ingested_recording_is_claimed Sample.read_meta Sample.config 100 140
           "/s/recordings" "r1" empty_database Sample.meta);
    try reflexivity. discriminate.
Defined.


(** ** The nearest dotfile *)

Lemma walk_up_spec path_exists (reversed : list string) :
  match Dotfile.walk_up path_exists reversed with
  | Some dotfile =>
      exists n, (n <= length reversed)%nat
                /\ dotfile = rev (drop n reversed) ++ [Dotfile.name]
                /\ path_exists dotfile = true
                /\ forall m, (m < n)%nat ->
                             path_exists (rev (drop m reversed) ++ [Dotfile.name]) = false
  | None =>
      forall m, path_exists (rev (drop m reversed) ++ [Dotfile.name]) = false
  end.
Proof.
  induction reversed as [|c parent IH]; cbn [Dotfile.walk_up].
  - destruct (path_exists (rev [] ++ [Dotfile.name])) eqn:E.
    + exists 0%nat. split_and!; try done. lia.
    + intros m. by rewrite drop_nil.
  - destruct (path_exists (rev (c :: parent) ++ [Dotfile.name])) eqn:E.
    + exists 0%nat. split_and!; try done; [simpl; lia|]. lia.
    + destruct (Dotfile.walk_up path_exists parent) as [dotfile|].
      * destruct IH as (n & Hn & -> & Hex & Hnear). exists (S n).
        split_and!; try done; [simpl; lia|].
        intros [|m] Hm; [done|]. apply Hnear. lia.
      * intros [|m]; [done|]. apply IH.
Qed.

(** X29. [find_dotfile], config.py: the result is [.termrecord.toml] in the
    nearest directory that has one, among the start directory and its
    ancestors up to the root; [None] is returned exactly when none of them
    has one. *)
Theorem find_dotfile_is_the_nearest path_exists (start_dir : list string) :
  match Dotfile.find_dotfile path_exists start_dir with
  | Some dotfile =>
      exists k, (k <= length start_dir)%nat
                /\ dotfile = take k start_dir ++ [Dotfile.name]
                /\ path_exists dotfile = true
                /\ forall k', (k < k' <= length start_dir)%nat ->
                              path_exists (take k' start_dir ++ [Dotfile.name]) = false
  | None =>
      forall k, path_exists (take k start_dir ++ [Dotfile.name]) = false
  end.
Proof.
  unfold Dotfile.find_dotfile.
  pose proof (walk_up_spec path_exists (rev start_dir)) as Hspec.
  assert (forall n, rev (drop n (rev start_dir)) = take (length start_dir - n) start_dir) as Hrev.
  { intros n. by rewrite skipn_rev, rev_involutive. }
  destruct (Dotfile.walk_up path_exists (rev start_dir)) as [dotfile|].
  - destruct Hspec as (n & Hn & -> & Hex & Hnear). rewrite length_rev in Hn.
    exists (length start_dir - n)%nat. rewrite Hrev in *.
    split_and!; try done; [lia|].
    intros k' Hk'. specialize (Hnear (length start_dir - k')%nat).
    rewrite Hrev in Hnear.
    replace (length start_dir - (length start_dir - k'))%nat with k' in Hnear by lia.
    apply Hnear. lia.
  - intros k. destruct (decide (k <= length start_dir)%nat) as [Hk|Hk].
    + specialize (Hspec (length start_dir - k)%nat). rewrite Hrev in Hspec.
      by replace (length start_dir - (length start_dir - k))%nat with k in Hspec by lia.
    + specialize (Hspec 0%nat). rewrite Hrev in Hspec.
      rewrite take_ge by lia. rewrite Nat.sub_0_r, firstn_all in Hspec. done.
Qed.

(** * The claims on orphaned jobs and on the get request *)

(** ** Jobs of a deleted recording, over histories *)

Lemma enqueue_unique_ids now db recording_id export_type :
  unique_job_ids db -> unique_job_ids (enqueue now db recording_id export_type).
Proof.
  unfold unique_job_ids. simpl. intros Hnd. rewrite map_app. simpl.
  apply NoDup_app. split_and!; [done| |apply NoDup_singleton].
  intros i Hi ->%list_elem_of_singleton.
  apply list_elem_of_fmap in Hi as (j & Hid & Hj).
  pose proof (next_job_id_fresh db j Hj). lia.
Qed.

Lemma index_recording_rows read_meta now meta_path meta db db' :
  read_meta meta_path = Ok meta ->
  index_recording read_meta now meta_path db = Ok db' ->
  recordings db' = insert_or_replace (row_of_metadata now meta_path meta) (recordings db).
Proof.
  unfold index_recording. intros ->. simpl. by intros [= <-].
Qed.

(** What a history without [rid] keeps, from an index with no row for
    [rid]: there is still no such row, and the jobs that reference [rid]
    are the jobs that did, in their order and as they were, followed by
    pending jobs enqueued since. *)
Lemma history_without_keeps_orphans rid db db' :
  history_without rid db db' ->
  unique_job_ids db ->
  rid ∉ map IndexedRecording.id (recordings db) ->
  unique_job_ids db'
  /\ (rid ∉ map IndexedRecording.id (recordings db'))
  /\ exists later,
      List.filter (references rid) (export_queue db')
      = List.filter (references rid) (export_queue db) ++ later
      /\ Forall (fun j => ExportJob.status j = pending) later.
Proof.
  intros Hh Hnd Hrid.
  induction Hh as [db|config now outcome db db' _ IH|now recording_id export_type db db' _ IH
                   |recording_id db db' _ IH|read_meta now meta_path meta db db' db'' _ IH Hread Hne Hidx].
  - split_and!; [done..|]. exists []. by rewrite app_nil_r.
  - destruct (IH Hnd Hrid) as (Hnd' & Hrid' & later & Hq & Hp).
    destruct (_process_next_keeps_orphans config now outcome db' rid Hnd' Hrid') as [Hrid'' Hq'].
    split_and!; [by apply _process_next_unique_ids|done|].
    exists later. by rewrite Hq'.
  - destruct (IH Hnd Hrid) as (Hnd' & Hrid' & later & Hq & Hp).
    split_and!; [by apply enqueue_unique_ids|done|]. simpl.
    rewrite List.filter_app, Hq. cbn [List.filter]. unfold references at 2. simpl.
    destruct (String.eqb recording_id rid).
    + exists (later ++ [ExportJob.mk (next_job_id db') recording_id export_type pending now
                                    None None]).
      split; [by rewrite app_assoc|]. apply Forall_app. split; [done|]. by constructor.
    + exists later. by rewrite app_nil_r.
  - destruct (IH Hnd Hrid) as (Hnd' & Hrid' & later & Hq & Hp).
    split_and!; [done| |by exists later]. simpl.
    intros Hin. apply Hrid'.
    apply list_elem_of_fmap in Hin as (r & -> & Hr).
    apply list_elem_of_In, filter_In in Hr as [Hr _].
    apply list_elem_of_fmap_2. by apply list_elem_of_In.
  - destruct (IH Hnd Hrid) as (Hnd' & Hrid' & later & Hq & Hp).
    pose proof (index_recording_queue _ _ _ _ _ Hidx) as Hqueue.
    pose proof (index_recording_rows _ _ _ _ _ _ Hread Hidx) as Hrows.
    split_and!.
    + unfold unique_job_ids. by rewrite Hqueue.
    + rewrite Hrows. intros Hin. apply list_elem_of_fmap in Hin as (r & Hr & Hin).
      apply insert_or_replace_elem in Hin as [->|[Hin _]].
      * by destruct meta.
      * apply Hrid'. rewrite Hr. by apply list_elem_of_fmap_2.
    + exists later. by rewrite Hqueue.
Qed.

Lemma run_cycles_history rid config cycles db :
  history_without rid db (run_cycles config cycles db).
Proof.
  unfold run_cycles. induction cycles as [|c cycles IH] using rev_ind; [apply without_refl|].
  rewrite foldl_snoc. by apply without_cycle.
Qed.

(** C9.  [delete_recording] leaves the export queue as it is.  For as
    long as no recording with the deleted identifier is indexed again,
    whatever worker cycles, enqueued jobs, deletions and indexing of other
    recordings follow and whatever the renderer does, the jobs that
    reference the identifier are the same rows as before the deletion (a
    pending one is still pending), followed by the jobs enqueued for it
    since, all pending; and the next claim does not take one of them.
    After worker cycles alone they are exactly the rows as before.  Once a
    recording with that identifier is indexed again, the claim query
    joins every pending job of the identifier to the new row. *)
Theorem jobs_of_deleted_recording_stay_pending (db db' : Database) (rid : string) :
  unique_job_ids db ->
  history_without rid (delete_recording db rid).1 db' ->
  export_queue (delete_recording db rid).1 = export_queue db
  /\ (exists later,
         List.filter (references rid) (export_queue db')
         = List.filter (references rid) (export_queue db) ++ later
         /\ Forall (fun j => ExportJob.status j = pending) later)
  /\ match claim_next db' with
     | Some (job, _, _) => ExportJob.recording_id job <> rid
     | None => True
     end
  /\ (forall config cycles,
         List.filter (references rid)
                     (export_queue (run_cycles config cycles (delete_recording db rid).1))
         = List.filter (references rid) (export_queue db))
  /\ (forall read_meta now meta_path meta db'' j,
         read_meta meta_path = Ok meta ->
         RecordingMetadata.id meta = rid ->
         index_recording read_meta now meta_path db' = Ok db'' ->
         j ∈ export_queue db' -> ExportJob.recording_id j = rid ->
         ExportJob.status j = pending ->
         (j, row_of_metadata now meta_path meta) ∈ pending_joined db'').
Proof.
  intros Hnd Hh.
  destruct (history_without_keeps_orphans rid _ db' Hh) as (Hnd' & Hrid & Hlater);
    [done|apply delete_recording_orphans|].
  split_and!.
  - done.
  - done.
  - unfold claim_next.
    destruct (select_next db') as [[job r]|] eqn:Hsel; [|done].
    by eapply select_next_not_orphan.
  - intros config cycles.
    by destruct (run_cycles_keeps_orphans config cycles (delete_recording db rid).1 rid)
      as (_ & _ & Hq); [done|apply delete_recording_orphans|].
  - intros read_meta now meta_path meta db'' j Hread Hid Hidx Hj Hjrid Hpending.
    apply pending_joined_elem. split_and!.
    + by rewrite (index_recording_queue _ _ _ _ _ Hidx).
    + done.
    + rewrite (index_recording_rows _ _ _ _ _ _ Hread Hidx).
      apply insert_or_replace_elem. by left.
    + rewrite Hjrid, <- Hid. by destruct meta.
Qed.

Lemma jobs_of_deleted_recording_stay_pending_witness :
  let db := SampleQueue.db_one_job in
  let db' := enqueue 180 (_process_next Sample.config 160 (Exited 0 EmptyString)
                                        (delete_recording db "r1").1).1 "r1" "gif" in
  export_queue (delete_recording db "r1").1 = export_queue db
  /\ (exists later,
         List.filter (references "r1") (export_queue db')
         = List.filter (references "r1") (export_queue db) ++ later
         /\ Forall (fun j => ExportJob.status j = pending) later)
  /\ claim_next db' = None.
Proof.
  pose proof (jobs_of_deleted_recording_stay_pending SampleQueue.db_one_job
                (enqueue 180 (_process_next Sample.config 160 (Exited 0 EmptyString)
                                (delete_recording SampleQueue.db_one_job "r1").1).1 "r1" "gif")
                "r1" ltac:(unfold unique_job_ids; compute_done)
                ltac:(apply without_enqueue, without_cycle, without_refl))
    as (Hq & Hlater & _ & _ & _).
  split_and!; [exact Hq|exact Hlater|reflexivity].
Defined.

(** C9, as the claim states it, fails: the job of a deleted recording is
    orphaned only until a recording with its identifier is indexed again.
    After [r1] is deleted no job can be claimed; after the metadata file of
    [r1] is indexed again, the next worker cycle claims the job of before
    the deletion and marks it done. *)
Theorem reindexed_recording_revives_the_job :
  let deleted := (delete_recording SampleQueue.db_one_job "r1").1 in
  export_queue deleted = [SampleQueue.job 1 "r1" 140]
  /\ claim_next deleted = None
  /\ exists reindexed,
      index_recording Sample.read_meta 150 Sample.meta_path deleted = Ok reindexed
      /\ export_queue (_process_next Sample.config 160 (Exited 0 EmptyString) reindexed).1
         = [ExportJob.mk 1 "r1" "gif" done 140 (Some 160) None].
Proof.
  split_and!; [reflexivity..|].
  eexists. split; reflexivity.
Qed.

(** ** The get request on a table with unique keys *)

Lemma find_unique {A} (p : A -> bool) (l : list A) (x : A) :
  x ∈ l -> p x = true -> (forall y, y ∈ l -> p y = true -> y = x) -> List.find p l = Some x.
Proof.
  intros Hx Hp Huniq. destruct (List.find p l) as [y|] eqn:Hf.
  - apply find_some in Hf as [Hy Hpy]. f_equal. apply Huniq; [by apply list_elem_of_In|done].
  - apply list_elem_of_In in Hx. by rewrite (find_none _ _ Hf x Hx) in Hp.
Qed.

Lemma NoDup_omap_elem {A B} (f : A -> option B) (l : list A) x y b :
  NoDup (omap f l) -> x ∈ l -> y ∈ l -> f x = Some b -> f y = Some b -> x = y.
Proof.
  induction l as [|z l IH]; intros Hnd Hx Hy Hfx Hfy.
  - by apply elem_of_nil in Hx.
  - change (omap f (z :: l))
      with (match f z with Some c => c :: omap f l | None => omap f l end) in Hnd.
    apply elem_of_cons in Hx as [->|Hx]; apply elem_of_cons in Hy as [->|Hy].
    + done.
    + rewrite Hfx in Hnd. apply NoDup_cons in Hnd as [Hnin _].
      exfalso. apply Hnin. apply list_elem_of_omap. by exists y.
    + rewrite Hfy in Hnd. apply NoDup_cons in Hnd as [Hnin _].
      exfalso. apply Hnin. apply list_elem_of_omap. by exists x.
    + apply IH; try done. destruct (f z); [|done]. by apply NoDup_cons in Hnd as [_ ?].
Qed.

Lemma get_by_id_unique db r :
  NoDup (map IndexedRecording.id (recordings db)) -> r ∈ recordings db ->
  get_by_id db (IndexedRecording.id r) = Some r.
Proof.
  intros Hnd Hr. apply find_unique; [done|apply String.eqb_refl|].
  intros y Hy Heq%String.eqb_eq.
  by apply (NoDup_map_elem IndexedRecording.id (recordings db)).
Qed.

Lemma get_by_atuin_id_unique db r a :
  NoDup (omap IndexedRecording.atuin_id (recordings db)) -> r ∈ recordings db ->
  IndexedRecording.atuin_id r = Some a ->
  get_by_atuin_id db a = Some r.
Proof.
  intros Hnd Hr Ha. apply find_unique; [done|by rewrite Ha; apply String.eqb_refl|].
  intros y Hy Heq. unfold Sqlite.text_eq in Heq.
  destruct (IndexedRecording.atuin_id y) as [a'|] eqn:Hay; [|done].
  apply String.eqb_eq in Heq as ->.
  by apply (NoDup_omap_elem IndexedRecording.atuin_id (recordings db) y r a).
Qed.

Lemma model_dump_not_null r : model_dump r <> JNull.
Proof. done. Qed.

Section ServerGet.

Variable repr_other : json -> string.
Variable bind_limit_offset : json -> json -> result (Z * Z).
Variable bind_text : json -> result (option string).

(** C8.  For a get request whose id is the string [i], on a table whose
    keys are unique: when a recording has the primary identifier [i], the
    answer is that recording, whatever the external identifiers of the
    other rows are; when none has, but a recording has the external
    identifier [i], the answer is that recording; the answer is the object
    with [recording] null, not an error, exactly when no recording has [i]
    as either identifier.  The state is unchanged. *)
Theorem get_tries_id_then_atuin_id config (now : Z) (fields : list (string * json))
    (i : string) (w : World) :
  get_default fields "action" JNull = JStr "get" ->
  get_default fields "id" JNull = JStr i ->
  recordings_keys_ok (recordings (index w)) ->
  let response :=
    (_process_message repr_other bind_limit_offset bind_text config now (JObj fields) w).1 in
  (_process_message repr_other bind_limit_offset bind_text config now (JObj fields) w).2 = w
  /\ (forall r, r ∈ recordings (index w) -> IndexedRecording.id r = i ->
                response = Ok (JObj [("recording"%string, model_dump r)]))
  /\ (forall r, r ∈ recordings (index w) -> IndexedRecording.atuin_id r = Some i ->
                (forall r', r' ∈ recordings (index w) -> IndexedRecording.id r' <> i) ->
                response = Ok (JObj [("recording"%string, model_dump r)]))
  /\ (response = Ok (JObj [("recording"%string, JNull)])
      <-> forall r, r ∈ recordings (index w) ->
                    IndexedRecording.id r <> i /\ IndexedRecording.atuin_id r <> Some i).
Proof.
  intros Haction Hid [Hids Hatuin] response. subst response.
  unfold _process_message. rewrite Haction, Hid. simpl.
  split_and!; [done|..].
  - intros r Hr <-. by rewrite (get_by_id_unique _ r Hids Hr).
  - intros r Hr Ha Hnone.
    destruct (get_by_id (index w) i) as [r'|] eqn:Hget.
    { apply get_by_id_Some in Hget as [Hr' Hid']. by destruct (Hnone r' Hr'). }
    by rewrite (get_by_atuin_id_unique _ r i Hatuin Hr Ha).
  - split.
    + intros Hnull r Hr.
      destruct (get_by_id (index w) i) as [r'|] eqn:Hget.
      { injection Hnull as Hnull. by destruct (model_dump_not_null r'). }
      destruct (get_by_atuin_id (index w) i) as [r'|] eqn:Hgeta.
      { injection Hnull as Hnull. by destruct (model_dump_not_null r'). }
      split; [by eapply get_by_id_None|by eapply get_by_atuin_id_None].
    + intros Hnone.
      destruct (get_by_id (index w) i) as [r'|] eqn:Hget.
      { apply get_by_id_Some in Hget as [Hr' Hid']. by destruct (Hnone r' Hr') as [? _]. }
      destruct (get_by_atuin_id (index w) i) as [r'|] eqn:Hgeta.
      { apply get_by_atuin_id_Some in Hgeta as [Hr' Ha']. by destruct (Hnone r' Hr') as [_ ?]. }
      done.
Qed.

End ServerGet.

Lemma get_tries_id_then_atuin_id_witness :
  let ask := fun i =>
    (_process_message SampleServer.repr_other SampleServer.bind_limit_offset
                      SampleServer.bind_text Sample.config 0
                      (JObj (SampleGet.get_fields i)) SampleGet.world).1 in
  ask "r2"%string
  = Ok (JObj [("recording",
               JObj [("id", JStr "r2"); ("atuin_id", JStr "a2"); ("command", JStr "make");
                     ("timestamp", JFloat (float_of_Z 2000));
                     ("duration", JFloat (float_of_Z 3)); ("exit_code", JInt 2);
                     ("cwd", JStr "/home/ab"); ("shell", JNull); ("user", JNull);
                     ("hostname", JNull); ("cast_path", JStr "r2.cast"); ("gif_path", JNull);
                     ("screenshot_path", JNull);
                     ("meta_path", JStr "/s/recordings/r2.meta.json");
                     ("indexed_at", JInt 200)])]%string)
  /\ ask "a2"%string = ask "r2"%string
  /\ ask "zz"%string = Ok (JObj [("recording"%string, JNull)]).
Proof.
  assert (recordings_keys_ok (recordings (index SampleGet.world))) as Hkeys.
  { split; compute_done. }
  split_and!.
  - apply (proj1 (proj2 (get_tries_id_then_atuin_id
                           SampleServer.repr_other SampleServer.bind_limit_offset
                           SampleServer.bind_text Sample.config 0
                           (SampleGet.get_fields "r2") "r2" SampleGet.world
                           eq_refl eq_refl Hkeys)) SampleGet.row2);
      [compute_done|reflexivity].
  - transitivity (Ok (JObj [("recording"%string, model_dump SampleGet.row2)]) : result json);
      [|reflexivity].
    apply (proj1 (proj2 (proj2 (get_tries_id_then_atuin_id
                                  SampleServer.repr_other SampleServer.bind_limit_offset
                                  SampleServer.bind_text Sample.config 0
                                  (SampleGet.get_fields "a2") "a2" SampleGet.world
                                  eq_refl eq_refl Hkeys))) SampleGet.row2);
      [compute_done|reflexivity|].
    intros r' Hr' Hid. revert Hr' Hid. simpl. rewrite !elem_of_cons, elem_of_nil.
    intros [->|[->|[]]]; discriminate.
  - apply (proj2 (proj2 (proj2 (proj2 (get_tries_id_then_atuin_id
                                         SampleServer.repr_other SampleServer.bind_limit_offset
                                         SampleServer.bind_text Sample.config 0
                                         (SampleGet.get_fields "zz") "zz" SampleGet.world
                                         eq_refl eq_refl Hkeys))))).
    intros r. simpl. rewrite !elem_of_cons, elem_of_nil.
    intros [->|[->|[]]]; split; discriminate.
Defined.
